(** * mdbasequery: expression language and query engine, shallow embedding

    The development follows the sources
    - [src/src/core/expression/parser.ts]      tokenizer and parser,
    - [src/unnamed/part_003]                    the expression evaluator,
    - [src/src/core/query-engine.ts]            query compiler and executor
                                                (the second, current half of the file).

    Modelling conventions.
    - JavaScript strings are sequences of UTF-16 code units; the model covers
      strings whose code units are below 256, one [ascii] per code unit
      (read as Latin-1).
    - JavaScript numbers are modelled by their integer values ([Z]); a run that
      would produce a fractional or non-finite number leaves the modelled
      fragment and ends in [Outside] rather than in a wrong value.
    - A thrown JavaScript exception is [Throw e]; [Outside] is never caught by
      the code's own [try]/[catch]. *)

From Stdlib Require Import String Ascii List ZArith Bool Lia Permutation Sorted Relations.
Import ListNotations.
Open Scope string_scope.
Open Scope Z_scope.
Set Warnings "-register-all".

(* ------------------------------------------------------------------------- *)
(** ** Outcomes of JavaScript code *)

Record js_error := mk_error { err_name : string; err_message : string }.

Inductive outcome (A : Type) : Type :=
| Ok (a : A)
| Throw (e : js_error)
| Outside.
Arguments Ok {A} a.
Arguments Throw {A} e.
Arguments Outside {A}.

Definition bind {A B} (m : outcome A) (k : A -> outcome B) : outcome B :=
  match m with
  | Ok a => k a
  | Throw e => Throw e
  | Outside => Outside
  end.

Notation "x <- m ;; k" := (bind m (fun x => k))
  (at level 61, m at next level, right associativity).

Definition throw_error {A} (msg : string) : outcome A := Throw (mk_error "Error" msg).

(* ------------------------------------------------------------------------- *)
(** ** Characters and strings *)

Definition chars := list ascii.

Definition code (c : ascii) : nat := nat_of_ascii c.

Definition in_range (lo hi : nat) (c : ascii) : bool :=
  (lo <=? code c)%nat && (code c <=? hi)%nat.

(** [/\s/] restricted to code units below 256: TAB, LF, VT, FF, CR, SPACE, NBSP. *)
Definition isWhitespace (c : ascii) : bool :=
  in_range 9 13 c || (code c =? 32)%nat || (code c =? 160)%nat.

Definition isDigit (c : ascii) : bool := in_range 48 57 c.
Definition isAlpha (c : ascii) : bool := in_range 65 90 c || in_range 97 122 c.

(** [/[A-Za-z_$]/] and [/[A-Za-z0-9_$]/] *)
Definition isIdentifierStart (c : ascii) : bool :=
  isAlpha c || (c =? "_")%char || (c =? "$")%char.
Definition isIdentifierPart (c : ascii) : bool :=
  isIdentifierStart c || isDigit c.

(** [\w] of a regular expression *)
Definition isWordChar (c : ascii) : bool :=
  isAlpha c || isDigit c || (c =? "_")%char.

Definition str (l : chars) : string := string_of_list_ascii l.
Definition chs (s : string) : chars := list_ascii_of_string s.

Fixpoint starts_with (p l : chars) : bool :=
  match p, l with
  | [], _ => true
  | c :: p', d :: l' => (c =? d)%char && starts_with p' l'
  | _ :: _, [] => false
  end.

(** Decimal rendering of an integer, as [String(n)] does. *)
Fixpoint digits_of (fuel : nat) (n : Z) (acc : chars) : chars :=
  match fuel with
  | O => acc
  | S f =>
      let acc' := ascii_of_nat (48 + Z.to_nat (n mod 10)) :: acc in
      if n / 10 =? 0 then acc' else digits_of f (n / 10) acc'
  end.

Definition js_string_of_int (n : Z) : string :=
  let d := digits_of (Pos.size_nat (Z.to_pos (Z.abs n + 1))) (Z.abs n) [] in
  if n <? 0 then str ("-"%char :: d) else str d.

(** Code-unit comparison of strings, as the JavaScript [<] operator on strings. *)
Fixpoint chars_ltb (a b : chars) : bool :=
  match a, b with
  | [], [] => false
  | [], _ :: _ => true
  | _ :: _, [] => false
  | x :: a', y :: b' =>
      if (code x <? code y)%nat then true
      else if (code y <? code x)%nat then false
      else chars_ltb a' b'
  end.

Definition str_ltb (a b : string) : bool := chars_ltb (chs a) (chs b).

(** [JSON.stringify] of a string. *)
Definition hex_digit (n : nat) : ascii :=
  if (n <? 10)%nat then ascii_of_nat (48 + n) else ascii_of_nat (87 + n).

Definition dquote : ascii := ascii_of_nat 34.
Definition squote : ascii := ascii_of_nat 39.
Definition bslash : ascii := ascii_of_nat 92.

Definition json_escape_char (c : ascii) : chars :=
  let n := code c in
  if (n =? 34)%nat then [bslash; dquote]
  else if (n =? 92)%nat then [bslash; bslash]
  else if (n =? 8)%nat then [bslash; "b"%char]
  else if (n =? 12)%nat then [bslash; "f"%char]
  else if (n =? 10)%nat then [bslash; "n"%char]
  else if (n =? 13)%nat then [bslash; "r"%char]
  else if (n =? 9)%nat then [bslash; "t"%char]
  else if (n <? 32)%nat then
    [bslash; "u"%char; "0"%char; "0"%char; hex_digit (n / 16); hex_digit (n mod 16)]
  else [c].

Definition json_quote (s : string) : string :=
  str (dquote :: flat_map json_escape_char (chs s) ++ [dquote])%list.

(** [Intl] collation as used by [String.prototype.localeCompare] (root/English
    collation restricted to code units below 128): control characters are
    ignorable; whitespace, then punctuation and symbols, then digits, then
    letters by primary weight; lower case before upper case at the tertiary
    level. Returns -1, 0 or 1. *)
Definition collation_order : chars :=
  (chs "_-,;:!?.'" ++ [dquote] ++ chs "()[]{}@*/" ++ [bslash] ++ chs "&#%`^+<=>|~$0123456789")%list.

Fixpoint index_of (c : ascii) (l : chars) (i : nat) : option nat :=
  match l with
  | [] => None
  | d :: l' => if (c =? d)%char then Some i else index_of c l' (S i)
  end.

Definition to_lower (c : ascii) : ascii :=
  if in_range 65 90 c then ascii_of_nat (code c + 32) else c.

Definition primary_weight (c : ascii) : option nat :=
  if isWhitespace c then Some (code c)
  else if in_range 0 31 c || (code c =? 127)%nat then None
  else if isAlpha c then Some (1000 + code (to_lower c))%nat
  else match index_of c collation_order 0 with
       | Some i => Some (500 + i)%nat
       | None => Some (2000 + code c)%nat
       end.

Definition tertiary_weight (c : ascii) : nat := if in_range 65 90 c then 1 else 0.

Fixpoint nat_list_cmp (a b : list nat) : Z :=
  match a, b with
  | [], [] => 0
  | [], _ :: _ => -1
  | _ :: _, [] => 1
  | x :: a', y :: b' =>
      if (x <? y)%nat then -1 else if (y <? x)%nat then 1 else nat_list_cmp a' b'
  end.

Definition primary_key (s : string) : list nat :=
  flat_map (fun c => match primary_weight c with Some w => [w] | None => [] end) (chs s).
Definition tertiary_key (s : string) : list nat :=
  flat_map (fun c => match primary_weight c with
                     | Some _ => [tertiary_weight c] | None => [] end) (chs s).

Definition localeCompare (a b : string) : Z :=
  match nat_list_cmp (primary_key a) (primary_key b) with
  | 0 => nat_list_cmp (tertiary_key a) (tertiary_key b)
  | r => r
  end.

(** [Array.prototype.sort] with a comparator: a stable sort (ES2019); each
    element is inserted after every element that does not compare above it. *)
Section Sort.
Context {A : Type} (cmp : A -> A -> Z).

Fixpoint insert_sorted (x : A) (l : list A) : list A :=
  match l with
  | [] => [x]
  | y :: l' => if cmp x y <? 0 then x :: y :: l' else y :: insert_sorted x l'
  end.

Definition sort_by (l : list A) : list A :=
  fold_left (fun acc x => insert_sorted x acc) l [].
End Sort.

(* ------------------------------------------------------------------------- *)
(** ** Dynamic values *)

(** The runtime values the evaluator manipulates. Dates hold their time value
    (milliseconds since the epoch; an invalid date is outside the model).
    Plain objects keep their own properties in insertion order; durations,
    hyperlinks, file records and the display hints are plain objects tagged as
    the evaluator tags them ([__kind], or [path]/[name]/[ext]). [VMap] is a
    [Map] (the [filesByPath] index); [VFun] stands for a function-valued
    property inherited from a built-in prototype. *)
Inductive value : Type :=
| VUndef
| VNull
| VBool (b : bool)
| VNum (n : Z)
| VStr (s : string)
| VDate (t : Z)
| VRegExp (body flags : string)
| VList (items : list value)
| VObj (fields : list (string * value))
| VMap (entries : list (string * value))
| VFun (name : string).

Fixpoint assoc {A} (k : string) (l : list (string * A)) : option A :=
  match l with
  | [] => None
  | (k', v) :: l' => if String.eqb k k' then Some v else assoc k l'
  end.

(** Members every object inherits from [Object.prototype]. *)
Definition object_prototype_names : list string :=
  ["constructor"; "hasOwnProperty"; "isPrototypeOf"; "propertyIsEnumerable";
   "toLocaleString"; "toString"; "valueOf"; "__proto__"; "__defineGetter__";
   "__defineSetter__"; "__lookupGetter__"; "__lookupSetter__"].

(** [name in formulas] for a plain object [formulas]: own keys and inherited
    members alike. *)
Definition in_plain_object {A} (name : string) (fields : list (string * A)) : bool :=
  match assoc name fields with
  | Some _ => true
  | None => existsb (String.eqb name) object_prototype_names
  end.

(** [obj[name]] on a plain object. *)
Definition get_plain (fields : list (string * value)) (name : string) : value :=
  match assoc name fields with
  | Some v => v
  | None => if existsb (String.eqb name) object_prototype_names then VFun name else VUndef
  end.

(* ------------------------------------------------------------------------- *)
(** ** [Number(string)] *)

(** The result of JavaScript's string-to-number conversion: an integer, an
    infinity, NaN, or a finite number that is not a safe integer (outside the
    model). *)
Inductive numparse := NumInt (z : Z) | NumInfinite (neg : bool) | NumNaN | NumFraction.

Fixpoint drop_ws (l : chars) : chars :=
  match l with
  | c :: l' => if isWhitespace c then drop_ws l' else l
  | [] => []
  end.

Definition js_trim (l : chars) : chars := rev (drop_ws (rev (drop_ws l))).

Definition digit_val (c : ascii) : Z := Z.of_nat (code c) - 48.

Definition hex_val (c : ascii) : option Z :=
  if isDigit c then Some (digit_val c)
  else if in_range 97 102 c then Some (Z.of_nat (code c) - 87)
  else if in_range 65 70 c then Some (Z.of_nat (code c) - 55)
  else None.

(** Digits of radix [r] (at least one) making up the whole list. *)
Fixpoint radix_value (r : Z) (l : chars) (acc : Z) : option Z :=
  match l with
  | [] => Some acc
  | c :: l' =>
      match hex_val c with
      | Some d => if d <? r then radix_value r l' (acc * r + d) else None
      | None => None
      end
  end.

Fixpoint take_digits (l : chars) : chars * chars :=
  match l with
  | c :: l' => if isDigit c then let (d, r) := take_digits l' in (c :: d, r) else ([], l)
  | [] => ([], [])
  end.

Definition digits_value (l : chars) : Z := fold_left (fun acc c => acc * 10 + digit_val c) l 0.

(** Largest finite magnitude bound: [2^1024]. *)
Definition max_magnitude : Z := 2 ^ 1024.

(** Integers of magnitude at most [2^53] are exactly the integers a double
    holds without rounding; larger finite values are outside the model. *)
Definition max_safe : Z := 2 ^ 53.
Definition safe_int (z : Z) : bool := Z.abs z <=? max_safe.

(** mantissa * 10^e, classified. *)
Definition classify_decimal (neg : bool) (m e : Z) : numparse :=
  if m =? 0 then NumInt 0
  else if 400 <? e then NumInfinite neg
  else if e <? 0 then
    (if -400 <? e then
       (if m mod (10 ^ (- e)) =? 0 then
          let v := m / 10 ^ (- e) in
          if safe_int v then NumInt (if neg then - v else v) else NumFraction
        else NumFraction)
     else NumFraction)
  else
    let v := m * 10 ^ e in
    if max_magnitude <=? v then NumInfinite neg
    else if safe_int v then NumInt (if neg then - v else v) else NumFraction.

Definition parse_exponent (l : chars) : option Z :=
  match l with
  | [] => Some 0
  | c :: l' =>
      if (c =? "e")%char || (c =? "E")%char then
        let '(sgn, l'') := match l' with
                           | s :: r => if (s =? "+")%char then (1, r)
                                       else if (s =? "-")%char then (-1, r) else (1, l')
                           | [] => (1, l')
                           end in
        let (ds, rest) := take_digits l'' in
        match ds, rest with
        | _ :: _, [] => Some (sgn * digits_value ds)
        | _, _ => None
        end
      else None
  end.

(** StrDecimalLiteral without its sign. *)
Definition parse_unsigned_decimal (neg : bool) (l : chars) : numparse :=
  if String.eqb (str l) "Infinity" then NumInfinite neg else
  let (d1, r1) := take_digits l in
  let '(d2, r2) := match r1 with
                   | c :: r => if (c =? ".")%char then take_digits r else ([], r1)
                   | [] => ([], r1)
                   end in
  let dot := match r1 with c :: _ => (c =? ".")%char | [] => false end in
  match d1, d2 with
  | [], [] => NumNaN
  | _, _ =>
      match parse_exponent (if dot then r2 else r1) with
      | Some e =>
          classify_decimal neg (digits_value (d1 ++ d2)%list) (e - Z.of_nat (length d2))
      | None => NumNaN
      end
  end.

Definition js_Number_of_chars (s : chars) : numparse :=
  match js_trim s with
  | [] => NumInt 0
  | "0"%char :: x :: rest =>
      let r := if (x =? "x")%char || (x =? "X")%char then Some 16
               else if (x =? "o")%char || (x =? "O")%char then Some 8
               else if (x =? "b")%char || (x =? "B")%char then Some 2 else None in
      match r with
      | Some r => match rest with
                  | [] => NumNaN
                  | _ => match radix_value r rest 0 with
                         | Some v => if max_magnitude <=? v then NumInfinite false
                                     else if safe_int v then NumInt v else NumFraction
                         | None => NumNaN
                         end
                  end
      | None => parse_unsigned_decimal false ("0"%char :: x :: rest)
      end
  | c :: rest =>
      if (c =? "+")%char then parse_unsigned_decimal false rest
      else if (c =? "-")%char then parse_unsigned_decimal true rest
      else parse_unsigned_decimal false (c :: rest)
  end.

Definition js_Number_of_string (s : string) : numparse := js_Number_of_chars (chs s).

(* ------------------------------------------------------------------------- *)
(** ** Expression AST ([ast.ts]) *)

Inductive expr : Type :=
| ELiteral (v : value) (raw : string)
| EIdentifier (name : string)
| EUnary (operator : string) (argument : expr)
| EBinary (operator : string) (left right : expr)
| EArray (elements : list expr)
| EObject (entries : list (string * expr))
| EMember (object : expr) (property : string)
| EIndex (object index : expr)
| ECall (callee : expr) (args : list expr).

(* ------------------------------------------------------------------------- *)
(** ** Tokenizer ([Parser.readToken]) *)

Inductive token_type := TNumber | TString | TIdentifier | TRegex | TOperator | TPunct | TEof.

Definition token_type_eqb (a b : token_type) : bool :=
  match a, b with
  | TNumber, TNumber | TString, TString | TIdentifier, TIdentifier | TRegex, TRegex
  | TOperator, TOperator | TPunct, TPunct | TEof, TEof => true
  | _, _ => false
  end.

Definition token_type_name (t : token_type) : string :=
  match t with
  | TNumber => "number" | TString => "string" | TIdentifier => "identifier"
  | TRegex => "regex" | TOperator => "operator" | TPunct => "punct" | TEof => "eof"
  end.

Record token := mk_token { ttype : token_type; tvalue : string; tstart : nat; tend : nat }.

(** [new ExpressionSyntaxError(message, index)] *)
Definition syntax_error_of (message : string) (index : nat) : js_error :=
  mk_error "ExpressionSyntaxError"
    (message ++ " at index " ++ js_string_of_int (Z.of_nat index)).

Definition operators : list string :=
  ["=="; "!="; ">="; "<="; "&&"; "||"; "+"; "-"; "*"; "/"; "%"; ">"; "<"; "!"].

Definition isPunctuator (c : ascii) : bool :=
  existsb (fun p => (c =? p)%char) ["("; ")"; "["; "]"; "."; ","]%char.

Fixpoint span (p : ascii -> bool) (l : chars) : nat :=
  match l with
  | c :: l' => if p c then S (span p l') else O
  | [] => O
  end.

(** The body of a quoted string after its opening quote [q]: the characters
    read, the input after the closing quote, and the offset after it. *)
Fixpoint scan_string (q : ascii) (rest : chars) (off : nat) (acc : chars)
  : option (chars * chars * nat) :=
  match rest with
  | [] => None
  | c :: r =>
      if (c =? bslash)%char then
        match r with
        | [] => None
        | n :: r' => scan_string q r' (off + 2) (acc ++ [n])%list
        end
      else if (c =? q)%char then Some (acc, r, S off)
      else scan_string q r (S off) (acc ++ [c])%list
  end.

(** After the opening [/] of a regex literal: the number of characters up to and
    including the closing unescaped [/]. *)
Fixpoint scan_regex (rest : chars) (escaped : bool) : option nat :=
  match rest with
  | [] => None
  | c :: r =>
      if negb escaped && (c =? "/")%char then Some 1%nat
      else if negb escaped && (c =? bslash)%char then option_map S (scan_regex r true)
      else option_map S (scan_regex r false)
  end.

Definition canStartRegex (previous : option token) : bool :=
  match previous with
  | None => true
  | Some t =>
      token_type_eqb (ttype t) TOperator
      || (token_type_eqb (ttype t) TPunct
          && (String.eqb (tvalue t) "(" || String.eqb (tvalue t) "["
              || String.eqb (tvalue t) ","))
  end.

Fixpoint skip_ws (rest : chars) (off : nat) : chars * nat :=
  match rest with
  | c :: r => if isWhitespace c then skip_ws r (S off) else (rest, off)
  | [] => ([], off)
  end.

Definition isNumberPart (c : ascii) : bool := isDigit c || (c =? ".")%char || (c =? "_")%char.

(** One call of [readToken]: the token, the remaining input and the new offset. *)
Definition readToken (rest0 : chars) (off0 : nat) (previous : option token)
  : (token * chars * nat) + js_error :=
  let (rest, start) := skip_ws rest0 off0 in
  match rest with
  | [] => inl (mk_token TEof "" start start, [], start)
  | c :: r =>
      if (c =? dquote)%char || (c =? squote)%char then
        match scan_string c r (S start) [] with
        | Some (v, r', off') => inl (mk_token TString (str v) start off', r', off')
        | None => inr (syntax_error_of "unterminated string literal" start)
        end
      else if isDigit c then
        let n := span isNumberPart r in
        let v := filter (fun d => negb (d =? "_")%char) (c :: firstn n r) in
        inl (mk_token TNumber (str v) start (start + S n), skipn n r, (start + S n)%nat)
      else if isIdentifierStart c then
        let n := span isIdentifierPart r in
        let v := str (c :: firstn n r) in
        let ty := if String.eqb v "and" || String.eqb v "or" || String.eqb v "not"
                  then TOperator else TIdentifier in
        inl (mk_token ty v start (start + S n), skipn n r, (start + S n)%nat)
      else if (c =? "/")%char && canStartRegex previous then
        match scan_regex r false with
        | Some n =>
            let m := span isAlpha (skipn n r) in
            let total := (S n + m)%nat in
            inl (mk_token TRegex (str (firstn total rest)) start (start + total),
                 skipn total rest, (start + total)%nat)
        | None => inr (syntax_error_of "unterminated regex literal" start)
        end
      else
        match find (fun op => starts_with (chs op) rest) operators with
        | Some op =>
            let k := String.length op in
            inl (mk_token TOperator op start (start + k), skipn k rest, (start + k)%nat)
        | None =>
            if isPunctuator c then
              inl (mk_token TPunct (String c "") start (S start), r, S start)
            else inr (syntax_error_of ("unexpected character " ++ json_quote (String c ""))
                        start)
        end
  end.

(** The token stream of an input, read one token after the other with the
    previous token deciding whether [/] starts a regex literal, exactly as
    [consume] reads the next token after recording the previous one. The list
    ends with the [eof] token when reading succeeds ([Ok tt]), or stops at the
    first lexical error. *)
Fixpoint tokenize (fuel : nat) (rest : chars) (off : nat) (previous : option token)
  : list token * outcome unit :=
  match fuel with
  | O => ([], Outside)
  | S f =>
      match readToken rest off previous with
      | inr e => ([], Throw e)
      | inl (t, rest', off') =>
          if token_type_eqb (ttype t) TEof then ([t], Ok tt)
          else let (ts, tail) := tokenize f rest' off' (Some t) in (t :: ts, tail)
      end
  end.

(* ------------------------------------------------------------------------- *)
(** ** Parser ([class Parser]) *)

Definition binaryPrecedence (op : string) : option Z :=
  match op with
  | "or" | "||" => Some 1
  | "and" | "&&" => Some 2
  | "==" | "!=" => Some 3
  | ">" | ">=" | "<" | "<=" => Some 4
  | "+" | "-" => Some 5
  | "*" | "/" | "%" => Some 6
  | _ => None
  end.

(** Parser state: the current token, the tokens still to be read, and how the
    stream ends. *)
Record pstate := mk_pstate { current : token; upcoming : list token; tail : outcome unit }.

Definition consume (s : pstate) : outcome (token * pstate) :=
  match upcoming s with
  | t :: r => Ok (current s, mk_pstate t r (tail s))
  | [] =>
      match tail s with
      | Ok _ => Ok (current s, s)
      | Throw e => Throw e
      | Outside => Outside
      end
  end.

Definition isCurrentPunct (s : pstate) (v : string) : bool :=
  token_type_eqb (ttype (current s)) TPunct && String.eqb (tvalue (current s)) v.

Definition isCurrentOperator (s : pstate) : bool :=
  token_type_eqb (ttype (current s)) TOperator.

Definition expectPunct (s : pstate) (v : string) : outcome (token * pstate) :=
  if isCurrentPunct s v then consume s
  else Throw (syntax_error_of ("expected " ++ v) (tstart (current s))).

Definition expectType (s : pstate) (ty : token_type) : outcome (token * pstate) :=
  if token_type_eqb (ttype (current s)) ty then consume s
  else Throw (syntax_error_of ("expected " ++ token_type_name ty) (tstart (current s))).

Definition unexpected_token {A} (s : pstate) : outcome A :=
  Throw (syntax_error_of ("unexpected token " ++ json_quote (tvalue (current s)))
           (tstart (current s))).

Fixpoint last_index_of_slash (l : chars) (i : nat) (found : option nat) : option nat :=
  match l with
  | [] => found
  | c :: l' => last_index_of_slash l' (S i) (if (c =? "/")%char then Some i else found)
  end.

(** [new RegExp(body, flags)]: the flags must be distinct letters among
    [dgimsuvy], not both [u] and [v]. The body's own syntax is not checked by
    the model. *)
Fixpoint distinct_chars (l : chars) : bool :=
  match l with
  | [] => true
  | c :: l' => negb (existsb (fun d => (c =? d)%char) l') && distinct_chars l'
  end.

Definition valid_regexp_flags (flags : string) : bool :=
  let l := chs flags in
  forallb (fun c => existsb (fun d => (c =? d)%char) (chs "dgimsuvy")) l
  && distinct_chars l
  && negb (existsb (fun c => (c =? "u")%char) l && existsb (fun c => (c =? "v")%char) l).

Definition regex_literal (raw : string) : outcome value :=
  let l := chs raw in
  let k := match last_index_of_slash l 0 None with Some k => k | None => O end in
  let body := str (firstn (k - 1) (skipn 1 l)) in
  let flags := str (skipn (S k) l) in
  if valid_regexp_flags flags then Ok (VRegExp body flags)
  else Throw (mk_error "SyntaxError"
                ("Invalid flags supplied to RegExp constructor '" ++ flags ++ "'")).

(** [Number(token.value)] for a numeric literal. *)
Definition number_literal (raw : string) : outcome value :=
  match js_Number_of_string raw with
  | NumInt z => Ok (VNum z)
  | _ => Outside
  end.

Fixpoint parseExpression (fuel : nat) (minPrecedence : Z) (s : pstate)
  : outcome (expr * pstate) :=
  match fuel with
  | O => Outside
  | S f =>
      r <- parseUnary f s ;;
      let (left, s1) := r in binaryLoop f minPrecedence left s1
  end
with binaryLoop (fuel : nat) (minPrecedence : Z) (left : expr) (s : pstate)
  : outcome (expr * pstate) :=
  match fuel with
  | O => Outside
  | S f =>
      if isCurrentOperator s then
        match binaryPrecedence (tvalue (current s)) with
        | None => Ok (left, s)
        | Some precedence =>
            if precedence <=? minPrecedence then Ok (left, s)
            else
              r1 <- consume s ;;
              let (optok, s2) := r1 in
              r2 <- parseExpression f precedence s2 ;;
              let (right, s3) := r2 in
              binaryLoop f minPrecedence (EBinary (tvalue optok) left right) s3
        end
      else Ok (left, s)
  end
with parseUnary (fuel : nat) (s : pstate) : outcome (expr * pstate) :=
  match fuel with
  | O => Outside
  | S f =>
      if isCurrentOperator s
         && (String.eqb (tvalue (current s)) "-" || String.eqb (tvalue (current s)) "!"
             || String.eqb (tvalue (current s)) "not") then
        r1 <- consume s ;;
        let (optok, s1) := r1 in
        r2 <- parseUnary f s1 ;;
        let (argument, s2) := r2 in
        Ok (EUnary (tvalue optok) argument, s2)
      else
        r <- parsePrimary f s ;;
        let (e, s1) := r in postfixLoop f e s1
  end
with postfixLoop (fuel : nat) (e : expr) (s : pstate) : outcome (expr * pstate) :=
  match fuel with
  | O => Outside
  | S f =>
      if isCurrentPunct s "." then
        r1 <- consume s ;;
        r2 <- expectType (snd r1) TIdentifier ;;
        let (propertyToken, s2) := r2 in
        postfixLoop f (EMember e (tvalue propertyToken)) s2
      else if isCurrentPunct s "[" then
        r1 <- consume s ;;
        r2 <- parseExpression f 0 (snd r1) ;;
        let (indexExpression, s2) := r2 in
        r3 <- expectPunct s2 "]" ;;
        postfixLoop f (EIndex e indexExpression) (snd r3)
      else if isCurrentPunct s "(" then
        r1 <- consume s ;;
        r2 <- (if isCurrentPunct (snd r1) ")" then Ok ([], snd r1)
               else parseArgs f [] (snd r1)) ;;
        let (args, s2) := r2 in
        r3 <- expectPunct s2 ")" ;;
        postfixLoop f (ECall e args) (snd r3)
      else Ok (e, s)
  end
with parseArgs (fuel : nat) (acc : list expr) (s : pstate) : outcome (list expr * pstate) :=
  match fuel with
  | O => Outside
  | S f =>
      r <- parseExpression f 0 s ;;
      let (a, s1) := r in
      if isCurrentPunct s1 "," then
        r1 <- consume s1 ;;
        parseArgs f (acc ++ [a])%list (snd r1)
      else Ok ((acc ++ [a])%list, s1)
  end
with parsePrimary (fuel : nat) (s : pstate) : outcome (expr * pstate) :=
  match fuel with
  | O => Outside
  | S f =>
      let t := current s in
      match ttype t with
      | TNumber =>
          r <- consume s ;;
          v <- number_literal (tvalue (fst r)) ;;
          Ok (ELiteral v (tvalue (fst r)), snd r)
      | TString =>
          r <- consume s ;;
          Ok (ELiteral (VStr (tvalue (fst r))) (json_quote (tvalue (fst r))), snd r)
      | TRegex =>
          r <- consume s ;;
          v <- regex_literal (tvalue (fst r)) ;;
          Ok (ELiteral v (tvalue (fst r)), snd r)
      | TIdentifier =>
          r <- consume s ;;
          let v := tvalue (fst r) in
          if String.eqb v "true" then Ok (ELiteral (VBool true) v, snd r)
          else if String.eqb v "false" then Ok (ELiteral (VBool false) v, snd r)
          else if String.eqb v "null" then Ok (ELiteral VNull v, snd r)
          else Ok (EIdentifier v, snd r)
      | _ =>
          if isCurrentPunct s "(" then
            r1 <- consume s ;;
            r2 <- parseExpression f 0 (snd r1) ;;
            let (e, s2) := r2 in
            r3 <- expectPunct s2 ")" ;;
            Ok (e, snd r3)
          else unexpected_token s
      end
  end.

(** [parseExpression(input)]: construct the parser (reading the first token),
    parse at the lowest precedence, and require the end of the input. The
    fuel bounds the recursion depth, which grows by a bounded amount per token. *)
Definition parse_fuel (input : string) : nat := (8 * (String.length input + 2))%nat.

Definition parse (input : string) : outcome expr :=
  let l := chs input in
  let (ts, tl) := tokenize (S (length l)) l 0 None in
  match ts with
  | [] => match tl with Throw e => Throw e | _ => Outside end
  | t :: r =>
      res <- parseExpression (parse_fuel input) 0 (mk_pstate t r tl) ;;
      let (e, s) := res in
      if token_type_eqb (ttype (current s)) TEof then Ok e else unexpected_token s
  end.

(* ------------------------------------------------------------------------- *)
(** ** Property access on runtime values *)

(** Canonical array index strings ("0", "1", ... without leading zeros). *)
Definition array_index (s : string) : option nat :=
  match chs s with
  | [] => None
  | ["0"%char] => Some O
  | c :: r =>
      if (c =? "0")%char then None
      else if forallb isDigit (c :: r) then
        let v := digits_value (c :: r) in
        if v <? 4294967295 then Some (Z.to_nat v) else None
      else None
  end.

(** [Object.keys] order: array-index keys ascending, then the other keys in
    insertion order. *)
Definition own_keys_order {A} (fields : list (string * A)) : list (string * A) :=
  let idx := filter (fun kv => match array_index (fst kv) with Some _ => true | None => false end)
               fields in
  let others := filter (fun kv => match array_index (fst kv) with Some _ => false | None => true end)
                  fields in
  let key_of kv := match array_index (fst kv) with Some n => Z.of_nat n | None => 0 end in
  (sort_by (fun a b => key_of a - key_of b) idx ++ others)%list.

Definition object_keys {A} (fields : list (string * A)) : list string :=
  map fst (own_keys_order fields).

(** Methods and accessors inherited from the built-in prototypes that the
    evaluator can reach through [in] or a property read. *)
Definition array_prototype_names : list string :=
  ["at"; "concat"; "entries"; "every"; "fill"; "filter"; "find"; "findIndex"; "flat";
   "flatMap"; "forEach"; "includes"; "indexOf"; "join"; "keys"; "lastIndexOf"; "map";
   "pop"; "push"; "reduce"; "reverse"; "shift"; "slice"; "some"; "sort"; "splice";
   "unshift"; "values"].
Definition string_prototype_names : list string :=
  ["at"; "charAt"; "charCodeAt"; "concat"; "endsWith"; "includes"; "indexOf"; "match";
   "padEnd"; "padStart"; "repeat"; "replace"; "replaceAll"; "slice"; "split";
   "startsWith"; "substring"; "toLowerCase"; "toUpperCase"; "trim"].
Definition date_prototype_names : list string :=
  ["getDate"; "getDay"; "getFullYear"; "getHours"; "getMilliseconds"; "getMinutes";
   "getMonth"; "getSeconds"; "getTime"; "setFullYear"; "setMonth"; "setTime";
   "toISOString"; "toJSON"].
Definition regexp_prototype_names : list string := ["exec"; "test"].
Definition map_prototype_names : list string :=
  ["clear"; "delete"; "entries"; "forEach"; "get"; "has"; "keys"; "set"; "values"].

Definition mem_name (n : string) (l : list string) : bool := existsb (String.eqb n) l.

Definition proto_member (protos : list string) (name : string) : value :=
  if mem_name name protos || mem_name name object_prototype_names then VFun name else VUndef.

Definition has_char (c : ascii) (s : string) : bool := existsb (fun d => (c =? d)%char) (chs s).

(** [value[name]] for a value that is not [null] or [undefined]. *)
Definition js_get (v : value) (name : string) : value :=
  match v with
  | VObj fs => get_plain fs name
  | VList items =>
      if String.eqb name "length" then VNum (Z.of_nat (length items))
      else match array_index name with
           | Some i => nth i items VUndef
           | None => proto_member array_prototype_names name
           end
  | VStr s =>
      if String.eqb name "length" then VNum (Z.of_nat (String.length s))
      else match array_index name with
           | Some i => match String.get i s with Some c => VStr (String c "") | None => VUndef end
           | None => proto_member string_prototype_names name
           end
  | VDate _ => proto_member date_prototype_names name
  | VRegExp body flags =>
      if String.eqb name "source" then VStr body
      else if String.eqb name "flags" then VStr flags
      else if String.eqb name "lastIndex" then VNum 0
      else if String.eqb name "global" then VBool (has_char "g" flags)
      else if String.eqb name "ignoreCase" then VBool (has_char "i" flags)
      else if String.eqb name "multiline" then VBool (has_char "m" flags)
      else proto_member regexp_prototype_names name
  | VMap entries =>
      if String.eqb name "size" then VNum (Z.of_nat (length entries))
      else proto_member map_prototype_names name
  | VNum _ | VBool _ | VFun _ => proto_member [] name
  | VUndef | VNull => VUndef
  end.

(** [name in value] for an object or array. *)
Definition js_has (v : value) (name : string) : bool :=
  match v with
  | VObj fs => in_plain_object name fs
  | VList items =>
      String.eqb name "length"
      || match array_index name with
         | Some i => (i <? length items)%nat
         | None => mem_name name array_prototype_names || mem_name name object_prototype_names
         end
  | VRegExp _ _ =>
      mem_name name ["source"; "flags"; "lastIndex"; "global"; "ignoreCase"; "multiline"]
      || mem_name name regexp_prototype_names || mem_name name object_prototype_names
  | VMap _ =>
      String.eqb name "size" || mem_name name map_prototype_names
      || mem_name name object_prototype_names
  | VDate _ => mem_name name date_prototype_names || mem_name name object_prototype_names
  | _ => false
  end.

(* ------------------------------------------------------------------------- *)
(** ** Type tests of the evaluator *)

(** [typeof value === "object" && value !== null] *)
Definition isRecord (v : value) : bool :=
  match v with
  | VDate _ | VRegExp _ _ | VList _ | VObj _ | VMap _ => true
  | _ => false
  end.

Definition isNullish (v : value) : bool :=
  match v with VUndef | VNull => true | _ => false end.

Definition is_string (v : value) : bool := match v with VStr _ => true | _ => false end.
Definition is_number (v : value) : bool := match v with VNum _ => true | _ => false end.
Definition is_list (v : value) : bool := match v with VList _ => true | _ => false end.
Definition is_date (v : value) : bool := match v with VDate _ => true | _ => false end.

Definition kind_is (v : value) (k : string) : bool :=
  isRecord v && match js_get v "__kind" with VStr s => String.eqb s k | _ => false end.

Definition isDurationValue (v : value) : bool :=
  kind_is v "duration" && is_list (js_get v "parts").
Definition isLinkValue (v : value) : bool := kind_is v "link" && is_string (js_get v "path").
Definition isHtmlValue (v : value) : bool := kind_is v "html" && is_string (js_get v "html").
Definition isImageValue (v : value) : bool := kind_is v "image" && is_string (js_get v "source").
Definition isIconValue (v : value) : bool := kind_is v "icon" && is_string (js_get v "name").

Definition isFileLike (v : value) : bool :=
  isRecord v && is_string (js_get v "path") && is_string (js_get v "name")
  && is_string (js_get v "ext").

Definition string_field (v : value) (k : string) : string :=
  match js_get v k with VStr s => s | _ => "" end.

(** [Boolean(value)] *)
Definition toBoolean (v : value) : bool :=
  match v with
  | VUndef | VNull => false
  | VBool b => b
  | VNum n => negb (n =? 0)
  | VStr s => negb (String.eqb s "")
  | _ => true
  end.

(* ------------------------------------------------------------------------- *)
(** ** Paths *)

Fixpoint replace_backslashes (l : chars) : chars :=
  match l with
  | [] => []
  | c :: l' => (if (c =? bslash)%char then "/"%char else c) :: replace_backslashes l'
  end.

(** [path.replaceAll("\\", "/").replace(/^\.\//, "").trim()] *)
Definition normalizePath (path : string) : string :=
  let l := replace_backslashes (chs path) in
  let l := match l with
           | "."%char :: "/"%char :: r => r
           | _ => l
           end in
  str (js_trim l).

(** [.replace(/\.md$/i, "")] *)
Definition strip_md_suffix (s : string) : string :=
  let l := chs s in
  let n := length l in
  if (3 <=? n)%nat then
    match skipn (n - 3) l with
    | [d; m; k] =>
        if (d =? ".")%char && ((m =? "m")%char || (m =? "M")%char)
           && ((k =? "d")%char || (k =? "D")%char)
        then str (firstn (n - 3) l) else s
    | _ => s
    end
  else s.

(* ------------------------------------------------------------------------- *)
(** ** Dates (ECMAScript time values) *)

Definition msPerDay : Z := 86400000.

(** Days since 1970-01-01 of a proleptic Gregorian date (month 1..12). *)
Definition days_from_civil (y m d : Z) : Z :=
  let y' := if m <=? 2 then y - 1 else y in
  let era := y' / 400 in
  let yoe := y' - era * 400 in
  let mp := (m + 9) mod 12 in
  let doy := (153 * mp + 2) / 5 + d - 1 in
  let doe := yoe * 365 + yoe / 4 - yoe / 100 + doy in
  era * 146097 + doe - 719468.

(** Year, month (1..12) and day of a day number. *)
Definition civil_from_days (z : Z) : Z * Z * Z :=
  let z' := z + 719468 in
  let era := z' / 146097 in
  let doe := z' - era * 146097 in
  let yoe := (doe - doe / 1460 + doe / 36524 - doe / 146096) / 365 in
  let doy := doe - (365 * yoe + yoe / 4 - yoe / 100) in
  let mp := (5 * doy + 2) / 153 in
  let d := doy - (153 * mp + 2) / 5 + 1 in
  let m := if mp <? 10 then mp + 3 else mp - 9 in
  let y := yoe + era * 400 in
  (if m <=? 2 then y + 1 else y, m, d).

(** [MakeDay(year, month, date)] with a 0-based month that may overflow. *)
Definition MakeDay (year month date : Z) : Z :=
  let ym := year + month / 12 in
  let mn := month mod 12 in
  days_from_civil ym (mn + 1) 1 + date - 1.

(** [TimeClip]: the model keeps integer time values; a value out of range is an
    invalid date, outside the model. *)
Definition time_clip (t : Z) : outcome value :=
  if Z.abs t <=? 8640000000000000 then Ok (VDate t) else Outside.

Definition pad_int (width : nat) (n : Z) : string :=
  let s := chs (js_string_of_int n) in
  str (repeat "0"%char (width - length s) ++ s)%list.

(** [Date.prototype.toISOString] *)
Definition toISOString (t : Z) : string :=
  let '(y, mo, d) := civil_from_days (t / msPerDay) in
  let tod := t mod msPerDay in
  let year := if (0 <=? y) && (y <=? 9999) then pad_int 4 y
              else (if y <? 0 then "-" else "+") ++ pad_int 6 (Z.abs y) in
  year ++ "-" ++ pad_int 2 mo ++ "-" ++ pad_int 2 d ++ "T"
  ++ pad_int 2 (tod / 3600000) ++ ":" ++ pad_int 2 ((tod / 60000) mod 60) ++ ":"
  ++ pad_int 2 ((tod / 1000) mod 60) ++ "." ++ pad_int 3 (tod mod 1000) ++ "Z".

Section LocalTime.
(** The host's offset of local time from UTC in milliseconds, taken constant
    (a zone without daylight-saving transitions). *)
Variable local_offset : Z.

Definition LocalTime (t : Z) : Z := t + local_offset.
Definition UTC_of_local (l : Z) : Z := l - local_offset.

Definition local_civil (t : Z) : Z * Z * Z := civil_from_days (LocalTime t / msPerDay).
Definition TimeWithinDay (l : Z) : Z := l mod msPerDay.

Definition getFullYear (t : Z) : Z := let '(y, _, _) := local_civil t in y.
(** 0-based, as [Date.prototype.getMonth]. *)
Definition getMonth (t : Z) : Z := let '(_, m, _) := local_civil t in m - 1.
Definition getDate (t : Z) : Z := let '(_, _, d) := local_civil t in d.
Definition getHours (t : Z) : Z := TimeWithinDay (LocalTime t) / 3600000.
Definition getMinutes (t : Z) : Z := (TimeWithinDay (LocalTime t) / 60000) mod 60.
Definition getSeconds (t : Z) : Z := (TimeWithinDay (LocalTime t) / 1000) mod 60.
Definition getMilliseconds (t : Z) : Z := TimeWithinDay (LocalTime t) mod 1000.

(** [date.setFullYear(year)] and [date.setMonth(month)]: the other local
    calendar fields and the time of day are kept, and [MakeDay] carries any
    day-of-month overflow into the following month. *)
Definition setFullYear (t year : Z) : outcome value :=
  let l := LocalTime t in
  time_clip (UTC_of_local (MakeDay year (getMonth t) (getDate t) * msPerDay
                           + TimeWithinDay l)).

Definition setMonth (t month : Z) : outcome value :=
  let l := LocalTime t in
  time_clip (UTC_of_local (MakeDay (getFullYear t) month (getDate t) * msPerDay
                           + TimeWithinDay l)).
End LocalTime.

(* ------------------------------------------------------------------------- *)
(** ** Conversions *)

(** [String(value)] *)
Fixpoint js_ToString (v : value) : outcome string :=
  match v with
  | VUndef => Ok "undefined"
  | VNull => Ok "null"
  | VBool b => Ok (if b then "true" else "false")
  | VNum n => Ok (js_string_of_int n)
  | VStr s => Ok s
  | VDate _ => Outside (* Date.prototype.toString names the host's time zone *)
  | VRegExp body flags => Ok ("/" ++ (if String.eqb body "" then "(?:)" else body) ++ "/" ++ flags)
  | VList items =>
      let fix go (l : list value) : outcome (list string) :=
        match l with
        | [] => Ok []
        | x :: l' =>
            s <- (if isNullish x then Ok "" else js_ToString x) ;;
            rest <- go l' ;; Ok (s :: rest)
        end in
      ss <- go items ;; Ok (String.concat "," ss)
  | VObj fs =>
      match assoc "toString" fs, assoc "valueOf" fs with
      | None, None => Ok "[object Object]"
      | _, _ => Outside
      end
  | VMap _ => Ok "[object Map]"
  | VFun _ => Outside
  end.

(** [Number(value)] (ToNumber), classified as [js_Number_of_string] does. *)
Definition js_ToNumber (v : value) : outcome numparse :=
  match v with
  | VNum n => Ok (NumInt n)
  | VBool b => Ok (NumInt (if b then 1 else 0))
  | VNull => Ok (NumInt 0)
  | VUndef => Ok NumNaN
  | VStr s => Ok (js_Number_of_string s)
  | VDate t => Ok (NumInt t)
  | _ => s <- js_ToString v ;; Ok (js_Number_of_string s)
  end.

(** A JavaScript number that must be finite and an integer to stay in the model. *)
Definition int_of_numparse (p : numparse) : outcome Z :=
  match p with NumInt z => Ok z | _ => Outside end.

Definition type_error {A} (msg : string) : outcome A := Throw (mk_error "TypeError" msg).

Definition is_undef (v : value) : bool := match v with VUndef => true | _ => false end.

(** [part.name] on an element of a [parts] list. *)
Definition get_member (v : value) (name : string) : outcome value :=
  if isNullish v then
    type_error ("Cannot read properties of " ++ (if is_undef v then "undefined" else "null")
                ++ " (reading '" ++ name ++ "')")
  else Ok (js_get v name).

(** A number result of the evaluator's arithmetic. *)
Definition num_result (z : Z) : outcome value := if safe_int z then Ok (VNum z) else Outside.

(** [ToNumber] of an operand of [*], [/] or [-] inside the evaluator's helpers. *)
Definition coerce_int (v : value) : outcome Z := p <- js_ToNumber v ;; int_of_numparse p.

(* ------------------------------------------------------------------------- *)
(** ** Durations *)

Definition duration_of (parts : list value) : value :=
  VObj [("__kind", VStr "duration"); ("parts", VList parts)].

Definition duration_part (unit : string) (amount : value) : value :=
  VObj [("unit", VStr unit); ("value", amount)].

Definition duration_parts (d : value) : list value :=
  match js_get d "parts" with VList ps => ps | _ => [] end.

Definition unit_ms (unit : string) : option Z :=
  match unit with
  | "year" => Some (365 * 24 * 60 * 60 * 1000)
  | "month" => Some (30 * 24 * 60 * 60 * 1000)
  | "week" => Some (7 * 24 * 60 * 60 * 1000)
  | "day" => Some (24 * 60 * 60 * 1000)
  | "hour" => Some (60 * 60 * 1000)
  | "minute" => Some (60 * 1000)
  | "second" => Some 1000
  | "millisecond" => Some 1
  | _ => None
  end.

(** [unitMs[part.unit] * part.value]: a unit outside the table reads
    [undefined] (or an inherited method), and the product is NaN. *)
Definition part_ms (part : value) : outcome Z :=
  u <- get_member part "unit" ;;
  key <- (match u with VStr s => Ok s | _ => js_ToString u end) ;;
  match unit_ms key with
  | Some ms => amount <- coerce_int (js_get part "value") ;;
               if safe_int (ms * amount) then Ok (ms * amount) else Outside
  | None => Outside
  end.

(** [durationToMilliseconds] *)
Definition durationToMilliseconds (d : value) : outcome Z :=
  let fix go (ps : list value) (total : Z) : outcome Z :=
    match ps with
    | [] => Ok total
    | p :: ps' => ms <- part_ms p ;;
                  if safe_int (total + ms) then go ps' (total + ms) else Outside
    end in
  go (duration_parts d) 0.

(** [mapDurationUnit] *)
Definition mapDurationUnit (unit : string) : option string :=
  match str (js_trim (chs unit)) with
  | "y" | "year" | "years" => Some "year"
  | "M" | "month" | "months" => Some "month"
  | "w" | "week" | "weeks" => Some "week"
  | "d" | "day" | "days" => Some "day"
  | "h" | "hour" | "hours" => Some "hour"
  | "m" | "minute" | "minutes" => Some "minute"
  | "s" | "second" | "seconds" => Some "second"
  | "ms" | "millisecond" | "milliseconds" => Some "millisecond"
  | _ => None
  end.

(** The alternatives of the unit group, in the order the pattern tries them
    ([seconds?] tries [seconds] before [second]). *)
Definition duration_unit_alternatives : list string :=
  ["ms"; "milliseconds"; "millisecond"; "M"; "months"; "month"; "m"; "minutes"; "minute";
   "y"; "years"; "year"; "w"; "weeks"; "week"; "d"; "days"; "day"; "h"; "hours"; "hour";
   "s"; "seconds"; "second"].

Fixpoint first_prefix (alts : list string) (l : chars) : option string :=
  match alts with
  | [] => None
  | a :: alts' => if starts_with (chs a) l then Some a else first_prefix alts' l
  end.

(** One match of [([+-]?\d+(?:\.\d+)?)\s*(units)] at the head of [l]: the
    amount text, the unit text and the rest of the input. Each quantifier is
    greedy and backtracking into it cannot produce a match, so the first
    choice is the match. *)
Definition match_duration_at (l : chars) : option (chars * string * chars) :=
  let '(sgn, l1) := match l with
                    | c :: r => if (c =? "+")%char || (c =? "-")%char then ([c], r) else ([], l)
                    | [] => ([], l)
                    end in
  match take_digits l1 with
  | ([], _) => None
  | (d1, l2) =>
      let '(frac, l3) := match l2 with
                         | c :: r => if (c =? ".")%char then
                                       match take_digits r with
                                       | ([], _) => ([], l2)
                                       | (d2, r') => ((c :: d2)%list, r')
                                       end
                                     else ([], l2)
                         | [] => ([], l2)
                         end in
      let l4 := drop_ws l3 in
      match first_prefix duration_unit_alternatives l4 with
      | Some u => Some ((sgn ++ d1 ++ frac)%list, u, skipn (String.length u) l4)
      | None => None
      end
  end.

(** [input.matchAll(pattern)]: successive non-overlapping matches. *)
Fixpoint duration_matches (fuel : nat) (l : chars) : list (chars * string) :=
  match fuel with
  | O => []
  | S fuel' =>
      match l with
      | [] => []
      | _ :: r =>
          match match_duration_at l with
          | Some (amount, u, rest) => (amount, u) :: duration_matches fuel' rest
          | None => duration_matches fuel' r
          end
      end
  end.

(** [parseDuration] *)
Definition parseDuration (s : string) : outcome value :=
  let input := js_trim (chs s) in
  let fix collect (ms : list (chars * string)) : outcome (list value) :=
    match ms with
    | [] => Ok []
    | (amount, u) :: ms' =>
        match js_Number_of_chars amount, mapDurationUnit u with
        | NumInt z, Some unit => rest <- collect ms' ;; Ok (duration_part unit (VNum z) :: rest)
        | NumFraction, _ => Outside
        | _, _ => collect ms'
        end
    end in
  parts <- collect (duration_matches (length input) input) ;;
  match parts with
  | [] => throw_error ("invalid duration: " ++ s)
  | _ => Ok (duration_of parts)
  end.

(** [tryParseDuration] *)
Definition tryParseDuration (v : value) : outcome (option value) :=
  if isDurationValue v then Ok (Some v)
  else match v with
       | VStr s => match parseDuration s with
                   | Ok d => Ok (Some d)
                   | Throw _ => Ok None
                   | Outside => Outside
                   end
       | _ => Ok None
       end.

(* ------------------------------------------------------------------------- *)
(** ** Rendering values *)

(** [JSON.stringify(value)]; [None] is its [undefined] result. *)
Fixpoint json_stringify (v : value) : option string :=
  match v with
  | VUndef | VFun _ => None
  | VNull => Some "null"
  | VBool b => Some (if b then "true" else "false")
  | VNum n => Some (js_string_of_int n)
  | VStr s => Some (json_quote s)
  | VDate t => Some (json_quote (toISOString t))
  | VRegExp _ _ | VMap _ => Some "{}"
  | VList items =>
      let fix go (l : list value) : list string :=
        match l with
        | [] => []
        | x :: l' => match json_stringify x with Some s => s | None => "null" end :: go l'
        end in
      Some ("[" ++ String.concat "," (go items) ++ "]")
  | VObj fs =>
      let fix go (l : list (string * value)) : list (string * option string) :=
        match l with
        | [] => []
        | (k, x) :: l' => (k, json_stringify x) :: go l'
        end in
      let members := flat_map (fun kv => match snd kv with
                                         | Some s => [json_quote (fst kv) ++ ":" ++ s]
                                         | None => []
                                         end) (own_keys_order (go fs)) in
      Some ("{" ++ String.concat "," members ++ "}")
  end.

(** [`${part.value}${part.unit}`] *)
Definition render_part (part : value) : outcome string :=
  amount <- get_member part "value" ;;
  unit <- get_member part "unit" ;;
  a <- js_ToString amount ;;
  u <- js_ToString unit ;;
  Ok (a ++ u).

Fixpoint map_outcome {A B} (f : A -> outcome B) (l : list A) : outcome (list B) :=
  match l with
  | [] => Ok []
  | x :: l' => y <- f x ;; ys <- map_outcome f l' ;; Ok (y :: ys)
  end.

(** [stringifyValue] *)
Definition stringifyValue (v : value) : outcome string :=
  if isNullish v then Ok "" else
  match v with
  | VStr s => Ok s
  | VNum _ | VBool _ => js_ToString v
  | VDate t => Ok (toISOString t)
  | _ =>
      if isDurationValue v then
        ss <- map_outcome render_part (duration_parts v) ;; Ok (String.concat " " ss)
      else if isLinkValue v then
        match js_get v "display" with
        | VUndef => Ok (string_field v "path")
        | d => js_ToString d
        end
      else if isFileLike v then Ok (string_field v "path")
      else if isIconValue v then Ok (string_field v "name")
      else if isImageValue v then Ok (string_field v "source")
      else if isHtmlValue v then Ok (string_field v "html")
      else match json_stringify v with
           | Some s => Ok s
           | None => Outside (* a function: the result is not a string *)
           end
  end.

Definition typeof (v : value) : string :=
  match v with
  | VUndef => "undefined"
  | VBool _ => "boolean"
  | VNum _ => "number"
  | VStr _ => "string"
  | VFun _ => "function"
  | _ => "object"
  end.

(** [stableStringify] *)
Fixpoint stableStringify (v : value) : outcome string :=
  if isNullish v then Ok "null" else
  match v with
  | VDate t => Ok ("date:" ++ js_string_of_int t)
  | _ =>
      if isDurationValue v then
        ss <- map_outcome render_part (duration_parts v) ;;
        Ok ("duration:" ++ String.concat "|" ss)
      else if isLinkValue v then Ok ("link:" ++ normalizePath (string_field v "path"))
      else if isFileLike v then Ok ("file:" ++ normalizePath (string_field v "path"))
      else match v with
           | VList items =>
               let fix go (l : list value) : outcome (list string) :=
                 match l with
                 | [] => Ok []
                 | x :: l' => s <- stableStringify x ;; rest <- go l' ;; Ok (s :: rest)
                 end in
               ss <- go items ;; Ok ("[" ++ String.concat "," ss ++ "]")
           | VObj fs =>
               let fix go (l : list (string * value)) : outcome (list (string * string)) :=
                 match l with
                 | [] => Ok []
                 | (k, x) :: l' => s <- stableStringify x ;; rest <- go l' ;; Ok ((k, s) :: rest)
                 end in
               rendered <- go fs ;;
               let sorted := sort_by (fun a b => localeCompare (fst a) (fst b))
                                     (own_keys_order rendered) in
               Ok ("{" ++ String.concat "," (map (fun kv => fst kv ++ ":" ++ snd kv) sorted)
                   ++ "}")
           | VRegExp _ _ | VMap _ => Ok "{}"
           | _ => s <- js_ToString v ;; Ok (typeof v ++ ":" ++ s)
           end
  end.

(** [toNumber(value, options)] *)
Definition toNumber (strict : bool) (v : value) : outcome Z :=
  match v with
  | VNum n => Ok n
  | VBool b => Ok (if b then 1 else 0)
  | VDate t => Ok t
  | _ =>
      if isDurationValue v then durationToMilliseconds v
      else if isNullish v then Ok 0
      else p <- js_ToNumber v ;;
           match p with
           | NumInt z => Ok z
           | NumFraction => Outside
           | NumInfinite _ | NumNaN =>
               if strict then s <- js_ToString v ;; throw_error ("cannot convert value to number: " ++ s)
               else Ok 0
           end
  end.

(** [resolveComparablePath] *)
Definition resolveComparablePath (v : value) : option string :=
  if isLinkValue v then Some (strip_md_suffix (normalizePath (string_field v "path")))
  else if isFileLike v then Some (strip_md_suffix (normalizePath (string_field v "path")))
  else match v with
       | VStr s => Some (strip_md_suffix (normalizePath s))
       | _ => None
       end.

(** [left === right] once the number, array and record cases are gone. *)
Definition strict_equals (l r : value) : outcome bool :=
  match l, r with
  | VUndef, VUndef | VNull, VNull => Ok true
  | VBool a, VBool b => Ok (Bool.eqb a b)
  | VNum a, VNum b => Ok (a =? b)
  | VStr a, VStr b => Ok (String.eqb a b)
  | VFun _, VFun _ => Outside (* identity of built-in functions is not modelled *)
  | _, _ => Ok false
  end.

(* ------------------------------------------------------------------------- *)
(** ** Operators ([addValues], [compareValues], [equalsValues], ...) *)

Section Operators.
Variable local_offset : Z.
Variable strict : bool.

Definition date_then {A} (r : outcome value) (k : Z -> outcome A) : outcome A :=
  v <- r ;; match v with VDate t => k t | _ => Outside end.

(** [applyDurationToDate(date, duration, sign)] *)
Definition applyDurationToDate (t : Z) (d : value) (sign : Z) : outcome value :=
  let fix go (ps : list value) (t : Z) : outcome value :=
    match ps with
    | [] => Ok (VDate t)
    | part :: ps' =>
        pv <- get_member part "value" ;;
        v <- coerce_int pv ;;
        let amount := v * sign in
        match js_get part "unit" with
        | VStr "year" =>
            date_then (setFullYear local_offset t (getFullYear local_offset t + amount))
                      (go ps')
        | VStr "month" =>
            date_then (setMonth local_offset t (getMonth local_offset t + amount)) (go ps')
        | u =>
            ms <- durationToMilliseconds (duration_of [VObj [("unit", u); ("value", VNum amount)]]) ;;
            date_then (time_clip (t + ms)) (go ps')
        end
    end in
  go (duration_parts d) t.

Definition numeric_fallback (op : Z -> Z -> Z) (l r : value) : outcome value :=
  a <- toNumber strict l ;; b <- toNumber strict r ;; num_result (op a b).

(** [addValues] *)
Definition addValues (l r : value) : outcome value :=
  let rest :=
    if isDurationValue l && isDurationValue r then
      Ok (duration_of (duration_parts l ++ duration_parts r)%list)
    else if is_string l || is_string r then
      a <- stringifyValue l ;; b <- stringifyValue r ;; Ok (VStr (a ++ b))
    else numeric_fallback Z.add l r in
  let right_date :=
    match r with
    | VDate t => d <- tryParseDuration l ;;
                 match d with Some d => applyDurationToDate t d 1 | None => rest end
    | _ => rest
    end in
  match l with
  | VDate t =>
      d <- tryParseDuration r ;;
      match d with
      | Some d => applyDurationToDate t d 1
      | None => match r with VNum n => time_clip (t + n) | _ => right_date end
      end
  | _ => right_date
  end.

(** [subtractValues] *)
Definition subtractValues (l r : value) : outcome value :=
  let rest :=
    if isDurationValue l && isDurationValue r then
      a <- durationToMilliseconds l ;; b <- durationToMilliseconds r ;; num_result (a - b)
    else numeric_fallback Z.sub l r in
  match l, r with
  | VDate a, VDate b => num_result (a - b)
  | VDate t, _ =>
      d <- tryParseDuration r ;;
      match d with
      | Some d => applyDurationToDate t d (-1)
      | None => match r with VNum n => time_clip (t - n) | _ => rest end
      end
  | _, _ => rest
  end.

(** [{ unit: part.unit, value: f(part.value) }] for each part. *)
Definition map_parts (f : value -> outcome value) (d : value) : outcome value :=
  ps <- map_outcome (fun part => pv <- get_member part "value" ;; nv <- f pv ;;
                                  Ok (VObj [("unit", js_get part "unit"); ("value", nv)]))
                    (duration_parts d) ;;
  Ok (duration_of ps).

Definition num_of (v : value) : Z := match v with VNum n => n | _ => 0 end.

(** [multiplyValues] *)
Definition multiplyValues (l r : value) : outcome value :=
  if isDurationValue l && is_number r then
    map_parts (fun pv => a <- coerce_int pv ;; num_result (a * num_of r)) l
  else if isDurationValue r && is_number l then
    map_parts (fun pv => a <- coerce_int pv ;; num_result (a * num_of l)) r
  else numeric_fallback Z.mul l r.

(** [a / b] on integers: exact quotients only (a zero divisor gives a
    non-finite number). *)
Definition exact_div (a b : Z) : outcome value :=
  if (b =? 0) || negb (Z.rem a b =? 0) then Outside else num_result (Z.quot a b).

(** [divideValues] *)
Definition divideValues (l r : value) : outcome value :=
  match r with
  | VNum n =>
      if isDurationValue l then map_parts (fun pv => a <- coerce_int pv ;; exact_div a n) l
      else a <- toNumber strict l ;; b <- toNumber strict r ;; exact_div a b
  | _ => a <- toNumber strict l ;; b <- toNumber strict r ;; exact_div a b
  end.

(** [toNumber(left) % toNumber(right)] *)
Definition remainderValues (l r : value) : outcome value :=
  a <- toNumber strict l ;; b <- toNumber strict r ;;
  if b =? 0 then Outside else num_result (Z.rem a b).

(** [compareValues] *)
Definition compareValues (l r : value) : outcome Z :=
  match l, r with
  | VDate a, VDate b => Ok (a - b)
  | _, _ =>
      if isDurationValue l || isDurationValue r then
        a <- toNumber strict l ;; b <- toNumber strict r ;; Ok (a - b)
      else match l, r with
           | VStr a, VStr b => Ok (localeCompare a b)
           | VBool a, VBool b => Ok ((if a then 1 else 0) - (if b then 1 else 0))
           | VNum a, VNum b => Ok (a - b)
           | _, _ => a <- stringifyValue l ;; b <- stringifyValue r ;; Ok (localeCompare a b)
           end
  end.

(** [equalsValues] *)
Fixpoint equalsValues (l r : value) : outcome bool :=
  match l, r with
  | VDate a, VDate b => Ok (a =? b)
  | _, _ =>
      match resolveComparablePath l, resolveComparablePath r with
      | Some a, Some b => Ok (String.eqb a b)
      | _, _ =>
          if isDurationValue l && isDurationValue r then
            a <- durationToMilliseconds l ;; b <- durationToMilliseconds r ;; Ok (a =? b)
          else if is_number l || is_number r then
            a <- toNumber strict l ;; b <- toNumber strict r ;; Ok (a =? b)
          else match l, r with
               | VList ls, VList rs =>
                   if Nat.eqb (length ls) (length rs) then
                     let fix every (ls rs : list value) : outcome bool :=
                       match ls, rs with
                       | x :: ls', y :: rs' =>
                           b <- equalsValues x y ;; if b then every ls' rs' else Ok false
                       | _, _ => Ok true
                       end in
                     every ls rs
                   else Ok false
               | _, _ =>
                   if isRecord l && isRecord r then
                     a <- stableStringify l ;; b <- stableStringify r ;; Ok (String.eqb a b)
                   else strict_equals l r
               end
      end
  end.
End Operators.

(* ------------------------------------------------------------------------- *)
(** ** The evaluator ([evaluator.ts]) *)

(** [obj[k] = v] on a plain object: an existing key keeps its position. *)
Fixpoint set_field (fields : list (string * value)) (k : string) (v : value)
  : list (string * value) :=
  match fields with
  | [] => [(k, v)]
  | (k', v') :: fs => if String.eqb k k' then (k, v) :: fs else (k', v') :: set_field fs k v
  end.

(** [inferType] *)
Definition inferType (v : value) : string :=
  if isNullish v then "null" else
  match v with
  | VDate _ => "date"
  | VRegExp _ _ => "regexp"
  | _ =>
      if isDurationValue v then "duration"
      else if isLinkValue v then "link"
      else if isFileLike v then "file"
      else if isHtmlValue v then "html"
      else if isImageValue v then "image"
      else if isIconValue v then "icon"
      else match v with
           | VList _ => "list"
           | VStr _ => "string"
           | VNum _ => "number"
           | VBool _ => "boolean"
           | _ => if isRecord v then "object" else typeof v
           end
  end.

(** An evaluation context: the own properties of the context object
    ([note], [file], [formula], [this], [filesByPath], ...). *)
Definition context := list (string * value).

(** An argument node as the registered functions receive it: they evaluate it
    (or not) in a context of their choice. *)
Definition arg_thunk := context -> outcome value.

(** A registered function or method: [fn(argNodes, context, options)] or
    [fn(target, argNodes, context, options)]. *)
Definition global_fn := list arg_thunk -> context -> bool -> outcome value.
Definition method_fn := value -> list arg_thunk -> context -> bool -> outcome value.

(** [resolveIdentifier] *)
Definition resolveIdentifier (strict : bool) (name : string) (ctx : context) : outcome value :=
  match assoc name ctx with
  | Some v => Ok v
  | None =>
      match assoc "note" ctx with
      | Some note =>
          if toBoolean note then Ok (js_get note name)
          else if strict then throw_error ("unknown identifier: " ++ name) else Ok VUndef
      | None => if strict then throw_error ("unknown identifier: " ++ name) else Ok VUndef
      end
  end.

Section Evaluator.
Variable local_offset : Z.
(** [globalFunctions[name]] *)
Variable globalFunctions : string -> option global_fn.
(** [methodRegistries[type]?.[name]] *)
Variable methodRegistries : string -> string -> option method_fn.
(** [anyMethods[name]] *)
Variable anyMethods : string -> option method_fn.
Variable strict : bool.

Definition lenient_or_throw (msg : string) : outcome value :=
  if strict then throw_error msg else Ok VUndef.

(** [resolveMember] *)
Definition resolveMember (obj : value) (property : string) : outcome value :=
  if isNullish obj then
    lenient_or_throw ("cannot access property " ++ property ++ " on nullish value")
  else match obj with
  | VDate t =>
      match property with
      | "year" => Ok (VNum (getFullYear local_offset t))
      | "month" => Ok (VNum (getMonth local_offset t + 1))
      | "day" => Ok (VNum (getDate local_offset t))
      | "hour" => Ok (VNum (getHours local_offset t))
      | "minute" => Ok (VNum (getMinutes local_offset t))
      | "second" => Ok (VNum (getSeconds local_offset t))
      | "millisecond" => Ok (VNum (getMilliseconds local_offset t))
      | _ => lenient_or_throw ("unknown property: " ++ property)
      end
  | _ =>
      if isFileLike obj && String.eqb property "file" then Ok obj
      else match obj, property with
      | VStr s, "length" => Ok (VNum (Z.of_nat (String.length s)))
      | VList items, "length" => Ok (VNum (Z.of_nat (length items)))
      | _, _ =>
          if isRecord obj then
            if js_has obj property then Ok (js_get obj property)
            else if isFileLike obj && strict then throw_error ("unknown property: " ++ property)
            else Ok VUndef
          else lenient_or_throw ("cannot access property " ++ property ++ " on non-object value")
      end
  end.

(** The [index] case of [evaluateAst]. *)
Definition indexValue (obj idx : value) : outcome value :=
  match obj with
  | VList items =>
      n <- toNumber strict idx ;;
      Ok (if (0 <=? n) && (n <? Z.of_nat (length items)) then nth (Z.to_nat n) items VUndef
          else VUndef)
  | _ =>
      if isRecord obj && (is_string idx || is_number idx) then
        key <- js_ToString idx ;; Ok (js_get obj key)
      else lenient_or_throw "cannot index non-indexable value"
  end.

(** [invokeGlobalFunction] *)
Definition invokeGlobalFunction (name : string) (args : list arg_thunk) (ctx : context)
  : outcome value :=
  match globalFunctions name with
  | Some fn => fn args ctx strict
  | None => lenient_or_throw ("unknown function: " ++ name)
  end.

(** [invokeMethod] *)
Definition invokeMethod (target : value) (name : string) (args : list arg_thunk)
  (ctx : context) : outcome value :=
  match methodRegistries (inferType target) name with
  | Some fn => fn target args ctx strict
  | None =>
      match anyMethods name with
      | Some fn => fn target args ctx strict
      | None => lenient_or_throw ("unknown method: " ++ name)
      end
  end.

(** The binary operators other than [and]/[or], on evaluated operands. *)
Definition binaryValue (op : string) (l r : value) : outcome value :=
  match op with
  | "==" => b <- equalsValues strict l r ;; Ok (VBool b)
  | "!=" => b <- equalsValues strict l r ;; Ok (VBool (negb b))
  | ">" => c <- compareValues strict l r ;; Ok (VBool (0 <? c))
  | ">=" => c <- compareValues strict l r ;; Ok (VBool (0 <=? c))
  | "<" => c <- compareValues strict l r ;; Ok (VBool (c <? 0))
  | "<=" => c <- compareValues strict l r ;; Ok (VBool (c <=? 0))
  | "+" => addValues local_offset strict l r
  | "-" => subtractValues local_offset strict l r
  | "*" => multiplyValues strict l r
  | "/" => divideValues strict l r
  | "%" => remainderValues strict l r
  | _ => throw_error ("unsupported binary operator: " ++ op)
  end.

(** [evaluateAst] *)
Fixpoint evaluateAst (e : expr) (ctx : context) {struct e} : outcome value :=
  match e with
  | ELiteral v _ => Ok v
  | EIdentifier name => resolveIdentifier strict name ctx
  | EArray elements =>
      let fix go (l : list expr) : outcome (list value) :=
        match l with
        | [] => Ok []
        | x :: l' => v <- evaluateAst x ctx ;; vs <- go l' ;; Ok (v :: vs)
        end in
      vs <- go elements ;; Ok (VList vs)
  | EObject entries =>
      let fix go (l : list (string * expr)) (acc : list (string * value)) :=
        match l with
        | [] => Ok (VObj acc)
        | (k, x) :: l' => v <- evaluateAst x ctx ;; go l' (set_field acc k v)
        end in
      go entries []
  | EUnary op arg =>
      v <- evaluateAst arg ctx ;;
      match op with
      | "-" => n <- toNumber strict v ;; num_result (- n)
      | "!" | "not" => Ok (VBool (negb (toBoolean v)))
      | _ => throw_error ("unsupported unary operator: " ++ op)
      end
  | EBinary op l r =>
      if String.eqb op "and" || String.eqb op "&&" then
        lv <- evaluateAst l ctx ;;
        if toBoolean lv then evaluateAst r ctx else Ok (VBool false)
      else if String.eqb op "or" || String.eqb op "||" then
        lv <- evaluateAst l ctx ;;
        if toBoolean lv then Ok (VBool true) else evaluateAst r ctx
      else
        lv <- evaluateAst l ctx ;;
        rv <- evaluateAst r ctx ;;
        binaryValue op lv rv
  | EMember obj property => ov <- evaluateAst obj ctx ;; resolveMember ov property
  | EIndex obj idx => ov <- evaluateAst obj ctx ;; iv <- evaluateAst idx ctx ;; indexValue ov iv
  | ECall callee args =>
      let fix thunks (l : list expr) : list arg_thunk :=
        match l with
        | [] => []
        | x :: l' => (fun c => evaluateAst x c) :: thunks l'
        end in
      match callee with
      | EIdentifier name => invokeGlobalFunction name (thunks args) ctx
      | EMember obj property =>
          target <- evaluateAst obj ctx ;; invokeMethod target property (thunks args) ctx
      | _ => lenient_or_throw "unsupported call target"
      end
  end.

(** [evaluateExpression(source, context, { strict })] *)
Definition evaluateExpression (source : string) (ctx : context) : outcome value :=
  e <- parse source ;; evaluateAst e ctx.
End Evaluator.

(* ------------------------------------------------------------------------- *)
(** ** Query rows ([types.ts], [query-engine.ts]) *)

(** An indexed document: its file record (name and path first, as the indexer
    builds it, then the other fields) and its front-matter object. *)
Record document := mk_document {
  doc_name : string;
  doc_path : string;
  doc_file_rest : list (string * value);
  doc_frontmatter : list (string * value)
}.

Definition file_value (d : document) : value :=
  VObj ([("name", VStr (doc_name d)); ("path", VStr (doc_path d))] ++ doc_file_rest d)%list.

(** A [QueryRow]: [note] and [file] are the document's own objects, [this] is
    [{filePath, name}] of the file; [formula] and [projected] are filled in
    during execution. *)
Record row := mk_row {
  row_doc : document;
  row_formula : list (string * value);
  row_projected : list (string * value)
}.

Definition row_this (r : row) : value :=
  VObj [("filePath", VStr (doc_path (row_doc r))); ("name", VStr (doc_name (row_doc r)))].

(** [withEvalContext(row, filesByPath)]: [{ ...row, filesByPath }]. *)
Definition withEvalContext (r : row) (filesByPath : value) : context :=
  [("note", VObj (doc_frontmatter (row_doc r))); ("file", file_value (row_doc r));
   ("formula", VObj (row_formula r)); ("this", row_this r);
   ("projected", VObj (row_projected r)); ("filesByPath", filesByPath)].

(** [DOTTED_IDENTIFIER_RE.test]: one or more segments separated by dots, each
    a letter or [_] followed by letters, digits and [_], spanning the whole
    string. *)
Definition segment_start (c : ascii) : bool := isAlpha c || (c =? "_")%char.
Definition segment_part (c : ascii) : bool := isWordChar c.

Fixpoint dotted_after_start (l : chars) : bool :=
  match l with
  | [] => true
  | c :: l' =>
      if segment_part c then dotted_after_start l'
      else if (c =? ".")%char then
        match l' with
        | d :: l'' => segment_start d && dotted_after_start l''
        | [] => false
        end
      else false
  end.

Definition DOTTED_IDENTIFIER_RE_test (s : string) : bool :=
  match chs s with
  | c :: l => segment_start c && dotted_after_start l
  | [] => false
  end.

(** [toComparable]: a number or a string. *)
Inductive comparable := CNum (n : Z) | CStr (s : string).

Definition toComparable (v : value) : outcome comparable :=
  match v with
  | VDate t => Ok (CNum t)
  | VNum n => Ok (CNum n)
  | VBool b => Ok (CNum (if b then 1 else 0))
  | VUndef | VNull => Ok (CStr "")
  | _ => s <- js_ToString v ;; Ok (CStr s)
  end.

(** [left < right] on two results of [toComparable] (IsLessThan): two
    strings compare by code units; otherwise the string operand is converted
    by [Number], and a NaN is neither below nor above anything. *)
Definition js_lt (a b : comparable) : outcome bool :=
  match a, b with
  | CNum x, CNum y => Ok (x <? y)
  | CStr s, CStr t => Ok (str_ltb s t)
  | CNum x, CStr t =>
      match js_Number_of_string t with
      | NumInt y => Ok (x <? y)
      | NumInfinite neg => Ok (negb neg)
      | NumNaN => Ok false
      | NumFraction => Outside
      end
  | CStr s, CNum y =>
      match js_Number_of_string s with
      | NumInt x => Ok (x <? y)
      | NumInfinite neg => Ok neg
      | NumNaN => Ok false
      | NumFraction => Outside
      end
  end.

(* ------------------------------------------------------------------------- *)
(** ** Formula dependencies and their order *)

(** [expression.matchAll(/\bformula\.(NAME)\b/g)] where NAME is a letter or
    [_] followed by letters, digits and [_]: the captured names in order. [prev] is the character before [l]. The final
    [\b] always holds after the greedy name. *)
Fixpoint formula_refs (fuel : nat) (prev : option ascii) (l : chars) : list string :=
  match fuel with
  | O => []
  | S f =>
      match l with
      | [] => []
      | c :: l' =>
          let boundary := match prev with Some p => negb (isWordChar p) | None => true end in
          let after := skipn 8 l in
          match after with
          | d :: rest =>
              if boundary && starts_with (chs "formula.") l && segment_start d then
                let n := span segment_part rest in
                let name := d :: firstn n rest in
                str name :: formula_refs f (Some (last name d)) (skipn n rest)
              else formula_refs f (Some c) l'
          | [] => formula_refs f (Some c) l'
          end
      end
  end.

Fixpoint dedup (seen : list string) (l : list string) : list string :=
  match l with
  | [] => []
  | x :: l' => if mem_name x seen then dedup seen l' else x :: dedup (x :: seen) l'
  end.

(** [discoverFormulaDeps]: [[...new Set(names)]]. *)
Definition discoverFormulaDeps (expression : string) : list string :=
  dedup [] (formula_refs (String.length expression) None (chs expression)).

(** A formula map ([spec.formulas]): own keys with their expression sources. *)
Definition formula_map := list (string * string).

(** The keys of the formula map in [localeCompare] order. *)
Definition sorted_formula_keys (formulas : formula_map) : list string :=
  sort_by localeCompare (object_keys formulas).

(** [discoverFormulaDeps(formulas[key]).filter((dep) => dep in formulas)] *)
Definition formula_deps (formulas : formula_map) (key : string) : list string :=
  let source := match assoc key formulas with Some s => s | None => "" end in
  filter (fun dep => in_plain_object dep formulas) (discoverFormulaDeps source).

(** The [dependencies] map of [topoSort]. *)
Definition dependency_map (formulas : formula_map) : list (string * list string) :=
  map (fun k => (k, formula_deps formulas k)) (sorted_formula_keys formulas).

(** [dependencies.get(node) ?? []] *)
Definition dependencies_of (depmap : list (string * list string)) (node : string) : list string :=
  match assoc node depmap with Some ds => ds | None => [] end.

(** The sets [temp] and [visited] and the array [output] of [topoSort]. *)
Record topo_state := mk_topo {
  temp : list string;
  visited : list string;
  output : list string
}.

(** [for (const dep of deps) visit(dep);] *)
Fixpoint visit_all (v : string -> topo_state -> outcome topo_state) (ds : list string)
  (st : topo_state) : outcome topo_state :=
  match ds with
  | [] => Ok st
  | d :: ds' => st' <- v d st ;; visit_all v ds' st'
  end.

(** [visit(node)] of [topoSort], with fuel bounding the recursion depth. *)
Fixpoint visit (deps : string -> list string) (fuel : nat) (node : string) (st : topo_state)
  : outcome topo_state :=
  match fuel with
  | O => Outside
  | S f =>
      if mem_name node (visited st) then Ok st
      else if mem_name node (temp st) then throw_error ("formula cycle detected at " ++ node)
      else
        st' <- visit_all (visit deps f) (deps node)
                 (mk_topo (node :: temp st) (visited st) (output st)) ;;
        Ok (mk_topo (remove string_dec node (temp st')) (node :: visited st')
                    (output st' ++ [node])%list)
  end.

(** Every node [visit] reaches is a key of the map or a member inherited from
    [Object.prototype]; the depth never exceeds their number. *)
Definition topo_fuel (formulas : formula_map) : nat :=
  S (length (map fst formulas ++ object_prototype_names)).

(** [topoSort] *)
Definition topoSort (formulas : formula_map) : outcome (list string) :=
  let deps := dependencies_of (dependency_map formulas) in
  st <- visit_all (visit deps (topo_fuel formulas)) (sorted_formula_keys formulas)
          (mk_topo [] [] []) ;;
  Ok (output st).

(* ------------------------------------------------------------------------- *)
(** ** Query specifications ([types.ts], the schema) *)

Inductive filter_spec :=
| FExpr (source : string)
| FTree (and_ : option (list filter_spec)) (or_ : option (list filter_spec))
        (not_ : option filter_spec).

Inductive compiled_filter :=
| CExpr (expression : expr)
| CTree (and_ : option (list compiled_filter)) (or_ : option (list compiled_filter))
        (not_ : option compiled_filter).

Record sort_spec := mk_sort_spec { by_ : string; direction : string }.

Inductive group_spec := GroupBy (property : string) | GroupByDir (property direction : string).

(** A view as the schema normalises it: [sort] is the list of sort keys,
    [order] the explicit column order, [limit] a non-negative integer. *)
Record view_spec := mk_view {
  view_name : string;
  view_filters : option filter_spec;
  view_sort : option (list sort_spec);
  view_order : option (list string);
  view_groupBy : option group_spec;
  view_limit : option nat;
  view_properties : option (list string)
}.

Record query_spec := mk_query_spec {
  spec_filters : option filter_spec;
  spec_formulas : option formula_map;
  spec_properties : option (list string);
  spec_summaries : option (list (string * string));
  spec_views : list view_spec
}.

Record compiled_query := mk_compiled {
  cq_spec : query_spec;
  cq_strict : bool;
  cq_globalFilter : option compiled_filter;
  cq_viewFilters : list (string * option compiled_filter);
  cq_formulas : list (string * expr);
  cq_formulaOrder : list string;
  cq_summaryFormulas : list (string * expr)
}.

(** [map.set(k, v)] on a [Map]: an existing key keeps its position. *)
Fixpoint map_set {A} (m : list (string * A)) (k : string) (v : A) : list (string * A) :=
  match m with
  | [] => [(k, v)]
  | (k', v') :: m' => if String.eqb k k' then (k, v) :: m' else (k', v') :: map_set m' k v
  end.

(** [compileFilter] *)
Fixpoint compileFilter (f : filter_spec) : outcome (option compiled_filter) :=
  match f with
  | FExpr source =>
      if String.eqb source "" then Ok None
      else e <- parse source ;; Ok (Some (CExpr e))
  | FTree a o n =>
      let fix compile_list (l : list filter_spec) : outcome (list compiled_filter) :=
        match l with
        | [] => Ok []
        | x :: l' =>
            c <- compileFilter x ;; rest <- compile_list l' ;;
            Ok (match c with Some c => c :: rest | None => rest end)
        end in
      a' <- (match a with Some l => l' <- compile_list l ;; Ok (Some l') | None => Ok None end) ;;
      o' <- (match o with Some l => l' <- compile_list l ;; Ok (Some l') | None => Ok None end) ;;
      n' <- (match n with Some n => compileFilter n | None => Ok None end) ;;
      Ok (Some (CTree a' o' n'))
  end.

Definition compileFilter_opt (f : option filter_spec) : outcome (option compiled_filter) :=
  match f with Some f => compileFilter f | None => Ok None end.

(** [getView] (the schema requires at least one view). *)
Definition getView (spec : query_spec) (requestedName : option string) : outcome view_spec :=
  match requestedName with
  | Some name =>
      if String.eqb name "" then
        match spec_views spec with v :: _ => Ok v | [] => Outside end
      else
        match find (fun v => String.eqb (view_name v) name) (spec_views spec) with
        | Some v => Ok v
        | None => throw_error ("view not found: " ++ name)
        end
  | None => match spec_views spec with v :: _ => Ok v | [] => Outside end
  end.

(** [applyLimit] *)
Definition applyLimit {A} (rows : list A) (view : view_spec) : list A :=
  match view_limit view with
  | None => rows
  | Some n => firstn n rows
  end.

Definition row_path (r : row) : string := doc_path (row_doc r).

(** [if (seen.has(key)) continue; seen.add(key); columns.push(key);] where
    [seen] holds exactly the entries of [columns]. *)
Definition add_column (cols : list string) (key : string) : list string :=
  if mem_name key cols then cols else (cols ++ [key])%list.

(** [inferColumns] *)
Definition inferColumns (rows : list row) (compiled : compiled_query) : list string :=
  let stableRows := sort_by (fun a b => localeCompare (row_path a) (row_path b)) rows in
  let cols := fold_left (fun cols r => fold_left add_column
                                         (object_keys (doc_frontmatter (row_doc r))) cols)
                stableRows ["file.name"] in
  let formula_names :=
    sort_by localeCompare
      (object_keys (match spec_formulas (cq_spec compiled) with Some f => f | None => [] end)) in
  let cols := fold_left (fun cols n => add_column cols ("formula." ++ n)) formula_names cols in
  if Nat.eqb (length cols) 1 then (cols ++ ["file.path"])%list else cols.

(** The column list of [executeCompiledQuery]. *)
Definition selectColumns (view : view_spec) (compiled : compiled_query) (limited : list row)
  : list string :=
  match view_order view with
  | Some ((_ :: _) as order) => order
  | _ =>
      match view_properties view with
      | Some p => p
      | None =>
          match spec_properties (cq_spec compiled) with
          | Some p => p
          | None => inferColumns limited compiled
          end
      end
  end.

(** [compileQuery(spec, { strict })] *)
Definition compileQuery (spec : query_spec) (strict_opt : option bool) : outcome compiled_query :=
  let strict := match strict_opt with Some b => b | None => true end in
  let formulas := match spec_formulas spec with Some f => f | None => [] end in
  formulaOrder <- topoSort formulas ;;
  compiledFormulas <-
    fold_left (fun acc kv => m <- acc ;; e <- parse (snd kv) ;; Ok (map_set m (fst kv) e))
              (own_keys_order formulas) (Ok []) ;;
  viewFilters <-
    fold_left (fun acc v => m <- acc ;; c <- compileFilter_opt (view_filters v) ;;
                            Ok (map_set m (view_name v) c))
              (spec_views spec) (Ok []) ;;
  summaryFormulas <-
    fold_left (fun acc kv => m <- acc ;; e <- parse (snd kv) ;; Ok (map_set m (fst kv) e))
              (own_keys_order (match spec_summaries spec with Some s => s | None => [] end))
              (Ok []) ;;
  globalFilter <- compileFilter_opt (spec_filters spec) ;;
  Ok (mk_compiled spec strict globalFilter viewFilters compiledFormulas formulaOrder
                  summaryFormulas).

Record diagnostics := mk_diagnostics { diag_errors : list string; diag_warnings : list string }.

Record query_result := mk_result {
  res_rows : list row;
  res_columns : list string;
  res_groups : option (list (value * list row));
  res_summaries : option value;
  res_scannedFiles : nat;
  res_matchedRows : nat;
  res_diagnostics : diagnostics
}.

(** [new Map()] of the documents' files by path. *)
Definition filesByPath_of (documents : list document) : value :=
  VMap (fold_left (fun m d => map_set m (doc_path d) (file_value d)) documents []).

Section QueryEngine.
Variable local_offset : Z.
Variable globalFunctions : string -> option global_fn.
Variable methodRegistries : string -> string -> option method_fn.
Variable anyMethods : string -> option method_fn.
(** [computeSummaries(limited, spec, view, compiled)]: the view's summary
    row, [undefined] when the view declares none. *)
Variable computeSummaries : list row -> query_spec -> view_spec -> compiled_query
                            -> outcome (option value).

Definition evalAst (strict : bool) : expr -> context -> outcome value :=
  evaluateAst local_offset globalFunctions methodRegistries anyMethods strict.

(** [evaluatePropertyRef(property, row, strict, filesByPath)] *)
Definition evaluatePropertyRef (property : string) (r : row) (strict : bool)
  (filesByPath : value) : outcome value :=
  match negb (DOTTED_IDENTIFIER_RE_test property),
        assoc property (doc_frontmatter (row_doc r)) with
  | true, Some v => Ok v
  | _, _ =>
      evaluateExpression local_offset globalFunctions methodRegistries anyMethods strict
        property (withEvalContext r filesByPath)
  end.

(** [evaluateFilter] *)
Fixpoint evaluateFilter (f : compiled_filter) (r : row) (strict : bool) (filesByPath : value)
  : outcome bool :=
  match f with
  | CExpr e => v <- evalAst strict e (withEvalContext r filesByPath) ;; Ok (toBoolean v)
  | CTree a o n =>
      let fix every (l : list compiled_filter) : outcome bool :=
        match l with
        | [] => Ok true
        | x :: l' => b <- evaluateFilter x r strict filesByPath ;;
                     if b then every l' else Ok false
        end in
      let fix some (l : list compiled_filter) : outcome bool :=
        match l with
        | [] => Ok false
        | x :: l' => b <- evaluateFilter x r strict filesByPath ;;
                     if b then Ok true else some l'
        end in
      all_ok <- (match a with Some l => every l | None => Ok true end) ;;
      if negb all_ok then Ok false else
      any_ok <- (match o with Some ((_ :: _) as l) => some l | _ => Ok true end) ;;
      if negb any_ok then Ok false else
      match n with
      | Some n => b <- evaluateFilter n r strict filesByPath ;; Ok (negb b)
      | None => Ok true
      end
  end.

Definition evaluateFilter_opt (f : option compiled_filter) (r : row) (strict : bool)
  (filesByPath : value) : outcome bool :=
  match f with Some f => evaluateFilter f r strict filesByPath | None => Ok true end.

(** [evaluateFormulas]: [row.formula[name] = ...] in [order]. *)
Definition evaluateFormulas (r : row) (formulas : list (string * expr)) (order : list string)
  (strict : bool) (filesByPath : value) : outcome row :=
  fold_left
    (fun acc name =>
       r <- acc ;;
       match assoc name formulas with
       | None => Ok r
       | Some ast =>
           v <- evalAst strict ast (withEvalContext r filesByPath) ;;
           Ok (mk_row (row_doc r) (set_field (row_formula r) name v) (row_projected r))
       end)
    order (Ok r).

(** [projectRow] *)
Definition projectRow (r : row) (columns : list string) (strict : bool) (filesByPath : value)
  : outcome (list (string * value)) :=
  fold_left (fun acc column =>
               out <- acc ;;
               v <- evaluatePropertyRef column r strict filesByPath ;;
               Ok (set_field out column v))
            columns (Ok []).
(** One sort key of a row: [toComparable(evaluatePropertyRef(spec.by, row, ...))]. *)
Definition sort_key (spec : sort_spec) (r : row) (strict : bool) (filesByPath : value)
  : outcome comparable :=
  v <- evaluatePropertyRef (by_ spec) r strict filesByPath ;; toComparable v.

(** The comparator [stableSort] passes to [sort]: for each sort spec, the left
    key then the right key is evaluated, [<] then [>] decide, and the paths'
    [localeCompare] breaks a tie on every spec. *)
Fixpoint compare_rows (order : list sort_spec) (strict : bool) (filesByPath : value)
  (left right : row) : outcome Z :=
  match order with
  | [] => Ok (localeCompare (row_path left) (row_path right))
  | spec :: order' =>
      leftValue <- sort_key spec left strict filesByPath ;;
      rightValue <- sort_key spec right strict filesByPath ;;
      lt <- js_lt leftValue rightValue ;;
      if lt then Ok (if String.eqb (direction spec) "desc" then 1 else -1) else
      gt <- js_lt rightValue leftValue ;;
      if gt then Ok (if String.eqb (direction spec) "desc" then -1 else 1) else
      compare_rows order' strict filesByPath left right
  end.

(** [c] is a consistent comparator on the elements of [l], the condition
    under which [Array.prototype.sort] has a defined result. For a comparator
    whose results are -1, 0 or 1, as here, the conditions of the language
    (reflexivity, symmetry of equality, [a < b] iff [b > a], transitivity of
    equality, of below and of above) amount to these two: swapping the
    arguments negates the result, and "not above" is transitive. *)
Definition consistent_on {T} (c : T -> T -> Z) (l : list T) : bool :=
  forallb (fun a => forallb (fun b =>
    (c b a =? - c a b)
    && forallb (fun d => negb ((c a b <=? 0) && (c b d <=? 0)) || (c a d <=? 0)) l) l) l.

Definition is_ok {T} (m : outcome T) : bool := match m with Ok _ => true | _ => false end.

Definition js_error_eqb (e1 e2 : js_error) : bool :=
  String.eqb (err_name e1) (err_name e2) && String.eqb (err_message e1) (err_message e2).

Definition throws_with {T} (e : js_error) (m : outcome T) : bool :=
  match m with Throw e' => js_error_eqb e e' | _ => false end.

Fixpoint first_throw {T} (l : list (outcome T)) : option js_error :=
  match l with
  | [] => None
  | Throw e :: _ => Some e
  | _ :: l' => first_throw l'
  end.

(** [stableSort]. Which comparisons [sort] makes is left to the engine, so
    the model settles the runs whose result does not depend on them:
    - every comparison of two rows returns and the comparator is consistent:
      the stable sort, whose result is then unique;
    - every comparison returns or throws one same error [e], and some row
      throws [e] in every comparison it takes part in: the sort, which must
      compare each of two or more elements, throws [e].
    Any other run (an inconsistent comparator, several different errors, a
    comparison outside the model) is left outside. A single row is never
    compared. *)
Definition stableSort (rows : list row) (view : view_spec) (strict : bool) (filesByPath : value)
  : outcome (list row) :=
  let order := match view_sort view with Some o => o | None => [] end in
  let compare := compare_rows order strict filesByPath in
  let pairs := list_prod rows rows in
  match rows with
  | [] | [_] => Ok rows
  | _ =>
      if forallb (fun p => is_ok (compare (fst p) (snd p))) pairs then
        let c := fun a b => match compare a b with Ok z => z | _ => 0 end in
        if consistent_on c rows then Ok (sort_by c rows) else Outside
      else
        match first_throw (map (fun p => compare (fst p) (snd p)) pairs) with
        | Some e =>
            if forallb (fun p => is_ok (compare (fst p) (snd p))
                                 || throws_with e (compare (fst p) (snd p))) pairs
               && existsb (fun a => forallb (fun b => throws_with e (compare a b)
                                                      && throws_with e (compare b a)) rows) rows
            then Throw e else Outside
        | None => Outside
        end
  end.

Fixpoint add_to_group (groups : list (option string * (value * list row))) (mapKey : option string)
  (key : value) (r : row) : list (option string * (value * list row)) :=
  match groups with
  | [] => [(mapKey, (key, [r]))]
  | (k, (key0, rs)) :: gs =>
      if match k, mapKey with
         | Some a, Some b => String.eqb a b
         | None, None => true
         | _, _ => false
         end then (k, (key0, (rs ++ [r])%list)) :: gs
      else (k, (key0, rs)) :: add_to_group gs mapKey key r
  end.

(** [groupRows]; [if (!view.groupBy) return undefined] holds for an absent
    setting and for the empty string, the one falsy string. *)
Definition groupRows (rows : list row) (view : view_spec) (strict : bool) (filesByPath : value)
  : outcome (option (list (value * list row))) :=
  match view_groupBy view with
  | None => Ok None
  | Some g =>
      if match g with GroupBy p => String.eqb p "" | GroupByDir _ _ => false end
      then Ok None else
      let '(property, dir) := match g with
                              | GroupBy p => (p, "asc")
                              | GroupByDir p d => (p, d)
                              end in
      groups <- fold_left (fun acc r => m <- acc ;;
                             key <- evaluatePropertyRef property r strict filesByPath ;;
                             Ok (add_to_group m (json_stringify key) key r))
                          rows (Ok []) ;;
      sorted <- (match groups with
                 | [] | [_] => Ok (map snd groups)
                 | _ =>
                     labelled <- map_outcome (fun g => s <- js_ToString (fst (snd g)) ;;
                                                        Ok (s, snd g)) groups ;;
                     Ok (map snd (sort_by (fun a b => localeCompare (fst a) (fst b)) labelled))
                 end) ;;
      Ok (Some (if String.eqb dir "desc" then rev sorted else sorted))
  end.

(** The body of the [try] block of [executeCompiledQuery] for one document:
    [Some row] when the row is kept, [None] when a filter drops it. *)
Definition process_document (compiled : compiled_query) (view : view_spec)
  (filesByPath : value) (d : document) : outcome (option row) :=
  let strict := cq_strict compiled in
  r <- evaluateFormulas (mk_row d [] []) (cq_formulas compiled) (cq_formulaOrder compiled)
         strict filesByPath ;;
  g <- evaluateFilter_opt (cq_globalFilter compiled) r strict filesByPath ;;
  if negb g then Ok None else
  let viewFilter := match assoc (view_name view) (cq_viewFilters compiled) with
                    | Some f => f
                    | None => None
                    end in
  v <- evaluateFilter_opt viewFilter r strict filesByPath ;;
  if negb v then Ok None else Ok (Some r).

Definition row_error (d : document) (e : js_error) : string :=
  "row " ++ doc_path d ++ ": " ++ err_message e.

(** The loop over the documents, with its [try]/[catch]. *)
Fixpoint collectRows (compiled : compiled_query) (view : view_spec) (filesByPath : value)
  (documents : list document) (rows : list row) (errors : list string)
  : outcome (list row * list string) :=
  match documents with
  | [] => Ok (rows, errors)
  | d :: documents' =>
      match process_document compiled view filesByPath d with
      | Ok None => collectRows compiled view filesByPath documents' rows errors
      | Ok (Some r) => collectRows compiled view filesByPath documents' (rows ++ [r])%list errors
      | Throw e => collectRows compiled view filesByPath documents' rows
                               (errors ++ [row_error d e])%list
      | Outside => Outside
      end
  end.

(** [executeCompiledQuery] (the elapsed-time statistic is not modelled). *)
Definition executeCompiledQuery (compiled : compiled_query) (viewName : option string)
  (documents : list document) (diagnostics0 : option diagnostics) : outcome query_result :=
  let strict := cq_strict compiled in
  view <- getView (cq_spec compiled) viewName ;;
  let diag := match diagnostics0 with Some d => d | None => mk_diagnostics [] [] end in
  let filesByPath := filesByPath_of documents in
  collected <- collectRows compiled view filesByPath documents [] (diag_errors diag) ;;
  let (rows, errors) := collected in
  sorted <- stableSort rows view strict filesByPath ;;
  let limited := applyLimit sorted view in
  let columns := selectColumns view compiled limited in
  projected <- map_outcome (fun r => p <- projectRow r columns strict filesByPath ;;
                                     Ok (mk_row (row_doc r) (row_formula r) p)) limited ;;
  groups <- groupRows projected view strict filesByPath ;;
  summaries <- computeSummaries projected (cq_spec compiled) view compiled ;;
  Ok (mk_result projected columns groups summaries (length documents) (length projected)
                (mk_diagnostics errors (diag_warnings diag))).
End QueryEngine.

(* ------------------------------------------------------------------------- *)
(** ** Summaries ([query-engine.ts]) *)

(** [String.prototype.toLowerCase] on a Latin-1 character: [A-Z] and
    [U+00C0..U+00DE] except [U+00D7] move 32 code points up. *)
Definition js_lower_char (c : ascii) : ascii :=
  if in_range 65 90 c || (in_range 192 222 c && negb (code c =? 215)%nat)
  then ascii_of_nat (code c + 32) else c.

Definition toLowerCase (s : string) : string := str (map js_lower_char (chs s)).

(** [toSummaryName] *)
Definition toSummaryName (name : string) : string := toLowerCase (str (js_trim (chs name))).

(** [isDateList] *)
Definition isDateList (values : list value) : bool :=
  (0 <? length values)%nat && forallb is_date values.

(** One entry of [toNumberList]: [Some] the finite number it maps to, [None]
    when [Number.isFinite] drops it. *)
Definition summary_number (entry : value) : outcome (option Z) :=
  match entry with
  | VDate t => Ok (Some t)
  | _ =>
      p <- js_ToNumber entry ;;
      match p with
      | NumInt z => if safe_int z then Ok (Some z) else Outside
      | NumInfinite _ | NumNaN => Ok None
      | NumFraction => Outside
      end
  end.

(** [toNumberList] *)
Definition toNumberList (values : list value) : outcome (list Z) :=
  ns <- map_outcome summary_number values ;;
  Ok (flat_map (fun o => match o with Some z => [z] | None => [] end) ns).

(** A number operation whose result must stay a safe integer to be exact. *)
Definition safe (z : Z) : outcome Z := if safe_int z then Ok z else Outside.

(** [numbers.reduce((total, entry) => total + entry, total)] *)
Fixpoint sum_from (total : Z) (l : list Z) : outcome Z :=
  match l with
  | [] => Ok total
  | x :: l' => t <- safe (total + x) ;; sum_from t l'
  end.

(** [Math.min(...numbers)] and [Math.max(...numbers)] on a non-empty list. *)
Definition list_min (x : Z) (l : list Z) : Z := fold_left Z.min l x.
Definition list_max (x : Z) (l : list Z) : Z := fold_left Z.max l x.

(** [new Set(keys).size] *)
Definition opt_string_eqb (a b : option string) : bool :=
  match a, b with
  | Some x, Some y => String.eqb x y
  | None, None => true
  | _, _ => false
  end.

Definition set_add (s : list (option string)) (x : option string) : list (option string) :=
  if existsb (opt_string_eqb x) s then s else (s ++ [x])%list.

Definition set_size (l : list (option string)) : nat := length (fold_left set_add l []).

Definition count_where (p : value -> bool) (values : list value) : value :=
  VNum (Z.of_nat (length (filter p values))).

Definition is_true_value (v : value) : bool := match v with VBool true => true | _ => false end.
Definition is_false_value (v : value) : bool := match v with VBool false => true | _ => false end.
Definition is_empty_value (v : value) : bool :=
  match v with VNull | VUndef => true | VStr s => String.eqb s "" | _ => false end.

(** [entry.getTime()] for a date. *)
Definition time_of (v : value) : Z := match v with VDate t => t | _ => 0 end.

(** The [median] case once the numbers are sorted. *)
Definition median_of (numbers : list Z) : outcome value :=
  match numbers with
  | [] => Ok VNull
  | _ =>
      let middle := (length numbers / 2)%nat in
      if (length numbers mod 2 =? 0)%nat then
        s <- safe (nth (middle - 1) numbers 0 + nth middle numbers 0) ;; exact_div s 2
      else Ok (VNum (nth middle numbers 0))
  end.

(** The [stddev] case: the mean, the population variance and its square root,
    each of which must be an integer to stay in the model. *)
Definition stddev_of (numbers : list Z) : outcome value :=
  match numbers with
  | [] => Ok VNull
  | x :: l =>
      let n := Z.of_nat (length numbers) in
      total <- sum_from 0 numbers ;;
      if negb (Z.rem total n =? 0) then Outside else
      let mean := Z.quot total n in
      squares <- map_outcome (fun entry => d <- safe (entry - mean) ;; safe (d * d)) numbers ;;
      sq <- sum_from 0 squares ;;
      if negb (Z.rem sq n =? 0) then Outside else
      let variance := Z.quot sq n in
      let r := Z.sqrt variance in
      if r * r =? variance then Ok (VNum r) else Outside
  end.

(** [evalBuiltinSummary(name, values)] *)
Definition evalBuiltinSummary (name : string) (values : list value) : outcome value :=
  let normalized := toSummaryName name in
  if String.eqb normalized "count" then Ok (VNum (Z.of_nat (length values)))
  else if String.eqb normalized "sum" then
    numbers <- toNumberList values ;; s <- sum_from 0 numbers ;; Ok (VNum s)
  else if String.eqb normalized "avg" || String.eqb normalized "average" then
    numbers <- toNumberList values ;;
    match numbers with
    | [] => Ok (VNum 0)
    | _ => s <- sum_from 0 numbers ;; exact_div s (Z.of_nat (length numbers))
    end
  else if String.eqb normalized "min" then
    numbers <- toNumberList values ;;
    match numbers with [] => Ok VNull | x :: l => Ok (VNum (list_min x l)) end
  else if String.eqb normalized "max" then
    numbers <- toNumberList values ;;
    match numbers with [] => Ok VNull | x :: l => Ok (VNum (list_max x l)) end
  else if String.eqb normalized "range" then
    if isDateList values then
      match map time_of values with
      | [] => Ok VNull
      | x :: l => num_result (list_max x l - list_min x l)
      end
    else
      numbers <- toNumberList values ;;
      match numbers with
      | [] => Ok VNull
      | x :: l => num_result (list_max x l - list_min x l)
      end
  else if String.eqb normalized "median" then
    numbers <- toNumberList values ;; median_of (sort_by (fun l r => l - r) numbers)
  else if String.eqb normalized "stddev" then
    numbers <- toNumberList values ;; stddev_of numbers
  else if String.eqb normalized "earliest" then
    if negb (isDateList values) || (length values =? 0)%nat then Ok VNull
    else match map time_of values with
         | [] => Ok VNull
         | x :: l => Ok (VDate (list_min x l))
         end
  else if String.eqb normalized "latest" then
    if negb (isDateList values) || (length values =? 0)%nat then Ok VNull
    else match map time_of values with
         | [] => Ok VNull
         | x :: l => Ok (VDate (list_max x l))
         end
  else if String.eqb normalized "checked" then Ok (count_where is_true_value values)
  else if String.eqb normalized "unchecked" then Ok (count_where is_false_value values)
  else if String.eqb normalized "empty" then Ok (count_where is_empty_value values)
  else if String.eqb normalized "filled" then
    Ok (count_where (fun v => negb (is_empty_value v)) values)
  else if String.eqb normalized "unique" then
    Ok (VNum (Z.of_nat (set_size (map json_stringify values))))
  else Ok VNull.

Definition BUILTIN_SUMMARIES : list string :=
  ["count"; "sum"; "avg"; "min"; "max"; "average"; "median"; "stddev"; "earliest";
   "latest"; "range"; "checked"; "unchecked"; "empty"; "filled"; "unique"].

(** [spec.summaries?.[summaryName] ? compileExpression(spec.summaries[summaryName])
    : undefined]; an inherited member of the plain object is a function, which
    [compileExpression] cannot read (outside the model). *)
Definition summary_source (spec : query_spec) (summaryName : string) : outcome (option expr) :=
  match spec_summaries spec with
  | None => Ok None
  | Some s =>
      match assoc summaryName s with
      | Some src => if String.eqb src "" then Ok None else e <- parse src ;; Ok (Some e)
      | None => if mem_name summaryName object_prototype_names then Outside else Ok None
      end
  end.

Section Summaries.
Variable local_offset : Z.
Variable globalFunctions : string -> option global_fn.
Variable methodRegistries : string -> string -> option method_fn.
Variable anyMethods : string -> option method_fn.

(** One column of [computeSummaries]: the body of its loop. *)
Definition summary_column (rows : list row) (spec : query_spec) (compiled : compiled_query)
  (column summaryName : string) : outcome value :=
  let values := map (fun r => js_get (VObj (row_projected r)) column) rows in
  if mem_name (toSummaryName summaryName) BUILTIN_SUMMARIES then
    evalBuiltinSummary summaryName values
  else
    summaryExpression <-
      (match assoc summaryName (cq_summaryFormulas compiled) with
       | Some e => Ok (Some e)
       | None => summary_source spec summaryName
       end) ;;
    match summaryExpression with
    | None => Ok VNull
    | Some e =>
        evaluateAst local_offset globalFunctions methodRegistries anyMethods
          (cq_strict compiled) e [("values", VList values)]
    end.

(** [computeSummaries(rows, spec, view, compiled)]; [summaryMap] is
    [view.summaries]. *)
Definition computeSummaries (summaryMap : option (list (string * string)))
  (rows : list row) (spec : query_spec) (compiled : compiled_query) : outcome (option value) :=
  match summaryMap with
  | None | Some [] => Ok None
  | Some m =>
      output <- fold_left (fun acc kv =>
                             output <- acc ;;
                             v <- summary_column rows spec compiled (fst kv) (snd kv) ;;
                             Ok (set_field output (fst kv) v))
                          (own_keys_order m) (Ok []) ;;
      Ok (Some (VObj output))
  end.
End Summaries.

(* ------------------------------------------------------------------------- *)
(** ** Serialisation ([serialize.ts]) *)

Definition LF : ascii := ascii_of_nat 10.
Definition newline : string := String LF "".

(** [normalizedRows] *)
Definition normalizedRows (result : query_result) : list (list (string * value)) :=
  map row_projected (res_rows result).

(** [toDisplayValue]: [typeof value === "object"] holds of arrays, plain
    objects, maps and regular expressions; [JSON.stringify] of those is never
    [undefined]. *)
Definition toDisplayValue (v : value) : outcome string :=
  match v with
  | VNull | VUndef => Ok ""
  | VDate t => Ok (toISOString t)
  | VList _ | VObj _ | VMap _ | VRegExp _ _ =>
      match json_stringify v with Some s => Ok s | None => Outside end
  | _ => js_ToString v
  end.

(** The character class [escapeCsv] tests for: a double quote, a comma or LF. *)
Definition csv_special (c : ascii) : bool :=
  (c =? dquote)%char || (c =? ",")%char || (c =? LF)%char.

(** [escapeCsv] *)
Definition escapeCsv (value : string) : string :=
  if negb (existsb csv_special (chs value)) then value
  else str (dquote :: flat_map (fun c => if (c =? dquote)%char then [dquote; dquote] else [c])
                                (chs value) ++ [dquote])%list.

(** [row[column]] on a projected row *)
Definition row_get (row : list (string * value)) (column : string) : value :=
  js_get (VObj row) column.

(** [serializeCsv] *)
Definition serializeCsv (result : query_result) : outcome string :=
  let rows := normalizedRows result in
  let columns := res_columns result in
  body <- map_outcome (fun row =>
            cells <- map_outcome (fun column => toDisplayValue (row_get row column)) columns ;;
            Ok (String.concat "," (map escapeCsv cells))) rows ;;
  Ok (String.concat newline (String.concat "," (map escapeCsv columns) :: body) ++ newline).

(** [value.replaceAll("|", "\\|")] *)
Definition escape_pipes (s : string) : string :=
  str (flat_map (fun c => if (c =? "|")%char then [bslash; "|"%char] else [c]) (chs s)).

(** [serializeMarkdownTable] *)
Definition serializeMarkdownTable (result : query_result) : outcome string :=
  let rows := normalizedRows result in
  let columns := res_columns result in
  let header := "| " ++ String.concat " | " columns ++ " |" in
  let divider := "| " ++ String.concat " | " (map (fun _ => "---") columns) ++ " |" in
  body <- map_outcome (fun row =>
            cells <- map_outcome (fun column =>
                       s <- toDisplayValue (row_get row column) ;; Ok (escape_pipes s)) columns ;;
            Ok ("| " ++ String.concat " | " cells ++ " |")) rows ;;
  Ok (String.concat newline (header :: divider :: body) ++ newline).

(** [serializeResult]. The [json] format (indented [JSON.stringify] of the
    whole result) and the [yaml] format (the [yaml] library) are not
    modelled. *)
Definition serializeResult (result : query_result) (format : string) : outcome string :=
  if String.eqb format "json" then Outside
  else if String.eqb format "jsonl" then
    lines <- map_outcome (fun row => match json_stringify (VObj row) with
                                     | Some s => Ok s
                                     | None => Outside
                                     end) (normalizedRows result) ;;
    Ok (String.concat newline lines ++ newline)
  else if String.eqb format "yaml" then Outside
  else if String.eqb format "csv" then serializeCsv result
  else if String.eqb format "md" then serializeMarkdownTable result
  else Throw (mk_error "Error" ("unsupported output format: " ++ format)).

(** *** Readers of the output *)

(** A reader for CSV as RFC 4180 describes it, with LF as the record separator:
    a field is unquoted, or enclosed in double quotes with each double quote
    inside doubled. It is the reading side of the round trip of [serializeCsv]. *)
Inductive csv_state := FieldStart | Unquoted | Quoted | QuoteSeen.

Fixpoint csv_go (l : chars) (st : csv_state) (field : chars) (record : list string)
  (records : list (list string)) : list (list string) :=
  match l with
  | [] =>
      match st, field, record with
      | FieldStart, [], [] => records
      | _, _, _ => (records ++ [record ++ [str field]])%list
      end
  | c :: l' =>
      match st with
      | FieldStart | Unquoted =>
          if (c =? ",")%char then csv_go l' FieldStart [] (record ++ [str field])%list records
          else if (c =? LF)%char
          then csv_go l' FieldStart [] [] (records ++ [record ++ [str field]])%list
          else if (c =? dquote)%char && match st with FieldStart => true | _ => false end
          then csv_go l' Quoted field record records
          else csv_go l' Unquoted (field ++ [c])%list record records
      | Quoted =>
          if (c =? dquote)%char then csv_go l' QuoteSeen field record records
          else csv_go l' Quoted (field ++ [c])%list record records
      | QuoteSeen =>
          if (c =? dquote)%char then csv_go l' Quoted (field ++ [dquote])%list record records
          else if (c =? ",")%char then csv_go l' FieldStart [] (record ++ [str field])%list records
          else if (c =? LF)%char
          then csv_go l' FieldStart [] [] (records ++ [record ++ [str field]])%list
          else csv_go l' Unquoted (field ++ [c])%list record records
      end
  end.

Definition csv_read (s : string) : list (list string) := csv_go (chs s) FieldStart [] [] [].

(** [text.split("\n")] of a reader of the output, as [String.prototype.split]. *)
Fixpoint split_on (c : ascii) (l : chars) : list chars :=
  match l with
  | [] => [[]]
  | d :: l' =>
      if (d =? c)%char then [] :: split_on c l'
      else match split_on c l' with
           | [] => [[d]]
           | x :: xs => (d :: x) :: xs
           end
  end.

Definition split_lines (s : string) : list string := map str (split_on LF (chs s)).


(* ------------------------------------------------------------------------- *)
(** ** Query normalisation ([schema.ts]) *)

(** [isPlainObject]: [typeof value === "object"], not [null] and not an array. *)
Definition isPlainObject (v : value) : bool :=
  match v with VObj _ | VMap _ | VRegExp _ _ | VDate _ => true | _ => false end.

(** [parseSortSpec]: [const [property, directionText] = value.split(":")]. *)
Definition parseSortSpec (value : string) : sort_spec :=
  let parts := split_on ":"%char (chs value) in
  let property := match parts with p :: _ => p | [] => [] end in
  let directionText := match parts with _ :: d :: _ => str d | _ => "asc" end in
  let direction := toLowerCase directionText in
  mk_sort_spec (str (js_trim property)) (if String.eqb direction "desc" then "desc" else "asc").

(** [normalizeDirection] *)
Definition normalizeDirection (v : value) : outcome string :=
  s <- js_ToString (if isNullish v then VStr "asc" else v) ;;
  Ok (if String.eqb (toLowerCase s) "desc" then "desc" else "asc").

Definition sort_entry_issue (path : string) (index : nat) : string :=
  path ++ "[" ++ js_string_of_int (Z.of_nat index) ++ "] must be a string (property:direction) or sort object".

(** The loop of [normalizeSortList] over the entries, from [index] on. *)
Fixpoint normalize_sort_entries (path : string) (index : nat) (entries : list value)
  (output : list sort_spec) (issues : list string) : outcome (list sort_spec * list string) :=
  match entries with
  | [] => Ok (output, issues)
  | entry :: entries' =>
      match entry with
      | VStr s => normalize_sort_entries path (S index) entries' (output ++ [parseSortSpec s])%list issues
      | _ =>
          match isPlainObject entry, js_get entry "by", js_get entry "property" with
          | true, VStr by', _ =>
              direction <- normalizeDirection (js_get entry "direction") ;;
              normalize_sort_entries path (S index) entries'
                (output ++ [mk_sort_spec by' direction])%list issues
          | true, _, VStr property =>
              direction <- normalizeDirection (js_get entry "direction") ;;
              normalize_sort_entries path (S index) entries'
                (output ++ [mk_sort_spec property direction])%list issues
          | _, _, _ =>
              normalize_sort_entries path (S index) entries' output
                (issues ++ [sort_entry_issue path index])%list
          end
      end
  end.

(** [normalizeSortList]: the sort list, or [undefined], and the issues. *)
Definition normalizeSortList (v : value) (path : string) (issues : list string)
  : outcome (option (list sort_spec) * list string) :=
  match v with
  | VUndef => Ok (None, issues)
  | VList entries =>
      r <- normalize_sort_entries path 0 entries [] issues ;;
      Ok (Some (fst r), snd r)
  | _ => Ok (None, (issues ++ [(path ++ " must be an array")%string])%list)
  end.

Definition order_entry_issue (path : string) (index : nat) : string :=
  path ++ "[" ++ js_string_of_int (Z.of_nat index) ++ "] must be a string property name".

(** The loop of [normalizeOrderList] over the entries, from [index] on. *)
Fixpoint normalize_order_entries (path : string) (index : nat) (entries : list value)
  (output : list string) (issues : list string) : list string * list string :=
  match entries with
  | [] => (output, issues)
  | VStr s :: entries' => normalize_order_entries path (S index) entries' (output ++ [s])%list issues
  | _ :: entries' =>
      normalize_order_entries path (S index) entries' output
        (issues ++ [order_entry_issue path index])%list
  end.

(** [normalizeOrderList(value, path, issues)]: the returned list and the
    issues array after the call. *)
Definition normalizeOrderList (v : value) (path : string) (issues : list string)
  : option (list string) * list string :=
  match v with
  | VUndef => (None, issues)
  | VList entries =>
      let r := normalize_order_entries path 0 entries [] issues in
      (Some (fst r), snd r)
  | _ => (None, (issues ++ [(path ++ " must be an array")%string])%list)
  end.

(* ------------------------------------------------------------------------- *)
(** ** Registered functions and methods ([evaluator.ts]) *)

(** [evaluateArgNodes]: every argument node, in order, in the given context. *)
Definition evaluateArgNodes (argNodes : list arg_thunk) (ctx : context)
  : outcome (list value) :=
  map_outcome (fun node => node ctx) argNodes.

(** [const [first, second] = args]: a missing element is [undefined]. *)
Definition arg_at (args : list value) (i : nat) : value := nth i args VUndef.

(** [Array.isArray(target) ? target : []] *)
Definition as_list (v : value) : list value :=
  match v with VList items => items | _ => [] end.

(** [globalFunctions.if]: the condition, then only the chosen branch, is
    evaluated. *)
Definition global_if : global_fn := fun argNodes ctx _ =>
  match argNodes with
  | cond :: whenTrue :: rest =>
      condition <- cond ctx ;;
      if toBoolean condition then whenTrue ctx
      else match rest with
           | whenFalse :: _ => whenFalse ctx
           | [] => Ok VNull
           end
  | _ => throw_error "if() expects at least 2 arguments"
  end.

(** The loop of [listMethods.unique]: [seen] is the [Set] of the keys met so
    far, [output] the entries pushed so far. *)
Fixpoint unique_go (l : list value) (seen : list string) (output : list value)
  : outcome (list value) :=
  match l with
  | [] => Ok output
  | entry :: l' =>
      key <- stableStringify entry ;;
      if existsb (String.eqb key) seen then unique_go l' seen output
      else unique_go l' (key :: seen) (output ++ [entry])%list
  end.

(** [listMethods.unique] *)
Definition list_unique : method_fn := fun target _ _ _ =>
  output <- unique_go (as_list target) [] [] ;; Ok (VList output).

(** [listMethods.join] *)
Definition list_join : method_fn := fun target argNodes ctx _ =>
  args <- evaluateArgNodes argNodes ctx ;;
  let separator := arg_at args 0 in
  let items := as_list target in
  joiner <- (if isNullish separator then Ok "," else stringifyValue separator) ;;
  parts <- map_outcome stringifyValue items ;;
  Ok (VStr (String.concat joiner parts)).

(** [String.prototype.split] with a non-empty separator [sep]: the source is
    cut at each occurrence of [sep], found from left to right; [skip] counts
    the code units of a matched separator still to pass over and [cur] holds
    the current piece, reversed. *)
Fixpoint split_go (sep : chars) (l : chars) (skip : nat) (cur : chars) : list chars :=
  match l with
  | [] => [rev cur]
  | c :: l' =>
      match skip with
      | S k => split_go sep l' k cur
      | O =>
          if starts_with sep l then rev cur :: split_go sep l' (length sep - 1) []
          else split_go sep l' 0 (c :: cur)
      end
  end.

(** [source.split(separator)] with a string separator: an empty separator
    gives the code units of the source. *)
Definition js_split (source separator : string) : list string :=
  match chs separator with
  | [] => map (fun c => String c EmptyString) (chs source)
  | sep => map str (split_go sep (chs source) 0 [])
  end.

(** [stringMethods.split] *)
Definition string_split : method_fn := fun target argNodes ctx strict =>
  args <- evaluateArgNodes argNodes ctx ;;
  let separator := arg_at args 0 in
  let limit := arg_at args 1 in
  source <- stringifyValue target ;;
  parts <- (match separator with
            | VRegExp _ _ => Outside (* a regular expression separator *)
            | _ => sep <- stringifyValue separator ;; Ok (map VStr (js_split source sep))
            end) ;;
  if isNullish limit then Ok (VList parts)
  else n <- toNumber strict limit ;; Ok (VList (firstn (Z.to_nat (Z.max 0 n)) parts)).

(** [{ ...context, value, index }] *)
Definition scoped_context (ctx : context) (v : value) (index : nat) : context :=
  set_field (set_field ctx "value" v) "index" (VNum (Z.of_nat index)).

(** The callback of [listMethods.filter], from [index] on. *)
Fixpoint filter_go (expression : arg_thunk) (ctx : context) (l : list value) (index : nat)
  : outcome (list value) :=
  match l with
  | [] => Ok []
  | v :: l' =>
      keep <- expression (scoped_context ctx v index) ;;
      rest <- filter_go expression ctx l' (S index) ;;
      Ok (if toBoolean keep then v :: rest else rest)
  end.

(** [listMethods.filter] *)
Definition list_filter : method_fn := fun target argNodes ctx _ =>
  let items := as_list target in
  match argNodes with
  | [] => Ok (VList items)
  | expression :: _ => out <- filter_go expression ctx items 0 ;; Ok (VList out)
  end.

(** The callback of [listMethods.map], from [index] on. *)
Fixpoint map_go (expression : arg_thunk) (ctx : context) (l : list value) (index : nat)
  : outcome (list value) :=
  match l with
  | [] => Ok []
  | v :: l' =>
      r <- expression (scoped_context ctx v index) ;;
      rest <- map_go expression ctx l' (S index) ;;
      Ok (r :: rest)
  end.

(** [listMethods.map] *)
Definition list_map : method_fn := fun target argNodes ctx _ =>
  let items := as_list target in
  match argNodes with
  | [] => Ok (VList items)
  | expression :: _ => out <- map_go expression ctx items 0 ;; Ok (VList out)
  end.

(** [.replace(/\/+$/, "")] *)
Fixpoint drop_slashes (l : chars) : chars :=
  match l with
  | "/"%char :: l' => drop_slashes l'
  | _ => l
  end.

Definition strip_trailing_slashes (s : string) : string :=
  str (rev (drop_slashes (rev (chs s)))).

(** [fileMethods.inFolder] *)
Definition file_inFolder : method_fn := fun target argNodes ctx _ =>
  if negb (isFileLike target) then Ok (VBool false) else
  args <- evaluateArgNodes argNodes ctx ;;
  folderRaw <- stringifyValue (arg_at args 0) ;;
  let folder := strip_trailing_slashes (normalizePath folderRaw) in
  fileFolderRaw <- js_ToString (js_get target "folder") ;;
  let fileFolder := normalizePath fileFolderRaw in
  if String.eqb folder "" then Ok (VBool true)
  else Ok (VBool (String.eqb fileFolder folder
                  || starts_with (chs (folder ++ "/")) (chs fileFolder))).

(** [normalizeTag]: [tag.trim().replace(/^#/, "")] *)
Definition normalizeTag (tag : string) : string :=
  match js_trim (chs tag) with
  | "#"%char :: rest => str rest
  | l => str l
  end.

(** [fileMethods.hasTag] *)
Definition file_hasTag : method_fn := fun target argNodes ctx _ =>
  if negb (isFileLike target) then Ok (VBool false) else
  let tags :=
    match js_get target "tags" with
    | VList items =>
        map normalizeTag
            (flat_map (fun entry => match entry with VStr s => [s] | _ => [] end) items)
    | _ => []
    end in
  args <- evaluateArgNodes argNodes ctx ;;
  raw <- map_outcome stringifyValue args ;;
  let wanted := filter (fun entry => negb (String.eqb entry "")) (map normalizeTag raw) in
  Ok (VBool (existsb (fun query =>
                        existsb (fun tag => String.eqb tag query
                                            || starts_with (chs (query ++ "/")) (chs tag))
                                tags)
                     wanted)).

(* ========================================================================= *)
(** * Properties *)

(* ------------------------------------------------------------------------- *)
(** ** Dates plus durations *)

Lemma date_then_time_clip (x : Z) :
  date_then (time_clip x) (fun t => Ok (VDate t)) = time_clip x.
Proof. unfold time_clip; destruct (Z.abs x <=? 8640000000000000); reflexivity. Qed.

Lemma date_then_setFullYear (off t y : Z) :
  date_then (setFullYear off t y) (fun t => Ok (VDate t)) = setFullYear off t y.
Proof. apply date_then_time_clip. Qed.

Lemma date_then_setMonth (off t m : Z) :
  date_then (setMonth off t m) (fun t => Ok (VDate t)) = setMonth off t m.
Proof. apply date_then_time_clip. Qed.

(** C10 (counterexample): 2024-01-31 (midnight UTC, on a host at UTC) plus
    ["1M"] is 2024-03-02: [setMonth] keeps day 31, which February lacks, and
    the overflow moves the date into March rather than to a day of February. *)
Lemma C10_counterexample :
  addValues 0 true (VDate (days_from_civil 2024 1 31 * msPerDay)) (VStr "1M")
    = Ok (VDate (days_from_civil 2024 3 2 * msPerDay))
  /\ toISOString (days_from_civil 2024 3 2 * msPerDay) = "2024-03-02T00:00:00.000Z".
Proof. split; vm_compute; reflexivity. Qed.

(** C10: adding a one-part duration of [n] units to a timestamp: a year part
    is [setFullYear(getFullYear() + n)] and a month part [setMonth(getMonth() + n)]
    (calendar fields in local time, the day of the month and the time of day kept,
    a day past the end of the target month carried into the next month), and any
    smaller unit adds [n] times its length in milliseconds. On a host at UTC,
    2024-01-31 plus ["1M"] is 2024-03-02. *)
Theorem C10_applyDuration_fields (off : Z) (strict : bool) (t n : Z) :
  addValues off strict (VDate t) (duration_of [duration_part "year" (VNum n)])
    = setFullYear off t (getFullYear off t + n)
  /\ addValues off strict (VDate t) (duration_of [duration_part "month" (VNum n)])
    = setMonth off t (getMonth off t + n)
  /\ (forall u ms, In u ["week"; "day"; "hour"; "minute"; "second"; "millisecond"] ->
        unit_ms u = Some ms -> safe_int (ms * n) = true ->
        addValues off strict (VDate t) (duration_of [duration_part u (VNum n)])
          = time_clip (t + ms * n))
  /\ addValues 0 strict (VDate (days_from_civil 2024 1 31 * msPerDay)) (VStr "1M")
       = Ok (VDate (days_from_civil 2024 3 2 * msPerDay)).
Proof.
  split; [|split; [|split]].
  - cbn -[setFullYear getFullYear]. rewrite Z.mul_1_r. apply date_then_setFullYear.
  - cbn -[setMonth getMonth]. rewrite Z.mul_1_r. apply date_then_setMonth.
  - intros u ms Hu Hms Hsafe.
    assert (Hgen : forall u', u' = u ->
      addValues off strict (VDate t) (duration_of [duration_part u' (VNum n)])
      = (ms0 <- durationToMilliseconds
                  (duration_of [VObj [("unit", VStr u'); ("value", VNum (n * 1))]]) ;;
         date_then (time_clip (t + ms0)) (fun t => Ok (VDate t)))).
    { intros u' ->.
      simpl in Hu; destruct Hu as [<-|[<-|[<-|[<-|[<-|[<-|[]]]]]]]; reflexivity. }
    rewrite (Hgen u eq_refl), Z.mul_1_r.
    assert (Hd : durationToMilliseconds (duration_of [VObj [("unit", VStr u); ("value", VNum n)]])
                 = Ok (ms * n)).
    { unfold durationToMilliseconds, duration_parts, duration_of. cbn -[unit_ms safe_int].
      unfold part_ms. cbn -[unit_ms safe_int]. rewrite Hms. cbn -[safe_int].
      rewrite Hsafe. cbn -[safe_int]. rewrite Hsafe. reflexivity. }
    rewrite Hd. apply date_then_time_clip.
  - destruct strict; vm_compute; reflexivity.
Qed.

(* ------------------------------------------------------------------------- *)
(** ** Path equality *)

Lemma resolveComparablePath_date (t : Z) : resolveComparablePath (VDate t) = None.
Proof. reflexivity. Qed.

(** C9 (counterexample): the [.md] suffix is removed in any letter case, so
    ["Notes/A.MD" == "Notes/A"] holds although the normalized path of the
    left operand still ends in the upper-case [.MD]. *)
Lemma C9_counterexample :
  equalsValues true (VStr "Notes/A.MD") (VStr "Notes/A") = Ok true
  /\ normalizePath "Notes/A.MD" = "Notes/A.MD".
Proof. split; vm_compute; reflexivity. Qed.

(** C9: under [==], when both operands resolve to a path (a hyperlink or a
    file record by its [path], or a plain string), normalized (backslashes
    turned into [/], one leading [./] removed, surrounding whitespace trimmed)
    and with one trailing [.md] removed in any letter case, the operands are
    equal exactly when these paths are equal as strings; a hyperlink to
    ["Notes/Alpha"] equals ["Notes/Alpha.md"], and ["Notes/A.MD"] equals
    ["Notes/A"]. *)
Theorem C9_path_equality (strict : bool) (l r : value) (a b : string)
  (Hl : resolveComparablePath l = Some a) (Hr : resolveComparablePath r = Some b) :
  equalsValues strict l r = Ok (String.eqb a b)
  /\ equalsValues strict (VObj [("__kind", VStr "link"); ("path", VStr "Notes/Alpha")])
                         (VStr "Notes/Alpha.md") = Ok true
  /\ equalsValues strict (VStr "Notes/A.MD") (VStr "Notes/A") = Ok true.
Proof.
  split; [|split; destruct strict; vm_compute; reflexivity].
  destruct l, r;
    try (rewrite resolveComparablePath_date in Hl; discriminate);
    try (cbv in Hl; discriminate Hl); try (cbv in Hr; discriminate Hr);
    cbn [equalsValues]; rewrite Hl, Hr; reflexivity.
Qed.

Lemma C9_path_equality_witness :
  resolveComparablePath (VObj [("__kind", VStr "link"); ("path", VStr "Notes/Alpha")])
    = Some "Notes/Alpha" /\
  resolveComparablePath (VStr "Notes/Alpha.md") = Some "Notes/Alpha" /\
  equalsValues true (VObj [("__kind", VStr "link"); ("path", VStr "Notes/Alpha")])
    (VStr "Notes/Alpha.md") = Ok true.
Proof.
  split; [vm_compute; reflexivity|]. split; [vm_compute; reflexivity|].
  exact (proj1 (C9_path_equality true
                  (VObj [("__kind", VStr "link"); ("path", VStr "Notes/Alpha")])
                  (VStr "Notes/Alpha.md") "Notes/Alpha" "Notes/Alpha"
                  ltac:(vm_compute; reflexivity) ltac:(vm_compute; reflexivity))).
Defined.

(* ------------------------------------------------------------------------- *)
(** ** [and] and [or] *)

(** C3 (counterexample): [0 and x] is [false], not the left operand [0]; and
    ['yes' or x] is [true], not ['yes']. *)
Lemma C3_counterexample :
  evaluateExpression 0 (fun _ => None) (fun _ _ => None) (fun _ => None) false "0 and x" []
    = Ok (VBool false)
  /\ evaluateExpression 0 (fun _ => None) (fun _ _ => None) (fun _ => None) false "'yes' or x" []
    = Ok (VBool true).
Proof. split; vm_compute; reflexivity. Qed.

Section ShortCircuit.
Variable local_offset : Z.
Variable globalFunctions : string -> option global_fn.
Variable methodRegistries : string -> string -> option method_fn.
Variable anyMethods : string -> option method_fn.
Variable strict : bool.

Let eval := evaluateAst local_offset globalFunctions methodRegistries anyMethods strict.

(** C3: [and]/[&&] and [or]/[||] evaluate the left operand first and the
    right operand only when the left one does not decide the result. A
    falsy left operand makes [a and b] the boolean [false], a truthy one makes
    [a or b] the boolean [true]; otherwise the result is the value of the
    right operand as it is, not converted to a boolean. *)
Theorem C3_short_circuit (op : string) (a b : expr) (ctx : context) (va : value)
  (Ha : eval a ctx = Ok va) :
  ((op = "and" \/ op = "&&") ->
     eval (EBinary op a b) ctx = if toBoolean va then eval b ctx else Ok (VBool false))
  /\ ((op = "or" \/ op = "||") ->
     eval (EBinary op a b) ctx = if toBoolean va then Ok (VBool true) else eval b ctx).
Proof.
  unfold eval in *.
  split; intros [-> | ->]; cbn [evaluateAst String.eqb orb]; rewrite Ha; reflexivity.
Qed.
End ShortCircuit.

Lemma C3_short_circuit_witness :
  evaluateAst 0 (fun _ => None) (fun _ _ => None) (fun _ => None) true
    (ELiteral (VNum 0) "0") [] = Ok (VNum 0)
  /\ evaluateAst 0 (fun _ => None) (fun _ _ => None) (fun _ => None) true
       (EBinary "and" (ELiteral (VNum 0) "0") (EIdentifier "x")) [] = Ok (VBool false).
Proof.
  split; [reflexivity|].
  apply (C3_short_circuit 0 (fun _ => None) (fun _ _ => None) (fun _ => None) true
           "and" (ELiteral (VNum 0) "0") (EIdentifier "x") [] (VNum 0) eq_refl).
  left; reflexivity.
Defined.

(* ------------------------------------------------------------------------- *)
(** ** Column resolution during projection *)

(** C1 (counterexample): a front-matter key [a.b] is a dotted identifier, so
    the column [a.b] is not read from the front-matter but parsed as the member
    access [a.b]: strict mode raises, non-strict mode gives [undefined], never
    the stored [1]. *)
Lemma C1_counterexample :
  let r := mk_row (mk_document "x" "x.md" [("ext", VStr "md")] [("a.b", VNum 1)]) [] [] in
  assoc "a.b" (doc_frontmatter (row_doc r)) = Some (VNum 1)
  /\ evaluatePropertyRef 0 (fun _ => None) (fun _ _ => None) (fun _ => None) "a.b" r true (VMap [])
     = Throw (mk_error "Error" "cannot access property b on nullish value")
  /\ evaluatePropertyRef 0 (fun _ => None) (fun _ _ => None) (fun _ => None) "a.b" r false (VMap [])
     = Ok VUndef.
Proof. vm_compute; repeat split. Qed.

Section Projection.
Variable local_offset : Z.
Variable globalFunctions : string -> option global_fn.
Variable methodRegistries : string -> string -> option method_fn.
Variable anyMethods : string -> option method_fn.
Variable strict : bool.
Variable filesByPath : value.
Variable r : row.

Let ref (c : string) :=
  evaluatePropertyRef local_offset globalFunctions methodRegistries anyMethods c r strict
    filesByPath.

Let step (acc : outcome (list (string * value))) (column : string) :=
  out <- acc ;; v <- ref column ;; Ok (set_field out column v).

Lemma assoc_set_field_same (fields : list (string * value)) (k : string) (v : value) :
  assoc k (set_field fields k v) = Some v.
Proof.
  induction fields as [|[k' v'] fs IH]; simpl.
  - rewrite String.eqb_refl; reflexivity.
  - destruct (String.eqb k k') eqn:E; simpl.
    + rewrite String.eqb_refl; reflexivity.
    + rewrite E; exact IH.
Qed.

Lemma assoc_set_field_other (fields : list (string * value)) (k k2 : string) (v : value) :
  k2 <> k -> assoc k2 (set_field fields k v) = assoc k2 fields.
Proof.
  intros Hne; induction fields as [|[k' v'] fs IH]; simpl.
  - apply String.eqb_neq in Hne; rewrite Hne; reflexivity.
  - destruct (String.eqb k k') eqn:E; simpl.
    + apply String.eqb_eq in E; subst k'.
      apply String.eqb_neq in Hne; rewrite Hne; reflexivity.
    + destruct (String.eqb k2 k'); [reflexivity | exact IH].
Qed.

Lemma fold_step_not_ok (columns : list string) (m : outcome (list (string * value))) :
  (forall a, m <> Ok a) -> forall out, fold_left step columns m <> Ok out.
Proof.
  revert m; induction columns as [|c cs IH]; intros m Hm out; simpl.
  - apply Hm.
  - apply IH. intros a; destruct m; simpl; [exfalso; eapply Hm; reflexivity| |]; discriminate.
Qed.

Lemma fold_step_columns (columns : list string) (acc out : list (string * value)) :
  fold_left step columns (Ok acc) = Ok out ->
  forall c, In c columns -> exists v, ref c = Ok v /\ assoc c out = Some v.
Proof.
  revert acc; induction columns as [|c0 cs IH]; intros acc H c Hc; [destruct Hc|].
  cbn [fold_left] in H.
  change (step (Ok acc) c0) with (v <- ref c0 ;; Ok (set_field acc c0 v)) in H.
  destruct (ref c0) as [v0| e |] eqn:E0;
    [| exfalso; eapply fold_step_not_ok; [|exact H]; intros a; discriminate
     | exfalso; eapply fold_step_not_ok; [|exact H]; intros a; discriminate].
  simpl in H.
  destruct (in_dec String.string_dec c cs) as [Hin|Hnin].
  - exact (IH _ H c Hin).
  - destruct Hc as [<-|Hc]; [|contradiction].
    exists v0; split; [exact E0|].
    assert (Hkeep : forall cs' acc', ~ In c0 cs' -> fold_left step cs' (Ok acc') = Ok out ->
                                     assoc c0 out = assoc c0 acc').
    { induction cs' as [|c1 cs' IH']; intros acc' Hn Hf; simpl in Hf.
      - injection Hf as <-; reflexivity.
      - change (step (Ok acc') c1) with (v <- ref c1 ;; Ok (set_field acc' c1 v)) in Hf.
        destruct (ref c1) as [v1| e |];
          [| exfalso; eapply fold_step_not_ok; [|exact Hf]; intros a; discriminate
           | exfalso; eapply fold_step_not_ok; [|exact Hf]; intros a; discriminate].
        simpl in Hf. rewrite (IH' _ (fun h => Hn (or_intror h)) Hf).
        apply assoc_set_field_other. intros ->; apply Hn; left; reflexivity. }
    rewrite (Hkeep cs _ Hnin H). apply assoc_set_field_same.
Qed.
End Projection.

(** C1: during projection each column [c] of the row gets one value [v]: when
    [c] is not a plain dotted identifier (dot-separated segments, each a letter
    or [_] followed by letters, digits and [_]) and is an own front-matter key
    of the row, [v] is read directly from the front-matter; every other column
    name, including a dotted identifier present verbatim as a front-matter key,
    is parsed and evaluated as an expression against the row. *)
Theorem C1_projectRow_columns (local_offset : Z) (globalFunctions : string -> option global_fn)
  (methodRegistries : string -> string -> option method_fn)
  (anyMethods : string -> option method_fn) (strict : bool) (filesByPath : value)
  (r : row) (columns : list string) (out : list (string * value))
  (H : projectRow local_offset globalFunctions methodRegistries anyMethods r columns strict
         filesByPath = Ok out) :
  forall c, In c columns ->
  exists v, assoc c out = Some v
    /\ (DOTTED_IDENTIFIER_RE_test c = false -> assoc c (doc_frontmatter (row_doc r)) <> None ->
        assoc c (doc_frontmatter (row_doc r)) = Some v)
    /\ (DOTTED_IDENTIFIER_RE_test c = true \/ assoc c (doc_frontmatter (row_doc r)) = None ->
        evaluateExpression local_offset globalFunctions methodRegistries anyMethods strict c
          (withEvalContext r filesByPath) = Ok v).
Proof.
  intros c Hc.
  destruct (fold_step_columns local_offset globalFunctions methodRegistries anyMethods strict
              filesByPath r columns [] out H c Hc) as [v [Hv Hout]].
  exists v; split; [exact Hout|].
  unfold evaluatePropertyRef in Hv.
  destruct (DOTTED_IDENTIFIER_RE_test c), (assoc c (doc_frontmatter (row_doc r))) as [w|];
    simpl in Hv; split.
  - intros Hf; discriminate Hf.
  - intros _; exact Hv.
  - intros Hf; discriminate Hf.
  - intros _; exact Hv.
  - intros _ _; congruence.
  - intros [Hf|Hf]; discriminate Hf.
  - intros _ Hn; exfalso; apply Hn; reflexivity.
  - intros _; exact Hv.
Qed.

Lemma C1_projectRow_columns_witness :
  exists v, v = VNum 1
    /\ assoc "my key" [("my key", VNum 1); ("score", VNum 5)] = Some v.
Proof.
  set (r := mk_row (mk_document "x" "x.md" [("ext", VStr "md")]
                      [("my key", VNum 1); ("score", VNum 5)]) [] []).
  destruct (C1_projectRow_columns 0 (fun _ => None) (fun _ _ => None) (fun _ => None) true
              (VMap []) r ["my key"; "score"] [("my key", VNum 1); ("score", VNum 5)]
              ltac:(vm_compute; reflexivity) "my key" (or_introl eq_refl))
    as [v [Hv [Hdirect _]]].
  exists v; split; [|exact Hv].
  assert (Hfm : assoc "my key" (doc_frontmatter (row_doc r)) = Some v).
  { apply Hdirect; vm_compute; [reflexivity | discriminate]. }
  vm_compute in Hfm. injection Hfm as <-. reflexivity.
Defined.

(* ------------------------------------------------------------------------- *)
(** ** Identifier resolution *)

(** C2 (counterexample): in strict mode an identifier that is neither an own
    field of the context nor a field of its [note] does not raise when the
    context has a note: ["missing"] with the note [{}] gives [undefined]. *)
Lemma C2_counterexample :
  evaluateExpression 0 (fun _ => None) (fun _ _ => None) (fun _ => None) true
    "missing" [("note", VObj [])] = Ok VUndef.
Proof. vm_compute; reflexivity. Qed.

(** C2: an identifier that is not an own field of the context reads the
    context's [note] when the note is truthy ([undefined] when the note lacks
    it), in both modes; without a truthy note it raises
    ["unknown identifier: <name>"] in strict mode and gives [undefined] in
    non-strict mode. ["missing + 1"] in an empty context raises in strict mode,
    and ["missing"] gives [undefined] in non-strict mode. *)
Theorem C2_resolveIdentifier (local_offset : Z)
  (globalFunctions : string -> option global_fn)
  (methodRegistries : string -> string -> option method_fn)
  (anyMethods : string -> option method_fn) (name : string) (ctx : context)
  (Hname : assoc name ctx = None) :
  (forall strict note, assoc "note" ctx = Some note -> toBoolean note = true ->
     evaluateAst local_offset globalFunctions methodRegistries anyMethods strict
       (EIdentifier name) ctx = Ok (js_get note name))
  /\ ((forall note, assoc "note" ctx = Some note -> toBoolean note = false) ->
      evaluateAst local_offset globalFunctions methodRegistries anyMethods true
        (EIdentifier name) ctx = Throw (mk_error "Error" ("unknown identifier: " ++ name))
      /\ evaluateAst local_offset globalFunctions methodRegistries anyMethods false
           (EIdentifier name) ctx = Ok VUndef)
  /\ evaluateExpression local_offset globalFunctions methodRegistries anyMethods true
       "missing + 1" [] = Throw (mk_error "Error" "unknown identifier: missing")
  /\ evaluateExpression local_offset globalFunctions methodRegistries anyMethods false
       "missing" [] = Ok VUndef.
Proof.
  split; [|split; [|split; vm_compute; reflexivity]].
  - intros strict note Hnote Htruthy. cbn [evaluateAst]. unfold resolveIdentifier.
    rewrite Hname, Hnote, Htruthy. reflexivity.
  - intros Hfalsy. cbn [evaluateAst]. unfold resolveIdentifier. rewrite Hname.
    destruct (assoc "note" ctx) as [note|] eqn:En.
    + rewrite (Hfalsy note eq_refl). split; reflexivity.
    + split; reflexivity.
Qed.

Lemma C2_resolveIdentifier_witness :
  evaluateAst 0 (fun _ => None) (fun _ _ => None) (fun _ => None) true (EIdentifier "title")
    [("note", VObj [("title", VStr "T")])] = Ok (VStr "T")
  /\ evaluateAst 0 (fun _ => None) (fun _ _ => None) (fun _ => None) true (EIdentifier "missing")
       [("note", VNull)] = Throw (mk_error "Error" "unknown identifier: missing").
Proof.
  split.
  - exact (proj1 (C2_resolveIdentifier 0 (fun _ => None) (fun _ _ => None) (fun _ => None)
                    "title" [("note", VObj [("title", VStr "T")])] eq_refl)
                 true (VObj [("title", VStr "T")]) eq_refl eq_refl).
  - refine (proj1 (proj1 (proj2 (C2_resolveIdentifier 0 (fun _ => None) (fun _ _ => None)
                    (fun _ => None) "missing" [("note", VNull)] eq_refl)) _)).
    intros note Hn. injection Hn as <-. reflexivity.
Defined.

(* ------------------------------------------------------------------------- *)
(** ** Sorting by insertion *)

Section SortPermutation.
Context {A : Type} (cmp : A -> A -> Z).

Lemma insert_sorted_perm (x : A) (l : list A) : Permutation (insert_sorted cmp x l) (x :: l).
Proof.
  induction l as [|y l IH]; simpl; [reflexivity|].
  destruct (cmp x y <? 0); [reflexivity|].
  transitivity (y :: x :: l); [constructor; exact IH | apply perm_swap].
Qed.

Lemma sort_by_fold_perm (l acc : list A) :
  Permutation (fold_left (fun acc x => insert_sorted cmp x acc) l acc) (l ++ acc)%list.
Proof.
  revert acc; induction l as [|x l IH]; intros acc; simpl; [reflexivity|].
  rewrite IH. transitivity ((l ++ x :: acc)%list).
  - apply Permutation_app_head, insert_sorted_perm.
  - symmetry; apply Permutation_middle.
Qed.

Lemma sort_by_perm (l : list A) : Permutation (sort_by cmp l) l.
Proof. unfold sort_by; rewrite sort_by_fold_perm, app_nil_r; reflexivity. Qed.
End SortPermutation.

(* ------------------------------------------------------------------------- *)
(** ** Column inference *)

Lemma mem_name_In (k : string) (l : list string) : mem_name k l = true <-> In k l.
Proof.
  unfold mem_name; rewrite existsb_exists; split.
  - intros [x [Hx Heq]]; apply String.eqb_eq in Heq; subst; exact Hx.
  - intros Hk; exists k; split; [exact Hk | apply String.eqb_refl].
Qed.













(* ------------------------------------------------------------------------- *)
(** ** The depth-first search of [topoSort] *)

Section TopoDFS.
Variable deps : string -> list string.
(** Every node the search can reach lies in [U]. *)
Variable U : list string.
Hypothesis deps_in_U : forall n d, In d (deps n) -> In d U.

(** [d] is a dependency of [n]. *)
Definition dep_edge (n d : string) : Prop := In d (deps n).

(** The node on top of [temp] (the most recent one) is a dependency of the node
    below it. *)
Definition head_ok (node : string) (tmp : list string) : Prop :=
  match tmp with t0 :: _ => In node (deps t0) | [] => True end.

Fixpoint chain (tmp : list string) : Prop :=
  match tmp with [] => True | x :: tmp' => head_ok x tmp' /\ chain tmp' end.

(** Every node of the list comes after all its dependencies. *)
Inductive deps_first : list string -> Prop :=
| deps_first_nil : deps_first []
| deps_first_snoc (l : list string) (x : string) :
    deps_first l -> (forall d, In d (deps x) -> In d l) -> deps_first (l ++ [x]).

Record topo_inv (st : topo_state) : Prop := {
  inv_temp_nodup : NoDup (temp st);
  inv_temp_U : incl (temp st) U;
  inv_visited : forall x, In x (visited st) <-> In x (output st);
  inv_output_nodup : NoDup (output st);
  inv_output_sorted : deps_first (output st);
  inv_disjoint : forall x, In x (temp st) -> ~ In x (visited st);
  inv_chain : chain (temp st)
}.

Definition cycle_error (e : js_error) : Prop :=
  exists n, err_message e = "formula cycle detected at " ++ n /\ clos_trans string dep_edge n n.

(** What a call [visit(node)] started in state [st] achieves. *)
Definition visit_post (node : string) (st : topo_state) (r : outcome topo_state) : Prop :=
  match r with
  | Ok st' => topo_inv st' /\ temp st' = temp st /\ In node (output st')
              /\ exists ext, output st' = (output st ++ ext)%list
  | Throw e => cycle_error e
  | Outside => False
  end.

Lemma chain_reach (l : list string) (t0 : string) :
  chain (t0 :: l) -> forall x, In x (t0 :: l) -> x = t0 \/ clos_trans string dep_edge x t0.
Proof.
  revert t0; induction l as [|t1 l IH]; intros t0 Hc x Hx.
  - destruct Hx as [<-|[]]; left; reflexivity.
  - destruct Hc as [H01 Hc]. destruct Hx as [<-|Hx]; [left; reflexivity|right].
    destruct (IH t1 Hc x Hx) as [->|Hr].
    + apply t_step; exact H01.
    + eapply t_trans; [exact Hr|apply t_step; exact H01].
Qed.

Lemma visit_all_spec (v : string -> topo_state -> outcome topo_state) (tmp : list string)
  (ds : list string) :
  (forall d st, In d ds -> topo_inv st -> temp st = tmp -> visit_post d st (v d st)) ->
  forall st, topo_inv st -> temp st = tmp ->
  match visit_all v ds st with
  | Ok st' => topo_inv st' /\ temp st' = tmp /\ (forall d, In d ds -> In d (output st'))
              /\ exists ext, output st' = (output st ++ ext)%list
  | Throw e => cycle_error e
  | Outside => False
  end.
Proof.
  induction ds as [|d ds IH]; intros Hv st Hinv Htmp; simpl.
  - split; [exact Hinv|split; [exact Htmp|split; [intros _ []|exists []; rewrite app_nil_r; reflexivity]]].
  - pose proof (Hv d st (or_introl eq_refl) Hinv Htmp) as Hd. unfold visit_post in Hd.
    destruct (v d st) as [st1|e|]; simpl; [|exact Hd|exact Hd].
    destruct Hd as [Hinv1 [Htmp1 [Hin1 [ext1 Hext1]]]].
    assert (IH' := IH (fun d' st' Hd' => Hv d' st' (or_intror Hd')) st1 Hinv1
                      (eq_trans Htmp1 Htmp)).
    destruct (visit_all v ds st1) as [st2|e|]; [|exact IH'|exact IH'].
    destruct IH' as [Hinv2 [Htmp2 [Hall2 [ext2 Hext2]]]].
    split; [exact Hinv2|split; [exact Htmp2|split]].
    + intros d' [<-|Hd']; [|exact (Hall2 d' Hd')].
      rewrite Hext2; apply in_or_app; left; exact Hin1.
    + exists (ext1 ++ ext2)%list. rewrite Hext2, Hext1, app_assoc; reflexivity.
Qed.
Lemma visit_spec (f : nat) :
  forall node st, topo_inv st -> In node U -> head_ok node (temp st) ->
  (length (temp st) + f > length U)%nat ->
  visit_post node st (visit deps f node st).
Proof.
  induction f as [|f IH]; intros node st Hinv HU Hhead Hfuel.
  - exfalso. pose proof (NoDup_incl_length (inv_temp_nodup _ Hinv) (inv_temp_U _ Hinv)). lia.
  - simpl. destruct (mem_name node (visited st)) eqn:Ev.
    + apply mem_name_In in Ev. simpl.
      split; [exact Hinv|split; [reflexivity|split]].
      * apply (inv_visited _ Hinv); exact Ev.
      * exists []; rewrite app_nil_r; reflexivity.
    + destruct (mem_name node (temp st)) eqn:Et.
      * apply mem_name_In in Et. simpl. exists node; split; [reflexivity|].
        destruct (temp st) as [|t0 rest] eqn:Etmp; [destruct Et|].
        simpl in Hhead.
        pose proof (inv_chain _ Hinv) as Hc. rewrite Etmp in Hc.
        destruct (chain_reach rest t0 Hc node Et) as [->|Hr].
        -- apply t_step; exact Hhead.
        -- eapply t_trans; [exact Hr|apply t_step; exact Hhead].
      * assert (Hnv : ~ In node (visited st)) by (rewrite <- mem_name_In; congruence).
        assert (Hnt : ~ In node (temp st)) by (rewrite <- mem_name_In; congruence).
        set (st1 := mk_topo (node :: temp st) (visited st) (output st)).
        assert (Hinv1 : topo_inv st1).
        { destruct Hinv; constructor; simpl.
          - constructor; assumption.
          - intros x [<-|Hx]; [exact HU|auto].
          - assumption.
          - assumption.
          - assumption.
          - intros x [<-|Hx]; auto.
          - split; assumption. }
        pose proof (visit_all_spec (visit deps f) (node :: temp st) (deps node)) as Hall.
        assert (Hv : forall d st', In d (deps node) -> topo_inv st' ->
                       temp st' = node :: temp st -> visit_post d st' (visit deps f d st')).
        { intros d st' Hd Hinv' Htmp'. apply IH.
          - exact Hinv'.
          - exact (deps_in_U node d Hd).
          - rewrite Htmp'; exact Hd.
          - rewrite Htmp'; simpl; lia. }
        specialize (Hall Hv st1 Hinv1 eq_refl).
        destruct (visit_all (visit deps f) (deps node) st1) as [st2|e|]; simpl;
          [|exact Hall|exact Hall].
        destruct Hall as [Hinv2 [Htmp2 [Hdeps2 [ext Hext]]]].
        rewrite Htmp2. simpl. destruct (string_dec node node) as [_|Hne]; [|contradiction].
        rewrite (notin_remove string_dec (temp st) node Hnt).
        assert (Hno : ~ In node (output st2)).
        { intros Ho. apply (inv_visited _ Hinv2) in Ho.
          apply (inv_disjoint _ Hinv2 node); [rewrite Htmp2; left; reflexivity|exact Ho]. }
        split; [|split; [reflexivity|split]].
        -- destruct Hinv, Hinv2; constructor; simpl.
           ++ assumption.
           ++ assumption.
           ++ intros x. rewrite in_app_iff. simpl.
              specialize (inv_visited1 x). tauto.
           ++ apply Permutation_NoDup with (node :: output st2);
                [apply Permutation_cons_append|constructor; assumption].
           ++ constructor; assumption.
           ++ intros x Hx [<-|Hxv]; [contradiction|].
              apply (inv_disjoint1 x); [rewrite Htmp2; right; exact Hx|exact Hxv].
           ++ assumption.
        -- apply in_or_app; right; left; reflexivity.
        -- exists (ext ++ [node])%list. rewrite Hext. simpl. rewrite app_assoc. reflexivity.
Qed.
End TopoDFS.

Section DepsFirst.
Variable deps : string -> list string.

Lemma snoc_split (l1 l2 L : list string) (x y : string) :
  (l1 ++ x :: l2)%list = (L ++ [y])%list ->
  (l2 = [] /\ l1 = L /\ x = y) \/ exists l2', l2 = (l2' ++ [y])%list /\ L = (l1 ++ x :: l2')%list.
Proof.
  intros H. induction l2 as [|z l2' _] using rev_ind; [left|right].
  - apply app_inj_tail in H. destruct H as [H1 H2]. auto.
  - rewrite app_comm_cons, app_assoc in H. apply app_inj_tail in H.
    destruct H as [H1 H2]. subst z. exists l2'; split; [reflexivity|symmetry; exact H1].
Qed.

Lemma deps_first_before (out : list string) :
  deps_first deps out ->
  forall l1 x l2 d, out = (l1 ++ x :: l2)%list -> In d (deps x) -> In d l1.
Proof.
  induction 1 as [|L y HL IH Hy]; intros l1 x l2 d Hout Hd.
  - destruct l1; discriminate Hout.
  - symmetry in Hout. destruct (snoc_split l1 l2 L x y Hout) as [[-> [-> ->]] | [l2' [-> HL']]].
    + exact (Hy d Hd).
    + exact (IH l1 x l2' d HL' Hd).
Qed.

Lemma deps_first_deps (out : list string) :
  deps_first deps out -> forall a d, In a out -> In d (deps a) -> In d out.
Proof.
  induction 1 as [|L y HL IH Hy]; intros a d Ha Hd; [destruct Ha|].
  apply in_or_app; left. apply in_app_or in Ha. destruct Ha as [Ha|[<-|[]]].
  - exact (IH a d Ha Hd).
  - exact (Hy d Hd).
Qed.

Lemma deps_first_closed (out : list string) :
  deps_first deps out -> forall a b, In a out -> clos_trans string (dep_edge deps) a b -> In b out.
Proof.
  intros Hdf a b Ha Hr. induction Hr as [a b Hab|a c b _ IH1 _ IH2].
  - exact (deps_first_deps out Hdf a b Ha Hab).
  - exact (IH2 (IH1 Ha)).
Qed.

Lemma deps_first_acyclic (out : list string) :
  deps_first deps out -> forall a, In a out -> ~ clos_trans string (dep_edge deps) a a.
Proof.
  induction 1 as [|L y HL IH Hy]; intros a Ha Hr; [destruct Ha|].
  apply in_app_or in Ha.
  destruct (in_dec string_dec a L) as [HaL|HaL]; [exact (IH a HaL Hr)|].
  destruct Ha as [Ha|[<-|[]]]; [contradiction|].
  assert (Hgen : forall b, clos_trans_1n string (dep_edge deps) y b -> In b L).
  { intros b Hb. destruct Hb as [b Hd | b d Hd Hrest].
    - exact (Hy b Hd).
    - apply clos_trans_t1n_iff in Hrest.
      exact (deps_first_closed L HL b d (Hy b Hd) Hrest). }
  apply clos_trans_t1n_iff in Hr. exact (HaL (Hgen y Hr)).
Qed.
End DepsFirst.

Lemma clos_trans_ext (R R' : string -> string -> Prop) :
  (forall a b, R a b <-> R' a b) ->
  forall a b, clos_trans string R a b -> clos_trans string R' a b.
Proof.
  intros HR a b H. induction H as [a b H|a c b _ IH1 _ IH2].
  - apply t_step, HR, H.
  - eapply t_trans; eassumption.
Qed.

(* ------------------------------------------------------------------------- *)
(** ** The formula order *)

Lemma assoc_In {A} (k : string) (l : list (string * A)) (v : A) :
  assoc k l = Some v -> In k (map fst l).
Proof.
  induction l as [|[k' v'] l IH]; simpl; [discriminate|].
  destruct (String.eqb k k') eqn:E; intros H.
  - left; symmetry; apply String.eqb_eq; exact E.
  - right; exact (IH H).
Qed.

Lemma assoc_None {A} (k : string) (l : list (string * A)) :
  ~ In k (map fst l) -> assoc k l = None.
Proof.
  induction l as [|[k' v'] l IH]; simpl; [reflexivity|].
  intros Hn. destruct (String.eqb k k') eqn:E.
  - exfalso; apply Hn; left; symmetry; apply String.eqb_eq; exact E.
  - apply IH; tauto.
Qed.

Lemma assoc_map_key {B} (g : string -> B) (l : list string) (x : string) :
  In x l -> assoc x (map (fun k => (k, g k)) l) = Some (g x).
Proof.
  induction l as [|k l IH]; simpl; [intros []|].
  destruct (String.eqb x k) eqn:E.
  - apply String.eqb_eq in E; subst; reflexivity.
  - intros [->|H]; [rewrite String.eqb_refl in E; discriminate|exact (IH H)].
Qed.

Lemma own_keys_order_In {A} (fields : list (string * A)) (kv : string * A) :
  In kv (own_keys_order fields) <-> In kv fields.
Proof.
  unfold own_keys_order. rewrite in_app_iff.
  split.
  - intros [H|H].
    + apply (Permutation_in _ (sort_by_perm _ _)) in H. apply filter_In in H; tauto.
    + apply filter_In in H; tauto.
  - intros H. destruct (array_index (fst kv)) eqn:E.
    + left. apply (Permutation_in _ (Permutation_sym (sort_by_perm _ _))).
      apply filter_In; rewrite E; tauto.
    + right. apply filter_In; rewrite E; tauto.
Qed.

Lemma object_keys_In {A} (fields : list (string * A)) (k : string) :
  In k (object_keys fields) <-> In k (map fst fields).
Proof.
  unfold object_keys. rewrite !in_map_iff.
  split; intros [kv [Hk Hin]]; exists kv; split; try exact Hk; apply own_keys_order_In; exact Hin.
Qed.

Lemma sorted_formula_keys_In (formulas : formula_map) (k : string) :
  In k (sorted_formula_keys formulas) <-> In k (map fst formulas).
Proof.
  unfold sorted_formula_keys. rewrite <- object_keys_In.
  split; apply Permutation_in; [|symmetry]; apply sort_by_perm.
Qed.

(** The [dependencies] map gives each node its dependencies among the names
    [in formulas]; a node that is not a key has none. *)
Lemma dependencies_of_formula_deps (formulas : formula_map) (x : string) :
  dependencies_of (dependency_map formulas) x = formula_deps formulas x.
Proof.
  unfold dependencies_of, dependency_map.
  destruct (in_dec string_dec x (sorted_formula_keys formulas)) as [Hin|Hnin].
  - rewrite (assoc_map_key (formula_deps formulas) _ x Hin). reflexivity.
  - rewrite assoc_None.
    + unfold formula_deps. rewrite assoc_None; [reflexivity|].
      rewrite <- sorted_formula_keys_In; exact Hnin.
    + rewrite map_map. simpl. rewrite map_id. exact Hnin.
Qed.

Lemma formula_deps_in_U (formulas : formula_map) (n d : string) :
  In d (formula_deps formulas n) -> In d (map fst formulas ++ object_prototype_names)%list.
Proof.
  unfold formula_deps. intros H. apply filter_In in H. destruct H as [_ H].
  unfold in_plain_object in H. apply in_or_app.
  destruct (assoc d formulas) eqn:E.
  - left; exact (assoc_In d formulas _ E).
  - right. apply existsb_exists in H. destruct H as [x [Hx Heq]].
    apply String.eqb_eq in Heq; subst; exact Hx.
Qed.

(** A node with a dependency is a key of the formula map. *)
Lemma formula_deps_key (formulas : formula_map) (n d : string) :
  In d (formula_deps formulas n) -> In n (map fst formulas).
Proof.
  intros H. destruct (in_dec string_dec n (map fst formulas)) as [Hin|Hnin]; [exact Hin|].
  exfalso. unfold formula_deps in H. rewrite (assoc_None n formulas Hnin) in H.
  destruct H.
Qed.

Lemma topoSort_spec (formulas : formula_map) :
  let deps := dependencies_of (dependency_map formulas) in
  match topoSort formulas with
  | Ok out => NoDup out /\ deps_first deps out
              /\ (forall k, In k (map fst formulas) -> In k out)
  | Throw e => cycle_error deps e
  | Outside => False
  end.
Proof.
  intros deps.
  set (U := (map fst formulas ++ object_prototype_names)%list).
  assert (HU : forall n d, In d (deps n) -> In d U).
  { intros n d H. unfold deps in H. rewrite dependencies_of_formula_deps in H.
    exact (formula_deps_in_U formulas n d H). }
  assert (Hinv0 : topo_inv deps U (mk_topo [] [] [])).
  { constructor; simpl.
    - constructor.
    - intros x [].
    - tauto.
    - constructor.
    - constructor.
    - intros x [].
    - exact I. }
  assert (Hv : forall d st, In d (sorted_formula_keys formulas) -> topo_inv deps U st ->
                 temp st = [] -> visit_post deps U d st (visit deps (topo_fuel formulas) d st)).
  { intros d st Hd Hinv Htmp. apply (visit_spec deps U HU).
    - exact Hinv.
    - apply in_or_app; left. apply sorted_formula_keys_In; exact Hd.
    - rewrite Htmp; exact I.
    - rewrite Htmp. unfold topo_fuel. fold U. simpl. lia. }
  pose proof (visit_all_spec deps U (visit deps (topo_fuel formulas)) []
                (sorted_formula_keys formulas) Hv (mk_topo [] [] []) Hinv0 eq_refl) as Hall.
  unfold topoSort. fold deps.
  destruct (visit_all (visit deps (topo_fuel formulas)) (sorted_formula_keys formulas)
              (mk_topo [] [] [])) as [st|e|]; simpl; [|exact Hall|exact Hall].
  destruct Hall as [Hinv [_ [Hkeys _]]].
  split; [exact (inv_output_nodup _ _ _ Hinv)|split; [exact (inv_output_sorted _ _ _ Hinv)|]].
  intros k Hk. apply Hkeys, sorted_formula_keys_In, Hk.
Qed.

(** C4: [topoSort], run first by [compileQuery], never leaves the model. When
    it succeeds, every declared formula name occurs in its order exactly once,
    after every formula it references through [formula.<name>]. When it fails,
    the error reads [formula cycle detected at n] for a declared formula [n]
    that lies on a reference cycle, and it fails whenever the reference graph has a
    cycle. Its failure is the failure of [compileQuery]. Compiling
    [{a: "formula.b + 1", b: "formula.a + 1"}] fails with the cycle error at [a],
    and compiling [{a: "formula.b + 1", b: "1"}] gives the order [[b; a]]. *)
Theorem C4_topoSort (formulas : formula_map) :
  let edge := fun n d => In d (formula_deps formulas n) in
  (forall out, topoSort formulas = Ok out ->
     NoDup out
     /\ (forall k, In k (map fst formulas) -> In k out)
     /\ (forall l1 x l2 d, out = (l1 ++ x :: l2)%list -> In d (formula_deps formulas x) ->
           In d l1))
  /\ (forall e, topoSort formulas = Throw e ->
        exists n, In n (map fst formulas)
                  /\ err_message e = "formula cycle detected at " ++ n
                  /\ clos_trans string edge n n)
  /\ topoSort formulas <> Outside
  /\ ((exists n, clos_trans string edge n n) -> exists e, topoSort formulas = Throw e)
  /\ (forall spec strict e, spec_formulas spec = Some formulas ->
        topoSort formulas = Throw e -> compileQuery spec strict = Throw e)
  /\ (c <- compileQuery (mk_query_spec None (Some [("a", "formula.b + 1"); ("b", "formula.a + 1")])
                           None None []) None ;; Ok (cq_formulaOrder c))
     = Throw (mk_error "Error" "formula cycle detected at a")
  /\ (c <- compileQuery (mk_query_spec None (Some [("a", "formula.b + 1"); ("b", "1")])
                           None None []) None ;; Ok (cq_formulaOrder c))
     = Ok ["b"; "a"].
Proof.
  intros edge.
  pose proof (topoSort_spec formulas) as Hspec. cbv zeta in Hspec.
  set (deps := dependencies_of (dependency_map formulas)) in Hspec.
  assert (Hedge : forall a b, dep_edge deps a b <-> edge a b).
  { intros a b. unfold dep_edge, edge, deps. rewrite dependencies_of_formula_deps. tauto. }
  assert (Hedge' : forall a b, edge a b <-> dep_edge deps a b).
  { intros a b; symmetry; apply Hedge. }
  assert (Hkey : forall n, clos_trans string edge n n -> In n (map fst formulas)).
  { assert (Hsrc : forall a b, clos_trans string edge a b -> In a (map fst formulas)).
    { intros a b Hab. induction Hab as [a b Hd|a c b _ IH1 _ _].
      - exact (formula_deps_key formulas a b Hd).
      - exact IH1. }
    intros n Hn; exact (Hsrc n n Hn). }
  split; [|split; [|split; [|split; [|split]]]].
  - intros out Hout. rewrite Hout in Hspec. destruct Hspec as [Hnd [Hdf Hall]].
    split; [exact Hnd|split; [exact Hall|]].
    intros l1 x l2 d Hsplit Hd. apply (deps_first_before deps out Hdf l1 x l2 d Hsplit).
    unfold deps; rewrite dependencies_of_formula_deps; exact Hd.
  - intros e He. rewrite He in Hspec. destruct Hspec as [n [Hmsg Hcyc]].
    apply (clos_trans_ext _ _ Hedge) in Hcyc.
    exists n; split; [exact (Hkey n Hcyc)|split; [exact Hmsg|exact Hcyc]].
  - intros Hout. rewrite Hout in Hspec. exact Hspec.
  - intros [n Hn]. destruct (topoSort formulas) as [out|e|] eqn:E; [|exists e; reflexivity|destruct Hspec].
    exfalso. destruct Hspec as [_ [Hdf Hall]].
    apply (deps_first_acyclic deps out Hdf n (Hall n (Hkey n Hn))).
    exact (clos_trans_ext _ _ Hedge' n n Hn).
  - intros spec strict e Hf He. unfold compileQuery. rewrite Hf, He. reflexivity.
  - split; vm_compute; reflexivity.
Qed.

(* ------------------------------------------------------------------------- *)
(** ** Comparators that are total preorders *)

(** [c] behaves as a total preorder on the values satisfying [P]: swapping the
    arguments negates the result, and [c a b <= 0] is transitive. *)
Record cmp_ok {T : Type} (P : T -> Prop) (c : T -> T -> Z) : Prop := {
  cmp_antisym : forall a b, P a -> P b -> c b a = - c a b;
  cmp_trans : forall a b d, P a -> P b -> P d -> c a b <= 0 -> c b d <= 0 -> c a d <= 0
}.


Section Comparators.
Context {T : Type} (P : T -> Prop).



Lemma cmp_ok_weaken (Q : T -> Prop) (c : T -> T -> Z) :
  cmp_ok Q c -> (forall a, P a -> Q a) -> cmp_ok P c.
Proof.
  intros Hc HPQ. constructor.
  - intros a b Ha Hb. apply (cmp_antisym _ _ Hc); auto.
  - intros a b d Ha Hb Hd. apply (cmp_trans _ _ Hc); auto.
Qed.


Lemma cmp_ok_flip (c : T -> T -> Z) : cmp_ok P c -> cmp_ok P (fun a b => c b a).
Proof.
  intros Hc. constructor.
  - intros a b Ha Hb. apply (cmp_antisym _ _ Hc); auto.
  - intros a b d Ha Hb Hd H1 H2. apply (cmp_trans _ _ Hc d b a); auto.
Qed.

(** Insertion into a list sorted for [c] keeps it sorted. *)
Lemma insert_sorted_sorted (c : T -> T -> Z) (x : T) (l : list T) :
  cmp_ok P c -> P x -> Forall P l -> StronglySorted (fun a b => c a b <= 0) l ->
  StronglySorted (fun a b => c a b <= 0) (insert_sorted c x l).
Proof.
  intros Hc Hx. induction l as [|y l IH]; intros Hl Hs; simpl.
  - repeat constructor.
  - inversion Hl as [|? ? Hy Hl']; subst. inversion Hs as [|? ? Hs' Hyl]; subst.
    destruct (c x y <? 0) eqn:E.
    + apply Z.ltb_lt in E. constructor; [exact Hs|].
      constructor; [lia|].
      rewrite Forall_forall in Hyl, Hl' |- *. intros z Hz.
      apply (cmp_trans _ _ Hc x y z); auto; lia.
    + apply Z.ltb_ge in E. constructor; [apply IH; assumption|].
      assert (Hyx : c y x <= 0) by (rewrite (cmp_antisym _ _ Hc x y); auto; lia).
      rewrite Forall_forall in Hyl |- *. intros z Hz.
      apply (Permutation_in _ (insert_sorted_perm c x l)) in Hz.
      destruct Hz as [<-|Hz]; auto.
Qed.

Lemma sort_by_sorted (c : T -> T -> Z) (l : list T) :
  cmp_ok P c -> Forall P l -> StronglySorted (fun a b => c a b <= 0) (sort_by c l).
Proof.
  intros Hc Hl. unfold sort_by.
  assert (Hgen : forall acc, Forall P acc -> StronglySorted (fun a b => c a b <= 0) acc ->
            StronglySorted (fun a b => c a b <= 0)
              (fold_left (fun acc x => insert_sorted c x acc) l acc)).
  { induction l as [|x l IH]; intros acc Hacc Hs; simpl; [exact Hs|].
    inversion Hl as [|? ? Hx Hl']; subst.
    apply IH; [exact Hl'| |].
    - apply Permutation_Forall with (x :: acc); [symmetry; apply insert_sorted_perm|].
      constructor; assumption.
    - apply insert_sorted_sorted; assumption. }
  apply Hgen; constructor.
Qed.
Lemma filter_none {U} (f : U -> bool) (l : list U) :
  (forall w, In w l -> f w = false) -> filter f l = [].
Proof.
  induction l as [|y l IH]; intros H; simpl; [reflexivity|].
  rewrite (H y (or_introl eq_refl)). apply IH. intros w Hw. apply H. right. exact Hw.
Qed.

(** Inserting [x] into a sorted list puts it after the elements tied with it:
    the elements tied with any [z] keep their order, [x] last among them. *)
Lemma insert_sorted_filter (c : T -> T -> Z) (x z : T) (l : list T) :
  cmp_ok P c -> P x -> P z -> Forall P l -> StronglySorted (fun a b => c a b <= 0) l ->
  filter (fun y => c z y =? 0) (insert_sorted c x l)
  = (filter (fun y => c z y =? 0) l ++ filter (fun y => c z y =? 0) [x])%list.
Proof.
  intros Hc Hx Hz. induction l as [|y l IH]; intros Hl Hs; [reflexivity|].
  inversion Hl as [|? ? Hy Hl']; subst. inversion Hs as [|? ? Hs' Hyl]; subst.
  cbn [insert_sorted]. destruct (c x y <? 0) eqn:E.
  - apply Z.ltb_lt in E.
    destruct (c z x =? 0) eqn:Ezx.
    + pose proof Ezx as Ezx'. apply Z.eqb_eq in Ezx'.
      assert (Hnone : forall w, In w (y :: l) -> (c z w =? 0) = false).
      { intros w Hw. apply Z.eqb_neq. intros Hzw.
        assert (Hw' : P w /\ c y w <= 0).
        { destruct Hw as [<-|Hw].
          - split; [exact Hy|]. pose proof (cmp_antisym _ _ Hc y y Hy Hy). lia.
          - rewrite Forall_forall in Hl', Hyl. split; [apply Hl' | apply Hyl]; exact Hw. }
        destruct Hw' as [Pw Hyw].
        pose proof Ezx' as Ezx0.
        pose proof (cmp_antisym _ _ Hc z x Hz Hx).
        pose proof (cmp_antisym _ _ Hc z w Hz Pw).
        pose proof (cmp_antisym _ _ Hc x y Hx Hy).
        assert (c w x <= 0) by (apply (cmp_trans _ _ Hc w z x); auto; lia).
        assert (c y x <= 0) by (apply (cmp_trans _ _ Hc y w x); auto).
        lia. }
      change (filter (fun y0 => c z y0 =? 0) (x :: y :: l))
        with (if c z x =? 0 then x :: filter (fun y0 => c z y0 =? 0) (y :: l)
              else filter (fun y0 => c z y0 =? 0) (y :: l)).
      rewrite (filter_none _ (y :: l) Hnone). cbn [filter app]. rewrite Ezx. reflexivity.
    + change (filter (fun y0 => c z y0 =? 0) (x :: y :: l))
        with (if c z x =? 0 then x :: filter (fun y0 => c z y0 =? 0) (y :: l)
              else filter (fun y0 => c z y0 =? 0) (y :: l)).
      cbn [filter]. rewrite Ezx, app_nil_r. reflexivity.
  - change (filter (fun y0 => c z y0 =? 0) (y :: insert_sorted c x l))
      with (if c z y =? 0 then y :: filter (fun y0 => c z y0 =? 0) (insert_sorted c x l)
            else filter (fun y0 => c z y0 =? 0) (insert_sorted c x l)).
    rewrite IH by assumption. cbn [filter].
    destruct (c z y =? 0); reflexivity.
Qed.

(** [sort_by] is stable: the elements tied with any [z] keep their order. *)
Lemma sort_by_filter (c : T -> T -> Z) (z : T) (l : list T) :
  cmp_ok P c -> P z -> Forall P l ->
  filter (fun y => c z y =? 0) (sort_by c l) = filter (fun y => c z y =? 0) l.
Proof.
  intros Hc Hz Hl. unfold sort_by.
  assert (Hgen : forall acc, Forall P acc -> StronglySorted (fun a b => c a b <= 0) acc ->
            filter (fun y => c z y =? 0) (fold_left (fun acc x => insert_sorted c x acc) l acc)
            = (filter (fun y => c z y =? 0) acc ++ filter (fun y => c z y =? 0) l)%list).
  { induction l as [|x l IH]; intros acc Hacc Hs; simpl fold_left.
    - rewrite app_nil_r; reflexivity.
    - inversion Hl as [|? ? Hx Hl']; subst.
      rewrite IH; [| exact Hl' | |].
      + rewrite insert_sorted_filter by assumption. rewrite <- app_assoc.
        cbn [filter app]. destruct (c z x =? 0); reflexivity.
      + apply Permutation_Forall with (x :: acc); [symmetry; apply insert_sorted_perm|].
        constructor; assumption.
      + apply insert_sorted_sorted; assumption. }
  rewrite Hgen; [reflexivity | constructor | constructor].
Qed.
End Comparators.







(* ------------------------------------------------------------------------- *)
(** ** Sorting and limiting rows *)

Lemma map_outcome_Forall2 {A B} (f : A -> outcome B) (l : list A) (l' : list B) :
  map_outcome f l = Ok l' -> Forall2 (fun x y => f x = Ok y) l l'.
Proof.
  revert l'; induction l as [|x l IH]; intros l' H; simpl in H.
  - injection H as <-; constructor.
  - destruct (f x) as [y| |] eqn:Ex; try discriminate.
    destruct (map_outcome f l) as [ys| |] eqn:Es; try discriminate.
    injection H as <-. constructor; [exact Ex | apply IH; reflexivity].
Qed.

Lemma Forall2_combine {A B} (R : A -> B -> Prop) (l : list A) (l' : list B) :
  Forall2 R l l' -> Forall (fun p => R (fst p) (snd p)) (combine l l').
Proof. induction 1; simpl; constructor; auto. Qed.

Lemma map_fst_combine {A B} (l : list A) (l' : list B) :
  length l = length l' -> map fst (combine l l') = l.
Proof.
  revert l'; induction l as [|x l IH]; intros [|y l'] H; simpl in *; try discriminate; auto.
  f_equal; apply IH; lia.
Qed.

Lemma StronglySorted_map_impl {A B} (R : A -> A -> Prop) (R' : B -> B -> Prop)
  (Q : A -> Prop) (f : A -> B) (l : list A) :
  (forall x y, Q x -> Q y -> R x y -> R' (f x) (f y)) ->
  Forall Q l -> StronglySorted R l -> StronglySorted R' (map f l).
Proof.
  intros Himp Hq Hs; induction Hs as [|x l Hs IH Hx]; simpl; constructor.
  - inversion Hq; auto.
  - inversion Hq as [|? ? Qx Ql]; subst.
    rewrite Forall_forall in Hx, Ql |- *. intros y Hy.
    apply in_map_iff in Hy as [z [<- Hz]]. auto.
Qed.

Lemma StronglySorted_impl_Forall {A} (R R' : A -> A -> Prop) (Q : A -> Prop) (l : list A) :
  (forall x y, Q x -> Q y -> R x y -> R' x y) ->
  Forall Q l -> StronglySorted R l -> StronglySorted R' l.
Proof.
  intros Himp Hq Hs. rewrite <- (map_id l).
  apply (StronglySorted_map_impl R R' Q (fun x => x)); assumption.
Qed.

(** A comparator [consistent_on] a list is consistent on its elements, and
    conversely. *)
Lemma consistent_on_ok {T} (c : T -> T -> Z) (l : list T) :
  consistent_on c l = true -> cmp_ok (fun x => In x l) c.
Proof.
  unfold consistent_on. rewrite forallb_forall. intros H. constructor.
  - intros a b Ha Hb. specialize (H a Ha). rewrite forallb_forall in H.
    specialize (H b Hb). apply andb_true_iff in H as [H _]. apply Z.eqb_eq, H.
  - intros a b d Ha Hb Hd Hab Hbd. specialize (H a Ha). rewrite forallb_forall in H.
    specialize (H b Hb). apply andb_true_iff in H as [_ H]. rewrite forallb_forall in H.
    specialize (H d Hd). apply orb_true_iff in H as [H|H].
    + apply negb_true_iff, andb_false_iff in H.
      destruct H as [H|H]; apply Z.leb_gt in H; lia.
    + apply Z.leb_le, H.
Qed.


Lemma In_list_prod_forallb {T} (f : T * T -> bool) (l : list T) (a b : T) :
  forallb f (list_prod l l) = true -> In a l -> In b l -> f (a, b) = true.
Proof.
  intros H Ha Hb. rewrite forallb_forall in H. apply H, in_prod; assumption.
Qed.

(** [compare] returns a result on every ordered pair of the elements. *)
Definition total_on {T R} (compare : T -> T -> outcome R) (l : list T) : Prop :=
  forall a b, In a l -> In b l -> exists z, compare a b = Ok z.

(** The comparator [stableSort] sorts with, once every comparison returns. *)
Definition row_cmp off G M A (order : list sort_spec) strict fbp (a b : row) : Z :=
  match compare_rows off G M A order strict fbp a b with Ok z => z | _ => 0 end.

(** The order [stableSort] puts rows in: the engine's comparator does not
    place the first row after the second. *)
Definition row_le off G M A (order : list sort_spec) strict fbp (a b : row) : Prop :=
  exists z, compare_rows off G M A order strict fbp a b = Ok z /\ z <= 0.

(** The engine's comparator ties two rows. *)
Definition row_tie off G M A (order : list sort_spec) strict fbp (a b : row) : bool :=
  match compare_rows off G M A order strict fbp a b with Ok z => z =? 0 | _ => false end.

(** A result of [stableSort] on two rows or more is the stable sort by a
    comparator that returns on every pair and is consistent. *)
Lemma stableSort_cases off G M A rows view strict fbp out :
  let order := match view_sort view with Some o => o | None => [] end in
  stableSort off G M A rows view strict fbp = Ok out ->
  (out = rows /\ (length rows <= 1)%nat)
  \/ (total_on (compare_rows off G M A order strict fbp) rows
      /\ cmp_ok (fun x => In x rows) (row_cmp off G M A order strict fbp)
      /\ out = sort_by (row_cmp off G M A order strict fbp) rows).
Proof.
  intros order H. unfold stableSort in H; fold order in H.
  destruct rows as [|r0 [|r1 rows']] eqn:Er.
  - left. injection H as <-. split; [reflexivity | simpl; lia].
  - left. injection H as <-. split; [reflexivity | simpl; lia].
  - rewrite <- Er in H |- *. right.
    destruct (forallb _ (list_prod rows rows)) eqn:Eall.
    + destruct (consistent_on _ rows) eqn:Ec; [|discriminate].
      injection H as <-. split; [|split].
      * intros a b Ha Hb.
        pose proof (In_list_prod_forallb _ rows a b Eall Ha Hb) as Hab. simpl in Hab.
        destruct (compare_rows off G M A order strict fbp a b) as [z| |];
          [exists z; reflexivity | discriminate | discriminate].
      * apply consistent_on_ok. exact Ec.
      * reflexivity.
    + destruct (first_throw _) as [e|]; [|discriminate].
      destruct (_ && _); discriminate.
Qed.


Lemma stableSort_spec off G M A rows view strict fbp out :
  let order := match view_sort view with Some o => o | None => [] end in
  stableSort off G M A rows view strict fbp = Ok out ->
  Permutation out rows /\ StronglySorted (row_le off G M A order strict fbp) out
  /\ (forall x, In x rows ->
        filter (row_tie off G M A order strict fbp x) out
        = filter (row_tie off G M A order strict fbp x) rows).
Proof.
  intros order H.
  destruct (stableSort_cases off G M A rows view strict fbp out H) as [[-> Hl]|[Htot [Hc ->]]].
  - split; [reflexivity|]. split; [|reflexivity].
    destruct rows as [|r0 [|r1 rows']]; simpl in Hl; try lia; repeat constructor.
  - fold order in Htot, Hc |- *.
    set (c := row_cmp off G M A order strict fbp) in Hc |- *.
    assert (Hrows : Forall (fun x => In x rows) rows) by (apply Forall_forall; auto).
    assert (Hin : forall y, In y (sort_by c rows) -> In y rows).
    { intros y Hy. apply (Permutation_in _ (sort_by_perm c rows)), Hy. }
    split; [apply sort_by_perm|]. split.
    + apply (StronglySorted_impl_Forall (fun a b => c a b <= 0) _ (fun x => In x rows)).
      * intros a b Ha Hb Hab. destruct (Htot a b Ha Hb) as [z Hz].
        exists z. split; [exact Hz|]. unfold c, row_cmp in Hab. rewrite Hz in Hab. exact Hab.
      * apply Forall_forall. exact Hin.
      * apply (sort_by_sorted (fun x => In x rows)); assumption.
    + intros x Hx.
      assert (Htie : forall y, In y rows -> row_tie off G M A order strict fbp x y = (c x y =? 0)).
      { intros y Hy. destruct (Htot x y Hx Hy) as [z Hz].
        unfold row_tie, c, row_cmp. rewrite Hz. reflexivity. }
      rewrite (filter_ext_in _ (fun y => c x y =? 0) (sort_by c rows)) by (intros y Hy; apply Htie, Hin, Hy).
      rewrite (filter_ext_in _ (fun y => c x y =? 0) rows) by exact Htie.
      apply (sort_by_filter (fun y => In y rows)); assumption.
Qed.

Lemma bind_Ok_inv {A B} (m : outcome A) (k : A -> outcome B) (b : B) :
  bind m k = Ok b -> exists a, m = Ok a /\ k a = Ok b.
Proof. destruct m; simpl; try discriminate. eauto. Qed.



(** Example data: four notes with a score and a name. *)
Definition score_doc (n p : string) (sc : Z) (nm : string) : document :=
  mk_document n p [("ext", VStr "md")] [("score", VNum sc); ("name", VStr nm)].

Definition score_docs : list document :=
  [score_doc "d" "d.md" 3 "D"; score_doc "b" "b.md" 7 "B";
   score_doc "c" "c.md" 7 "C"; score_doc "a" "a.md" 1 "A"].

Definition score_view : view_spec :=
  mk_view "table" None (Some [mk_sort_spec "score" "desc"; mk_sort_spec "name" "asc"])
          None None (Some 2%nat) None.







(* ------------------------------------------------------------------------- *)
(** ** Primary expressions *)

(** The expression contains no list-literal and no object-literal node. *)
Fixpoint no_collection_literal (e : expr) : bool :=
  match e with
  | EArray _ | EObject _ => false
  | ELiteral _ _ | EIdentifier _ => true
  | EUnary _ a => no_collection_literal a
  | EBinary _ l r => no_collection_literal l && no_collection_literal r
  | EMember o _ => no_collection_literal o
  | EIndex o i => no_collection_literal o && no_collection_literal i
  | ECall c args => no_collection_literal c && forallb no_collection_literal args
  end.

Ltac inv_bind H x Hx := apply bind_Ok_inv in H; destruct H as [x [Hx H]].

Lemma parser_no_collection_literal (fuel : nat) :
  (forall m s e s', parseExpression fuel m s = Ok (e, s') -> no_collection_literal e = true) /\
  (forall m l s e s', no_collection_literal l = true ->
     binaryLoop fuel m l s = Ok (e, s') -> no_collection_literal e = true) /\
  (forall s e s', parseUnary fuel s = Ok (e, s') -> no_collection_literal e = true) /\
  (forall e0 s e s', no_collection_literal e0 = true ->
     postfixLoop fuel e0 s = Ok (e, s') -> no_collection_literal e = true) /\
  (forall acc s es s', forallb no_collection_literal acc = true ->
     parseArgs fuel acc s = Ok (es, s') -> forallb no_collection_literal es = true) /\
  (forall s e s', parsePrimary fuel s = Ok (e, s') -> no_collection_literal e = true).
Proof.
  induction fuel as [|f IH].
  { repeat split; intros; simpl in *; discriminate. }
  destruct IH as (IH1 & IH2 & IH3 & IH4 & IH5 & IH6).
  repeat split.
  - intros m s e s' H. simpl in H.
    inv_bind H r Hr. destruct r as [l1 s1].
    exact (IH2 _ _ _ _ _ (IH3 _ _ _ Hr) H).
  - intros m l s e s' Hl H. simpl in H.
    destruct (isCurrentOperator s);
      [destruct (binaryPrecedence (tvalue (current s))) as [p|];
       [destruct (p <=? m)|]|];
      try (injection H as <- _; exact Hl).
    inv_bind H r1 Hr1. destruct r1 as [optok s2].
    inv_bind H r2 Hr2. destruct r2 as [right s3].
    refine (IH2 _ _ _ _ _ _ H). simpl. rewrite Hl, (IH1 _ _ _ _ Hr2). reflexivity.
  - intros s e s' H. simpl in H.
    match type of H with (if ?c then _ else _) = _ => destruct c end.
    + inv_bind H r1 Hr1. destruct r1 as [optok s1].
      inv_bind H r2 Hr2. destruct r2 as [arg s2].
      injection H as <- _. exact (IH3 _ _ _ Hr2).
    + inv_bind H r Hr. destruct r as [e1 s1].
      exact (IH4 _ _ _ _ (IH6 _ _ _ Hr) H).
  - intros e0 s e s' He0 H. simpl in H.
    destruct (isCurrentPunct s ".").
    { inv_bind H r1 Hr1. inv_bind H r2 Hr2. destruct r2 as [pt s2].
      exact (IH4 (EMember e0 (tvalue pt)) _ _ _ He0 H). }
    destruct (isCurrentPunct s "[").
    { inv_bind H r1 Hr1. inv_bind H r2 Hr2. destruct r2 as [ix s2].
      inv_bind H r3 Hr3.
      refine (IH4 _ _ _ _ _ H). simpl. rewrite He0, (IH1 _ _ _ _ Hr2). reflexivity. }
    destruct (isCurrentPunct s "(").
    { inv_bind H r1 Hr1. inv_bind H r2 Hr2. destruct r2 as [args s2].
      inv_bind H r3 Hr3.
      refine (IH4 _ _ _ _ _ H). simpl. rewrite He0. simpl.
      destruct (isCurrentPunct (snd r1) ")").
      - injection Hr2 as <- _. reflexivity.
      - exact (IH5 [] _ _ _ eq_refl Hr2). }
    injection H as <- _. exact He0.
  - intros acc s es s' Hacc H. simpl in H.
    inv_bind H r Hr. destruct r as [a s1].
    assert (Ha : forallb no_collection_literal (acc ++ [a])%list = true).
    { rewrite forallb_app, Hacc; simpl. rewrite (IH1 _ _ _ _ Hr). reflexivity. }
    destruct (isCurrentPunct s1 ",").
    + inv_bind H r1 Hr1. exact (IH5 _ _ _ _ Ha H).
    + injection H as <- _. exact Ha.
  - intros s e s' H. simpl in H.
    destruct (ttype (current s)).
    { inv_bind H r Hr. inv_bind H v Hv. injection H as <- _. reflexivity. }
    { inv_bind H r Hr. injection H as <- _. reflexivity. }
    { inv_bind H r Hr.
      destruct (String.eqb (tvalue (fst r)) "true"); [injection H as <- _; reflexivity|].
      destruct (String.eqb (tvalue (fst r)) "false"); [injection H as <- _; reflexivity|].
      destruct (String.eqb (tvalue (fst r)) "null"); injection H as <- _; reflexivity. }
    { inv_bind H r Hr. inv_bind H v Hv. injection H as <- _. reflexivity. }
    all: destruct (isCurrentPunct s "("); [|discriminate H].
    all: inv_bind H r1 Hr1; inv_bind H r2 Hr2; destruct r2 as [e2 s2];
         inv_bind H r3 Hr3; injection H as <- _; exact (IH1 _ _ _ _ Hr2).
Qed.

Lemma parse_no_collection_literal (input : string) (e : expr) :
  parse input = Ok e -> no_collection_literal e = true.
Proof.
  unfold parse. destruct (tokenize _ _ _ _) as [ts tl].
  destruct ts as [|t r]; [destruct tl; discriminate|].
  intros H. inv_bind H res Hres. destruct res as [e1 s].
  destruct (token_type_eqb (ttype (current s)) TEof); [|discriminate H].
  injection H as <-.
  exact (proj1 (parser_no_collection_literal _) _ _ _ _ Hres).
Qed.

(** C7: [parsePrimary] accepts numbers, strings, regular expressions,
    identifiers and parenthesised expressions only: no parse produces a
    list-literal or object-literal node, [[1, 2, title]] is rejected at its
    opening bracket and [{a: 1, 'b': 2}] at its opening brace. *)
Theorem C7_no_collection_literals :
  (forall input e, parse input = Ok e -> no_collection_literal e = true) /\
  parse "[1, 2, title]" = Throw (syntax_error_of ("unexpected token " ++ json_quote "[") 0) /\
  parse "{a: 1, 'b': 2}" = Throw (syntax_error_of ("unexpected character " ++ json_quote "{") 0).
Proof.
  split; [exact parse_no_collection_literal|].
  split; vm_compute; reflexivity.
Qed.

(* ------------------------------------------------------------------------- *)
(** ** Row-level errors *)

(** What one document contributes to the collected rows and to the errors. *)
Definition doc_rows off G M A compiled view fbp (d : document) : list row :=
  match process_document off G M A compiled view fbp d with Ok (Some r) => [r] | _ => [] end.

Definition doc_errors off G M A compiled view fbp (d : document) : list string :=
  match process_document off G M A compiled view fbp d with
  | Throw e => [row_error d e]
  | _ => []
  end.

Definition in_model off G M A compiled view fbp (d : document) : bool :=
  match process_document off G M A compiled view fbp d with Outside => false | _ => true end.


(** Example data: a formula reading [note.missing.x], on a note without
    [missing] and on a note with it. *)
Definition iso_spec : query_spec :=
  mk_query_spec None (Some [("f", "note.missing.x")]) None None
                [mk_view "table" None None None None None None].

Definition iso_compiled : compiled_query :=
  mk_compiled iso_spec true None [("table", None)]
              [("f", EMember (EMember (EIdentifier "note") "missing") "x")] ["f"] [].

Definition iso_docs : list document :=
  [mk_document "x" "x.md" [("ext", VStr "md")] [];
   mk_document "y" "y.md" [("ext", VStr "md")] [("missing", VObj [("x", VNum 2)])]].

Lemma collectRows_flat off G M A compiled view fbp docs rows0 errors0 :
  forallb (in_model off G M A compiled view fbp) docs = true ->
  collectRows off G M A compiled view fbp docs rows0 errors0 =
  Ok ((rows0 ++ flat_map (doc_rows off G M A compiled view fbp) docs)%list,
      (errors0 ++ flat_map (doc_errors off G M A compiled view fbp) docs)%list).
Proof.
  intros Hin.
  revert rows0 errors0.
  induction docs as [|d docs IH]; intros rows0 errors0; simpl in *.
  - rewrite !app_nil_r. reflexivity.
  - apply andb_true_iff in Hin as [Hd Hin].
    unfold in_model, doc_rows, doc_errors in *.
    destruct (process_document off G M A compiled view fbp d) as [[r|]|e|]; try discriminate;
      rewrite (IH Hin); simpl; rewrite <- ?app_assoc; reflexivity.
Qed.
(** X1: the loop over the documents treats each document on its own: the
    collected rows are the rows its documents keep, and the errors are, after
    the initial ones, one ["row <path>: <message>"] for each document whose
    evaluation throws, in document order; a throwing document keeps no row. *)
Theorem X1_collectRows_isolation off G M A compiled view fbp docs rows0 errors0
  (Hin : forallb (in_model off G M A compiled view fbp) docs = true) :
  collectRows off G M A compiled view fbp docs rows0 errors0 =
  Ok ((rows0 ++ flat_map (doc_rows off G M A compiled view fbp) docs)%list,
      (errors0 ++ flat_map (doc_errors off G M A compiled view fbp) docs)%list).
Proof. apply collectRows_flat; exact Hin. Qed.


Lemma X1_collectRows_isolation_witness :
  forallb (in_model 0 (fun _ => None) (fun _ _ => None) (fun _ => None) iso_compiled
             (mk_view "table" None None None None None None) (filesByPath_of iso_docs)) iso_docs
    = true /\
  collectRows 0 (fun _ => None) (fun _ _ => None) (fun _ => None) iso_compiled
    (mk_view "table" None None None None None None) (filesByPath_of iso_docs) iso_docs [] [] =
  Ok (flat_map (doc_rows 0 (fun _ => None) (fun _ _ => None) (fun _ => None) iso_compiled
                  (mk_view "table" None None None None None None) (filesByPath_of iso_docs))
               iso_docs,
      flat_map (doc_errors 0 (fun _ => None) (fun _ _ => None) (fun _ => None) iso_compiled
                  (mk_view "table" None None None None None None) (filesByPath_of iso_docs))
               iso_docs).
Proof.
  split; [vm_compute; reflexivity|].
  apply (X1_collectRows_isolation 0 (fun _ => None) (fun _ _ => None) (fun _ => None)
           iso_compiled (mk_view "table" None None None None None None)
           (filesByPath_of iso_docs) iso_docs [] []).
  vm_compute; reflexivity.
Defined.








(* ------------------------------------------------------------------------- *)
(** ** Builtin summaries *)

Lemma js_lower_char_ws (c : ascii) : isWhitespace (js_lower_char c) = isWhitespace c.
Proof. destruct c as [[] [] [] [] [] [] [] []]; reflexivity. Qed.

Lemma js_lower_char_idem (c : ascii) : js_lower_char (js_lower_char c) = js_lower_char c.
Proof. destruct c as [[] [] [] [] [] [] [] []]; reflexivity. Qed.

Lemma drop_ws_map_lower (l : chars) :
  drop_ws (map js_lower_char l) = map js_lower_char (drop_ws l).
Proof.
  induction l as [|c l IH]; simpl; [reflexivity|].
  rewrite js_lower_char_ws. destruct (isWhitespace c); [exact IH | reflexivity].
Qed.

Lemma js_trim_map_lower (l : chars) :
  js_trim (map js_lower_char l) = map js_lower_char (js_trim l).
Proof.
  unfold js_trim. rewrite drop_ws_map_lower, <- map_rev, drop_ws_map_lower, map_rev.
  reflexivity.
Qed.

Lemma drop_ws_length (l : chars) : (length (drop_ws l) <= length l)%nat.
Proof.
  induction l as [|c l IH]; simpl; [lia|]. destruct (isWhitespace c); simpl; lia.
Qed.

Lemma drop_ws_idem (l : chars) : drop_ws (drop_ws l) = drop_ws l.
Proof.
  induction l as [|c l IH]; simpl; [reflexivity|].
  destruct (isWhitespace c) eqn:E; [exact IH | simpl; rewrite E; reflexivity].
Qed.

Lemma drop_ws_app_last (x : chars) (c : ascii) :
  isWhitespace c = false -> exists y, drop_ws (x ++ [c])%list = (y ++ [c])%list.
Proof.
  intros Hc. induction x as [|a x IH]; simpl.
  - exists []. rewrite Hc. reflexivity.
  - destruct (isWhitespace a); [exact IH | exists (a :: x); reflexivity].
Qed.

Lemma drop_ws_rev_trimmed (l : chars) :
  drop_ws l = l -> drop_ws (rev (drop_ws (rev l))) = rev (drop_ws (rev l)).
Proof.
  destruct l as [|c t]; [reflexivity|]. simpl. destruct (isWhitespace c) eqn:E.
  - intros H. exfalso. pose proof (drop_ws_length t) as Hl. rewrite H in Hl. simpl in Hl. lia.
  - intros _. destruct (drop_ws_app_last (rev t) c E) as [y Hy].
    rewrite Hy, rev_app_distr. simpl. rewrite E. reflexivity.
Qed.

Lemma js_trim_idem (l : chars) : js_trim (js_trim l) = js_trim l.
Proof.
  unfold js_trim.
  rewrite (drop_ws_rev_trimmed (drop_ws l) (drop_ws_idem l)).
  rewrite rev_involutive, drop_ws_idem. reflexivity.
Qed.

Lemma toSummaryName_idem (name : string) : toSummaryName (toSummaryName name) = toSummaryName name.
Proof.
  unfold toSummaryName, toLowerCase, chs, str.
  rewrite !list_ascii_of_string_of_list_ascii.
  rewrite js_trim_map_lower, js_trim_idem, map_map.
  f_equal. apply map_ext. apply js_lower_char_idem.
Qed.

(** X2: summary names are matched after [trim()] and [toLowerCase()]:
    normalising a name again changes nothing, and a builtin summary gives the
    same result under its normalised name (so [" SUM "] behaves as [sum]). *)
Theorem X2_summary_name_normalised (name : string) (values : list value) :
  toSummaryName (toSummaryName name) = toSummaryName name /\
  evalBuiltinSummary (toSummaryName name) values = evalBuiltinSummary name values.
Proof.
  split; [apply toSummaryName_idem|].
  unfold evalBuiltinSummary. rewrite toSummaryName_idem. reflexivity.
Qed.

Lemma filter_negb_length {A} (p : A -> bool) (l : list A) :
  (length (filter p l) + length (filter (fun x => negb (p x)) l) = length l)%nat.
Proof.
  induction l as [|x l IH]; simpl; [reflexivity|].
  destruct (p x); simpl; lia.
Qed.

Lemma filter_true_false_length (l : list value) :
  (length (filter is_true_value l) + length (filter is_false_value l) <= length l)%nat.
Proof.
  induction l as [|x l IH]; simpl; [lia|].
  destruct x as [| |[]| | | | | | | |]; simpl; lia.
Qed.

(** X3: the [empty] and [filled] summaries split the values: [empty] counts
    the [null], [undefined] and [""] entries, [filled] the others, and the two
    add up to [count]. *)
Theorem X3_empty_filled_count (values : list value) :
  evalBuiltinSummary "empty" values
  = Ok (VNum (Z.of_nat (length (filter is_empty_value values)))) /\
  exists e f,
    evalBuiltinSummary "empty" values = Ok (VNum e) /\
    evalBuiltinSummary "filled" values = Ok (VNum f) /\
    evalBuiltinSummary "count" values = Ok (VNum (e + f)).
Proof.
  split; [reflexivity|].
  exists (Z.of_nat (length (filter is_empty_value values))),
         (Z.of_nat (length (filter (fun v => negb (is_empty_value v)) values))).
  split; [reflexivity|]. split; [reflexivity|].
  change (evalBuiltinSummary "count" values) with (Ok (VNum (Z.of_nat (length values)))).
  rewrite <- (filter_negb_length is_empty_value values), Nat2Z.inj_add. reflexivity.
Qed.

(** X4: [checked] counts the entries that are exactly [true], [unchecked] those
    exactly [false]; together they never exceed [count]. *)
Theorem X4_checked_unchecked_count (values : list value) :
  exists c u n,
    evalBuiltinSummary "checked" values = Ok (VNum c) /\
    evalBuiltinSummary "unchecked" values = Ok (VNum u) /\
    evalBuiltinSummary "count" values = Ok (VNum n) /\
    c = Z.of_nat (length (filter is_true_value values)) /\
    u = Z.of_nat (length (filter is_false_value values)) /\
    0 <= c /\ 0 <= u /\ c + u <= n.
Proof.
  exists (Z.of_nat (length (filter is_true_value values))),
         (Z.of_nat (length (filter is_false_value values))),
         (Z.of_nat (length values)).
  do 5 (split; [reflexivity|]).
  pose proof (filter_true_false_length values). lia.
Qed.

Lemma list_min_spec (x : Z) (l : list Z) :
  Forall (fun z => list_min x l <= z) (x :: l) /\ In (list_min x l) (x :: l).
Proof.
  unfold list_min. revert x; induction l as [|y l IH]; intros x; simpl.
  - split; [constructor; [lia | constructor] | left; reflexivity].
  - destruct (IH (Z.min x y)) as [Hf Hin].
    remember (fold_left Z.min l (Z.min x y)) as m eqn:Em; clear Em.
    inversion Hf as [|? ? Hm Hl]; subst.
    split.
    + constructor; [lia|]. constructor; [lia | exact Hl].
    + destruct Hin as [Hin|Hin]; [|right; right; exact Hin].
      destruct (Z.min_spec x y) as [[_ E]|[_ E]]; rewrite E in Hin; subst; simpl; auto.
Qed.

Lemma list_max_spec (x : Z) (l : list Z) :
  Forall (fun z => z <= list_max x l) (x :: l) /\ In (list_max x l) (x :: l).
Proof.
  unfold list_max. revert x; induction l as [|y l IH]; intros x; simpl.
  - split; [constructor; [lia | constructor] | left; reflexivity].
  - destruct (IH (Z.max x y)) as [Hf Hin].
    remember (fold_left Z.max l (Z.max x y)) as m eqn:Em; clear Em.
    inversion Hf as [|? ? Hm Hl]; subst.
    split.
    + constructor; [lia|]. constructor; [lia | exact Hl].
    + destruct Hin as [Hin|Hin]; [|right; right; exact Hin].
      destruct (Z.max_spec x y) as [[_ E]|[_ E]]; rewrite E in Hin; subst; simpl; auto.
Qed.

Lemma list_min_le_max (x : Z) (l : list Z) : list_min x l <= list_max x l.
Proof.
  destruct (list_min_spec x l) as [Hmin _]. destruct (list_max_spec x l) as [Hmax _].
  inversion Hmin; inversion Hmax; subst; lia.
Qed.

Lemma evalBuiltinSummary_min (values : list value) :
  evalBuiltinSummary "min" values =
  (numbers <- toNumberList values ;;
   match numbers with [] => Ok VNull | x :: l => Ok (VNum (list_min x l)) end).
Proof. reflexivity. Qed.

Lemma evalBuiltinSummary_max (values : list value) :
  evalBuiltinSummary "max" values =
  (numbers <- toNumberList values ;;
   match numbers with [] => Ok VNull | x :: l => Ok (VNum (list_max x l)) end).
Proof. reflexivity. Qed.

Lemma evalBuiltinSummary_range (values : list value) :
  evalBuiltinSummary "range" values =
  if isDateList values then
    match map time_of values with
    | [] => Ok VNull
    | x :: l => num_result (list_max x l - list_min x l)
    end
  else
    (numbers <- toNumberList values ;;
     match numbers with
     | [] => Ok VNull
     | x :: l => num_result (list_max x l - list_min x l)
     end).
Proof. reflexivity. Qed.

Lemma num_result_Ok (z : Z) (v : value) : num_result z = Ok v -> v = VNum z /\ safe_int z = true.
Proof. unfold num_result. destruct (safe_int z); intros H; inversion H; auto. Qed.

(** X5: [min] and [max] range over the finite numbers the values convert to
    ([toNumberList]): with none both are [null]; otherwise [min] is one of
    them and is at most every one of them, and [max] likewise from above. *)
Theorem X5_min_max_bounds (values : list value) (ns : list Z) :
  toNumberList values = Ok ns ->
  (ns = [] /\ evalBuiltinSummary "min" values = Ok VNull /\
   evalBuiltinSummary "max" values = Ok VNull) \/
  (exists lo hi,
     evalBuiltinSummary "min" values = Ok (VNum lo) /\
     evalBuiltinSummary "max" values = Ok (VNum hi) /\
     In lo ns /\ In hi ns /\ Forall (fun z => lo <= z <= hi) ns).
Proof.
  intros H. rewrite evalBuiltinSummary_min, evalBuiltinSummary_max, H. simpl.
  destruct ns as [|x l]; [left; auto|right].
  exists (list_min x l), (list_max x l).
  destruct (list_min_spec x l) as [Hmin Imin]. destruct (list_max_spec x l) as [Hmax Imax].
  do 4 (split; [assumption || reflexivity|]).
  rewrite Forall_forall in *. intros z Hz. split; auto.
Qed.

Lemma X5_min_max_bounds_witness :
  toNumberList [VNum 3; VStr "x"; VStr " 7 "; VNull] = Ok [3; 7; 0] /\
  ((([3; 7; 0] : list Z) = [] /\
    evalBuiltinSummary "min" [VNum 3; VStr "x"; VStr " 7 "; VNull] = Ok VNull /\
    evalBuiltinSummary "max" [VNum 3; VStr "x"; VStr " 7 "; VNull] = Ok VNull) \/
   (exists lo hi,
      evalBuiltinSummary "min" [VNum 3; VStr "x"; VStr " 7 "; VNull] = Ok (VNum lo) /\
      evalBuiltinSummary "max" [VNum 3; VStr "x"; VStr " 7 "; VNull] = Ok (VNum hi) /\
      In lo [3; 7; 0] /\ In hi [3; 7; 0] /\ Forall (fun z => lo <= z <= hi) [3; 7; 0])).
Proof.
  split; [vm_compute; reflexivity|].
  apply X5_min_max_bounds. vm_compute; reflexivity.
Defined.

(** X6: [range] is never negative. For values that are not all dates it is
    [max] minus [min] of the converted numbers; for a list of dates it is the
    span of their times. *)
Theorem X6_range_nonnegative (values : list value) (r : Z) :
  evalBuiltinSummary "range" values = Ok (VNum r) ->
  0 <= r /\
  (isDateList values = false ->
   exists lo hi, evalBuiltinSummary "min" values = Ok (VNum lo) /\
                 evalBuiltinSummary "max" values = Ok (VNum hi) /\ r = hi - lo).
Proof.
  rewrite evalBuiltinSummary_range, evalBuiltinSummary_min, evalBuiltinSummary_max.
  destruct (isDateList values).
  - destruct (map time_of values) as [|x l]; [discriminate|].
    intros H. apply num_result_Ok in H as [H _]. inversion H; subst.
    pose proof (list_min_le_max x l). split; [lia | discriminate].
  - destruct (toNumberList values) as [ns| |]; simpl; try discriminate.
    destruct ns as [|x l]; [discriminate|].
    intros H. apply num_result_Ok in H as [H _]. inversion H; subst.
    pose proof (list_min_le_max x l). split; [lia|].
    intros _. exists (list_min x l), (list_max x l). auto.
Qed.

Lemma X6_range_nonnegative_witness :
  evalBuiltinSummary "range" [VNum 4; VStr "-2"; VBool true] = Ok (VNum 6) /\
  0 <= 6 /\
  (isDateList [VNum 4; VStr "-2"; VBool true] = false ->
   exists lo hi, evalBuiltinSummary "min" [VNum 4; VStr "-2"; VBool true] = Ok (VNum lo) /\
                 evalBuiltinSummary "max" [VNum 4; VStr "-2"; VBool true] = Ok (VNum hi) /\
                 6 = hi - lo).
Proof.
  split; [vm_compute; reflexivity|].
  apply X6_range_nonnegative. vm_compute; reflexivity.
Defined.

Lemma evalBuiltinSummary_earliest (values : list value) :
  evalBuiltinSummary "earliest" values =
  if negb (isDateList values) || (length values =? 0)%nat then Ok VNull
  else match map time_of values with
       | [] => Ok VNull
       | x :: l => Ok (VDate (list_min x l))
       end.
Proof. reflexivity. Qed.

Lemma evalBuiltinSummary_latest (values : list value) :
  evalBuiltinSummary "latest" values =
  if negb (isDateList values) || (length values =? 0)%nat then Ok VNull
  else match map time_of values with
       | [] => Ok VNull
       | x :: l => Ok (VDate (list_max x l))
       end.
Proof. reflexivity. Qed.

Lemma date_time_In (values : list value) (t : Z) :
  forallb is_date values = true -> In t (map time_of values) -> In (VDate t) values.
Proof.
  intros Hd Ht. apply in_map_iff in Ht as [v [Hv Hin]].
  rewrite forallb_forall in Hd. specialize (Hd v Hin).
  destruct v; try discriminate. simpl in Hv. subst. exact Hin.
Qed.

(** X7: [earliest] and [latest] are [null] unless every value is a date (and
    there is at least one); for a list of dates they are the dates of the
    smallest and largest time among them, and [range] is the difference of
    the two times. *)
Theorem X7_earliest_latest (values : list value) :
  (isDateList values = false /\
   evalBuiltinSummary "earliest" values = Ok VNull /\
   evalBuiltinSummary "latest" values = Ok VNull) \/
  (isDateList values = true /\
   exists lo hi,
     evalBuiltinSummary "earliest" values = Ok (VDate lo) /\
     evalBuiltinSummary "latest" values = Ok (VDate hi) /\
     evalBuiltinSummary "range" values = num_result (hi - lo) /\
     In (VDate lo) values /\ In (VDate hi) values /\
     Forall (fun v => lo <= time_of v <= hi) values).
Proof.
  rewrite evalBuiltinSummary_earliest, evalBuiltinSummary_latest, evalBuiltinSummary_range.
  destruct (isDateList values) eqn:Hd; [right | left; auto].
  split; [reflexivity|].
  unfold isDateList in Hd. apply andb_true_iff in Hd as [Hlen Hall].
  apply Nat.ltb_lt in Hlen.
  destruct (map time_of values) as [|x l] eqn:Hm.
  - apply (f_equal (@length Z)) in Hm. rewrite length_map in Hm. simpl in Hm. lia.
  - assert (E : (length values =? 0)%nat = false) by (apply Nat.eqb_neq; lia).
    rewrite E. simpl.
    exists (list_min x l), (list_max x l).
    destruct (list_min_spec x l) as [Fmin Imin]. destruct (list_max_spec x l) as [Fmax Imax].
    rewrite <- Hm in Imin, Imax.
    do 3 (split; [reflexivity|]).
    split; [apply date_time_In; assumption|].
    split; [apply date_time_In; assumption|].
    apply Forall_forall. intros v Hv.
    assert (Ht : In (time_of v) (x :: l)) by (rewrite <- Hm; apply in_map; exact Hv).
    rewrite Forall_forall in Fmin, Fmax. split; [apply Fmin | apply Fmax]; exact Ht.
Qed.

Lemma evalBuiltinSummary_median (values : list value) :
  evalBuiltinSummary "median" values =
  (numbers <- toNumberList values ;; median_of (sort_by (fun l r => l - r) numbers)).
Proof. reflexivity. Qed.

Lemma median_of_cases (s : list Z) (v : value) :
  median_of s = Ok v ->
  (s = [] /\ v = VNull) \/
  exists m, s <> [] /\ v = VNum m /\
    (((length s mod 2 = 0)%nat /\ 2 * m = nth (length s / 2 - 1) s 0 + nth (length s / 2) s 0)
     \/ ((length s mod 2 <> 0)%nat /\ m = nth (length s / 2) s 0)).
Proof.
  unfold median_of. intros H. destruct s as [|a s'] eqn:Hs.
  - left. inversion H. auto.
  - right. rewrite <- Hs in H |- *. cbv zeta in H.
    destruct (length s mod 2 =? 0)%nat eqn:E.
    + apply Nat.eqb_eq in E.
      remember (nth (length s / 2 - 1) s 0 + nth (length s / 2) s 0) as t eqn:Et.
      unfold safe, exact_div in H.
      destruct (safe_int t); simpl in H; [|discriminate].
      destruct (Z.rem t 2 =? 0) eqn:R; simpl in H; [|discriminate].
      simpl in H. apply num_result_Ok in H as [H _]. subst v. eexists; split; [rewrite Hs; discriminate|].
      split; [reflexivity|]. left. split; [exact E|]. apply Z.eqb_eq in R.
      pose proof (Z.quot_rem t 2) as Q.
      lia.
    + apply Nat.eqb_neq in E. inversion H. eexists; split; [rewrite Hs; discriminate|].
      split; [reflexivity|]. right. auto.
Qed.

(** X8: [median] sorts the finite numbers the values convert to and takes the
    middle one, or the mean of the two middle ones: it is [null] when there
    are none, and otherwise lies between their minimum and maximum; for an odd
    count it is one of the numbers. *)
Theorem X8_median_bounds (values : list value) (ns : list Z) (v : value) :
  toNumberList values = Ok ns ->
  evalBuiltinSummary "median" values = Ok v ->
  (ns = [] /\ v = VNull) \/
  exists x l m, ns = x :: l /\ v = VNum m /\ list_min x l <= m <= list_max x l /\
    ((length ns mod 2 <> 0)%nat -> In m ns).
Proof.
  intros Hn Hv. rewrite evalBuiltinSummary_median, Hn in Hv. simpl in Hv.
  pose proof (sort_by_perm (fun l r => l - r) ns) as Hp.
  remember (sort_by (fun l r => l - r) ns) as s eqn:Es. clear Es.
  assert (Hmem : forall i, (i < length s)%nat -> In (nth i s 0) ns).
  { intros i Hi. apply (Permutation_in _ Hp). apply nth_In. exact Hi. }
  assert (Hlen : length s = length ns) by (apply Permutation_length; exact Hp).
  apply median_of_cases in Hv as [[Hs Hv]|[m [Hne [Hv Hc]]]].
  - left. subst s. apply Permutation_nil in Hp. auto.
  - right. destruct ns as [|x l].
    + exfalso. simpl in Hlen. destruct s; [apply Hne; reflexivity | discriminate].
    + exists x, l, m. split; [reflexivity|]. split; [exact Hv|].
      destruct (list_min_spec x l) as [Fmin _]. destruct (list_max_spec x l) as [Fmax _].
      rewrite Forall_forall in Fmin, Fmax.
      assert (Hpos : (0 < length s)%nat) by (rewrite Hlen; simpl; lia).
      assert (H1 : (length s / 2 < length s)%nat) by (apply Nat.div_lt; lia).
      destruct Hc as [[E Hm]|[E Hm]].
      * assert (H2 : (length s / 2 - 1 < length s)%nat) by lia.
        pose proof (Hmem _ H1) as I1. pose proof (Hmem _ H2) as I2.
        pose proof (Fmin _ I1). pose proof (Fmin _ I2).
        pose proof (Fmax _ I1). pose proof (Fmax _ I2).
        split; [lia|]. intros Hodd. rewrite <- Hlen in Hodd. contradiction.
      * pose proof (Hmem _ H1) as I1. rewrite <- Hm in I1.
        pose proof (Fmin _ I1). pose proof (Fmax _ I1). split; [lia | auto].
Qed.

Lemma X8_median_bounds_witness :
  toNumberList [VNum 5; VStr "3"; VNull; VNum 10; VStr "none"] = Ok [5; 3; 0; 10] /\
  evalBuiltinSummary "median" [VNum 5; VStr "3"; VNull; VNum 10; VStr "none"] = Ok (VNum 4) /\
  (([5; 3; 0; 10] : list Z) = [] /\ VNum 4 = VNull \/
   exists x l m, ([5; 3; 0; 10] : list Z) = x :: l /\ VNum 4 = VNum m /\
     list_min x l <= m <= list_max x l /\
     ((length [5; 3; 0; 10] mod 2 <> 0)%nat -> In m [5; 3; 0; 10])).
Proof.
  split; [vm_compute; reflexivity|]. split; [vm_compute; reflexivity|].
  apply (X8_median_bounds [VNum 5; VStr "3"; VNull; VNum 10; VStr "none"]);
    vm_compute; reflexivity.
Defined.

Lemma opt_string_eqb_eq (a b : option string) : opt_string_eqb a b = true <-> a = b.
Proof.
  destruct a as [x|], b as [y|]; simpl; split; intros H; try discriminate; try reflexivity.
  - apply String.eqb_eq in H; subst; reflexivity.
  - inversion H; subst; apply String.eqb_refl.
Qed.

Lemma set_add_fold_spec (l acc : list (option string)) :
  NoDup acc ->
  NoDup (fold_left set_add l acc) /\
  (forall k, In k (fold_left set_add l acc) <-> In k acc \/ In k l) /\
  (length (fold_left set_add l acc) <= length acc + length l)%nat.
Proof.
  revert acc; induction l as [|x l IH]; intros acc Hacc; simpl.
  - split; [exact Hacc|]. split; [intros k; tauto | lia].
  - change (set_add acc x) with
      (if existsb (opt_string_eqb x) acc then acc else (acc ++ [x])%list).
    destruct (existsb (opt_string_eqb x) acc) eqn:E.
    + destruct (IH acc Hacc) as [Hn [Hi Hl]]. split; [exact Hn|]. split; [|lia].
      intros k. rewrite Hi. split; [tauto|].
      intros [H|[H|H]]; auto. left. subst k.
      apply existsb_exists in E as [y [Hy Hxy]]. apply opt_string_eqb_eq in Hxy. subst; exact Hy.
    + assert (Hacc' : NoDup (acc ++ [x])%list).
      { apply NoDup_app; [exact Hacc | constructor; [intros [] | constructor] |].
        intros y Hy [Hx|[]]. subst y.
        assert (existsb (opt_string_eqb x) acc = true) as C
          by (apply existsb_exists; exists x; split; [exact Hy | apply opt_string_eqb_eq; reflexivity]).
        rewrite C in E; discriminate. }
      destruct (IH _ Hacc') as [Hn [Hi Hl]]. split; [exact Hn|].
      split; [|rewrite length_app in Hl; simpl in Hl; lia].
      intros k. rewrite Hi, in_app_iff. simpl. intuition.
Qed.

(** X9: [unique] is the size of the set of the values' [JSON.stringify]
    results: the number of distinct results, at most [count], and at least 1
    as soon as there is a value. *)
Theorem X9_unique_count (values : list value) :
  exists keys,
    evalBuiltinSummary "unique" values = Ok (VNum (Z.of_nat (length keys))) /\
    NoDup keys /\
    (forall k, In k keys <-> In k (map json_stringify values)) /\
    (length keys <= length values)%nat /\
    (values <> [] -> (1 <= length keys)%nat).
Proof.
  destruct (set_add_fold_spec (map json_stringify values) [] (NoDup_nil _)) as [Hn [Hi Hl]].
  exists (fold_left set_add (map json_stringify values) []).
  split; [reflexivity|]. split; [exact Hn|].
  split; [intros k; rewrite Hi; simpl; tauto|].
  rewrite length_map in Hl. simpl in Hl. split; [exact Hl|].
  intros Hne. destruct values as [|v vs]; [contradiction|].
  destruct (fold_left set_add (map json_stringify (v :: vs)) []) eqn:F; [|simpl; lia].
  exfalso. specialize (Hi (json_stringify v)). simpl in Hi. tauto.
Qed.

(* ------------------------------------------------------------------------- *)
(** ** The summary row *)

Lemma set_field_absent (fields : list (string * value)) (k : string) (v : value) :
  ~ In k (map fst fields) -> set_field fields k v = (fields ++ [(k, v)])%list.
Proof.
  induction fields as [|[k' v'] fs IH]; simpl; [reflexivity|].
  intros Hn. destruct (String.eqb k k') eqn:E.
  - apply String.eqb_eq in E. subst. exfalso; apply Hn; left; reflexivity.
  - rewrite IH; [reflexivity | tauto].
Qed.

Lemma filter_split_perm {A} (p : A -> bool) (l : list A) :
  Permutation (filter p l ++ filter (fun x => negb (p x)) l)%list l.
Proof.
  induction l as [|x l IH]; simpl; [reflexivity|].
  destruct (p x); simpl.
  - constructor; exact IH.
  - rewrite <- Permutation_middle. constructor; exact IH.
Qed.

Lemma own_keys_order_perm {A} (fields : list (string * A)) :
  Permutation (own_keys_order fields) fields.
Proof.
  unfold own_keys_order.
  rewrite sort_by_perm.
  set (p := fun kv : string * A => match array_index (fst kv) with Some _ => true | None => false end).
  transitivity (filter p fields ++ filter (fun x => negb (p x)) fields)%list.
  - apply Permutation_app_head. apply Permutation_refl'. apply filter_ext.
    intros [k v]. unfold p. simpl. destruct (array_index k); reflexivity.
  - apply filter_split_perm.
Qed.

Lemma summary_fold_spec (f : string -> string -> outcome value)
  (L : list (string * string)) (out0 out : list (string * value)) :
  NoDup (map fst out0 ++ map fst L)%list ->
  fold_left (fun acc kv => output <- acc ;; v <- f (fst kv) (snd kv) ;;
                           Ok (set_field output (fst kv) v)) L (Ok out0) = Ok out ->
  exists vs, Forall2 (fun kv v => f (fst kv) (snd kv) = Ok v) L vs /\
             out = (out0 ++ combine (map fst L) vs)%list.
Proof.
  revert out0; induction L as [|[c n] L IH]; intros out0 Hnd H; simpl in H.
  - exists []. split; [constructor|]. inversion H. rewrite app_nil_r. reflexivity.
  - destruct (f c n) as [v| |] eqn:Ef; simpl in H.
    + assert (Hc : ~ In c (map fst out0)).
      { intros Hin. apply NoDup_remove_2 in Hnd. simpl in Hnd. apply Hnd.
        apply in_app_iff; left; exact Hin. }
      rewrite set_field_absent in H by exact Hc.
      assert (Hnd' : NoDup (map fst (out0 ++ [(c, v)]) ++ map fst L)%list).
      { rewrite map_app, <- app_assoc. exact Hnd. }
      destruct (IH _ Hnd' H) as [vs [Hf Ho]].
      exists (v :: vs). split; [constructor; assumption|].
      rewrite Ho, <- app_assoc. reflexivity.
    + exfalso. clear IH Ef Hnd. induction L as [|kv L IHL]; simpl in H; [discriminate | exact (IHL H)].
    + exfalso. clear IH Ef Hnd. induction L as [|kv L IHL]; simpl in H; [discriminate | exact (IHL H)].
Qed.

Lemma assoc_combine_Forall2 (f : string -> string -> outcome value)
  (L : list (string * string)) (vs : list value) (c n : string) :
  NoDup (map fst L) -> Forall2 (fun kv v => f (fst kv) (snd kv) = Ok v) L vs ->
  In (c, n) L -> exists v, assoc c (combine (map fst L) vs) = Some v /\ f c n = Ok v.
Proof.
  intros Hnd HF. induction HF as [|[c' n'] v' L' vs' Hv HF IH]; simpl; [intros []|].
  inversion Hnd as [|? ? Hnin Hnd']; subst.
  intros [Heq|Hin].
  - inversion Heq; subst. rewrite String.eqb_refl. eauto.
  - destruct (String.eqb c c') eqn:E.
    + apply String.eqb_eq in E; subst. exfalso. apply Hnin.
      apply in_map_iff. exists (c', n). auto.
    + apply IH; assumption.
Qed.

(** X10: when the view declares summaries, [computeSummaries] returns an
    object with one property per declared column, in the order
    [Object.entries] gives them, and each property holds that column's
    summary: the builtin summary of the column's values when the name is a
    builtin one, the summary formula's value otherwise. *)
Theorem X10_computeSummaries_columns off G M A (m : list (string * string))
  (rows : list row) (spec : query_spec) (compiled : compiled_query) (o : value) :
  NoDup (map fst m) ->
  computeSummaries off G M A (Some m) rows spec compiled = Ok (Some o) ->
  exists out,
    o = VObj out /\
    map fst out = map fst (own_keys_order m) /\
    forall column name, In (column, name) m ->
      exists v, assoc column out = Some v /\
                summary_column off G M A rows spec compiled column name = Ok v.
Proof.
  intros Hnd H. destruct m as [|kv m']; [discriminate|].
  unfold computeSummaries in H. inv_bind H out Hout. inversion H; subst o. clear H.
  set (L := own_keys_order (kv :: m')) in Hout.
  assert (HndL : NoDup (map fst L)).
  { apply (Permutation_NoDup (Permutation_map fst (Permutation_sym (own_keys_order_perm _)))).
    exact Hnd. }
  apply (summary_fold_spec (summary_column off G M A rows spec compiled) L []) in Hout
    as [vs [HF ->]]; [|exact HndL].
  exists (combine (map fst L) vs). split; [reflexivity|]. simpl.
  split.
  - apply map_fst_combine. rewrite length_map. apply (Forall2_length HF).
  - intros column name Hin. apply (assoc_combine_Forall2 _ L vs column name HndL HF).
    apply own_keys_order_In. exact Hin.
Qed.

Lemma summary_fold_from_error (f : string -> string -> outcome value)
  (L : list (string * string)) (m : outcome (list (string * value))) :
  (forall a, m <> Ok a) ->
  fold_left (fun acc kv => output <- acc ;; v <- f (fst kv) (snd kv) ;;
                           Ok (set_field output (fst kv) v)) L m = m.
Proof.
  revert m; induction L as [|kv L IH]; intros m Hm; simpl; [reflexivity|].
  destruct m as [a| |]; [exfalso; exact (Hm a eq_refl)| |]; simpl; apply IH; discriminate.
Qed.

Lemma summary_fold_ok (f : string -> string -> outcome value)
  (L : list (string * string)) (out0 : list (string * value)) :
  Forall (fun kv => exists v, f (fst kv) (snd kv) = Ok v) L ->
  exists out, fold_left (fun acc kv => output <- acc ;; v <- f (fst kv) (snd kv) ;;
                                       Ok (set_field output (fst kv) v)) L (Ok out0) = Ok out.
Proof.
  intros HF. revert out0; induction HF as [|kv L [v Hv] HF IH]; intros out0; simpl.
  - eauto.
  - rewrite Hv. simpl. apply IH.
Qed.

(** X11: a summary that throws, such as a summary formula whose evaluation
    fails, is not recorded as [null]: [computeSummaries] throws that error
    (the first failing column in [Object.entries] order), and so does the
    whole query. *)
Theorem X11_computeSummaries_error off G M A (m : list (string * string))
  (rows : list row) (spec : query_spec) (compiled : compiled_query)
  (pre post : list (string * string)) (column name : string) (e : js_error) :
  own_keys_order m = (pre ++ (column, name) :: post)%list ->
  Forall (fun kv => exists v, summary_column off G M A rows spec compiled (fst kv) (snd kv) = Ok v)
         pre ->
  summary_column off G M A rows spec compiled column name = Throw e ->
  computeSummaries off G M A (Some m) rows spec compiled = Throw e.
Proof.
  intros Hsplit Hpre He.
  destruct m as [|kv m']; [destruct pre; discriminate|].
  unfold computeSummaries. rewrite Hsplit, fold_left_app.
  destruct (summary_fold_ok (summary_column off G M A rows spec compiled) pre [] Hpre)
    as [out Hout].
  rewrite Hout. simpl. rewrite He. simpl.
  rewrite summary_fold_from_error by discriminate. reflexivity.
Qed.

(** Two rows with a [price] column, and a query with one summary formula. *)
Definition price_rows : list row :=
  [mk_row (mk_document "a" "a.md" [] []) [] [("price", VNum 3)];
   mk_row (mk_document "b" "b.md" [] []) [] [("price", VStr "4")]].

Definition price_spec : query_spec :=
  mk_query_spec None None None (Some [("bad", "values.x.y")]) [].

Definition price_compiled : compiled_query :=
  mk_compiled price_spec true None [] [] []
              [("bad", EMember (EMember (EIdentifier "values") "x") "y")].

Lemma X10_computeSummaries_columns_witness :
  compileQuery price_spec None = Ok price_compiled /\
  computeSummaries 0 (fun _ => None) (fun _ _ => None) (fun _ => None)
    (Some [("price", " Sum"); ("n", "count")]) price_rows price_spec price_compiled
  = Ok (Some (VObj [("price", VNum 7); ("n", VNum 2)])) /\
  exists out,
    VObj [("price", VNum 7); ("n", VNum 2)] = VObj out /\
    map fst out = map fst (own_keys_order [("price", " Sum"); ("n", "count")]) /\
    forall column name, In (column, name) [("price", " Sum"); ("n", "count")] ->
      exists v, assoc column out = Some v /\
                summary_column 0 (fun _ => None) (fun _ _ => None) (fun _ => None)
                  price_rows price_spec price_compiled column name = Ok v.
Proof.
  split; [vm_compute; reflexivity|]. split; [vm_compute; reflexivity|].
  apply X10_computeSummaries_columns; [| vm_compute; reflexivity].
  repeat constructor; simpl; intuition discriminate.
Defined.

Lemma X11_computeSummaries_error_witness :
  computeSummaries 0 (fun _ => None) (fun _ _ => None) (fun _ => None)
    (Some [("price", "sum"); ("n", "bad"); ("z", "count")]) price_rows price_spec price_compiled
  = Throw (mk_error "Error" "cannot access property y on nullish value").
Proof.
  apply (X11_computeSummaries_error 0 (fun _ => None) (fun _ _ => None) (fun _ => None)
           _ _ _ _ [("price", "sum")] [("z", "count")] "n" "bad").
  - vm_compute; reflexivity.
  - constructor; [|constructor]. exists (VNum 7). vm_compute; reflexivity.
  - vm_compute; reflexivity.
Defined.

(* ------------------------------------------------------------------------- *)
(** ** Grouping rows *)

(** The property a [groupBy] setting groups by. *)
Definition groupBy_property (g : group_spec) : string :=
  match g with GroupBy p => p | GroupByDir p _ => p end.

(** A row, paired with its group key, belongs to the group whose [Map] key
    ([JSON.stringify] of the key) is [k]. *)
Definition same_group_key (k : option string) (rk : row * value) : bool :=
  opt_string_eqb (json_stringify (snd rk)) k.

Lemma opt_string_eqb_sym (a b : option string) : opt_string_eqb a b = opt_string_eqb b a.
Proof. destruct a, b; simpl; try reflexivity. apply String.eqb_sym. Qed.

Lemma group_key_match (k m : option string) :
  match k, m with
  | Some a, Some b => String.eqb a b
  | None, None => true
  | _, _ => false
  end = opt_string_eqb k m.
Proof. destruct k, m; reflexivity. Qed.

Lemma add_to_group_fst (G : list (option string * (value * list row))) (mk : option string)
  (key : value) (r : row) :
  map fst (add_to_group G mk key r) =
  if existsb (fun e => opt_string_eqb (fst e) mk) G then map fst G else (map fst G ++ [mk])%list.
Proof.
  induction G as [|[k [key0 rs]] gs IH]; simpl; [reflexivity|].
  rewrite group_key_match. destruct (opt_string_eqb k mk); simpl; [reflexivity|].
  rewrite IH. destruct (existsb _ gs); reflexivity.
Qed.

Lemma add_to_group_In (G : list (option string * (value * list row))) (mk : option string)
  (key : value) (r : row) (e : option string * (value * list row)) :
  NoDup (map fst G) -> In e (add_to_group G mk key r) ->
  (fst e <> mk /\ In e G) \/
  (fst e = mk /\ exists rs, In (mk, (fst (snd e), rs)) G /\ snd (snd e) = (rs ++ [r])%list) \/
  (e = (mk, (key, [r])) /\ existsb (fun e => opt_string_eqb (fst e) mk) G = false).
Proof.
  induction G as [|[k [key0 rs]] gs IH]; simpl; intros Hnd He.
  - destruct He as [<-|[]]. right; right; auto.
  - inversion Hnd as [|? ? Hk Hnd']; subst.
    rewrite group_key_match in He. destruct (opt_string_eqb k mk) eqn:E.
    + apply opt_string_eqb_eq in E. subst k.
      destruct He as [<-|He].
      * right; left. simpl. split; [reflexivity|]. exists rs. auto.
      * left. split; [|right; exact He].
        intros Hf. apply Hk. rewrite <- Hf. apply in_map. exact He.
    + destruct He as [<-|He].
      * left. split; [|left; reflexivity]. simpl. intros Hf. subst k.
        rewrite (proj2 (opt_string_eqb_eq mk mk) eq_refl) in E. discriminate.
      * destruct (IH Hnd' He) as [[H1 H2]|[[H1 [rs' [H2 H3]]]|[H1 H2]]].
        -- left. auto.
        -- right; left. split; [exact H1|]. exists rs'. auto.
        -- right; right. split; [exact H1 | exact H2].
Qed.

Lemma combine_snoc {A B} (P : list A) (KP : list B) (r : A) (k : B) :
  length P = length KP -> combine (P ++ [r])%list (KP ++ [k])%list = (combine P KP ++ [(r, k)])%list.
Proof.
  revert KP; induction P as [|x P IH]; intros [|y KP] H; simpl in *; try discriminate; auto.
  rewrite IH; [reflexivity | lia].
Qed.

(** What the grouping loop has built after the rows [P] with keys [KP]. *)
Definition group_inv (P : list row) (KP : list value)
  (G : list (option string * (value * list row))) : Prop :=
  NoDup (map fst G) /\
  (forall e, In e G ->
     fst e = json_stringify (fst (snd e)) /\
     snd (snd e) = map fst (filter (same_group_key (fst e)) (combine P KP)) /\
     exists r rs, snd (snd e) = r :: rs /\ In (r, fst (snd e)) (combine P KP)) /\
  (forall rk, In rk (combine P KP) -> In (json_stringify (snd rk)) (map fst G)).

Lemma existsb_key_In (G : list (option string * (value * list row))) (mk : option string) :
  existsb (fun e => opt_string_eqb (fst e) mk) G = true <-> In mk (map fst G).
Proof.
  rewrite existsb_exists, in_map_iff. split.
  - intros [e [He Hk]]. apply opt_string_eqb_eq in Hk. eauto.
  - intros [e [Hk He]]. exists e. split; [exact He | apply opt_string_eqb_eq; exact Hk].
Qed.

Lemma group_inv_step (P : list row) (KP : list value) (G : list (option string * (value * list row)))
  (r : row) (k : value) :
  length P = length KP -> group_inv P KP G ->
  group_inv (P ++ [r])%list (KP ++ [k])%list (add_to_group G (json_stringify k) k r).
Proof.
  intros Hlen [Hnd [Hent Hcov]].
  unfold group_inv.
  rewrite combine_snoc by exact Hlen.
  split; [|split].
  - rewrite add_to_group_fst. destruct (existsb _ G) eqn:Ex; [exact Hnd|].
    apply NoDup_app; [exact Hnd | repeat constructor; intros [] |].
    intros x Hx [Hm|[]]. subst x.
    apply existsb_key_In in Hx. rewrite Hx in Ex. discriminate.
  - intros e He.
    destruct (add_to_group_In G (json_stringify k) k r e Hnd He) as [[Hne Hin]|[[Hf [rs [Hin Hs]]]|[He' Hex]]].
    + destruct (Hent e Hin) as [Hk [Hrs [r1 [rs1 [Hr1 Hin1]]]]].
      split; [exact Hk|]. split.
      * rewrite filter_app. simpl. unfold same_group_key at 2. simpl.
        destruct (opt_string_eqb (json_stringify k) (fst e)) eqn:E.
        -- apply opt_string_eqb_eq in E. exfalso; apply Hne; symmetry; exact E.
        -- rewrite app_nil_r. exact Hrs.
      * exists r1, rs1. split; [exact Hr1 | apply in_or_app; left; exact Hin1].
    + destruct e as [ek [ekey ers]]. simpl in *. subst ek ers.
      destruct (Hent _ Hin) as [Hk [Hrs [r1 [rs1 [Hr1 Hin1]]]]]. simpl in *.
      split; [exact Hk|]. split.
      * rewrite filter_app, map_app, <- Hrs. simpl. unfold same_group_key. simpl.
        rewrite (proj2 (opt_string_eqb_eq (json_stringify k) (json_stringify k)) eq_refl). reflexivity.
      * exists r1, (rs1 ++ [r])%list. rewrite Hr1. split; [reflexivity|].
        apply in_or_app; left; exact Hin1.
    + subst e. simpl. split; [reflexivity|]. split.
      * rewrite filter_app, filter_none.
        -- simpl. unfold same_group_key. simpl.
           rewrite (proj2 (opt_string_eqb_eq (json_stringify k) (json_stringify k)) eq_refl). reflexivity.
        -- intros [r2 k2] Hin. unfold same_group_key. simpl.
           destruct (opt_string_eqb (json_stringify k2) (json_stringify k)) eqn:E; [|reflexivity].
           apply opt_string_eqb_eq in E. pose proof (Hcov _ Hin) as Hc. simpl in Hc.
           rewrite E in Hc. apply existsb_key_In in Hc. rewrite Hc in Hex. discriminate.
      * exists r, []. split; [reflexivity|]. apply in_or_app; right; left; reflexivity.
  - intros rk Hin. rewrite add_to_group_fst.
    apply in_app_or in Hin as [Hin|[<-|[]]].
    + pose proof (Hcov _ Hin) as Hc. destruct (existsb _ G); [exact Hc|].
      apply in_or_app; left; exact Hc.
    + simpl. destruct (existsb _ G) eqn:Ex.
      * apply existsb_key_In. exact Ex.
      * apply in_or_app; right; left; reflexivity.
Qed.

Lemma map_outcome_snoc {A B} (f : A -> outcome B) (P : list A) (KP : list B) (x : A) (k : B) :
  map_outcome f P = Ok KP -> f x = Ok k -> map_outcome f (P ++ [x])%list = Ok (KP ++ [k])%list.
Proof.
  revert KP; induction P as [|y P IH]; intros KP HP Hx; simpl in *.
  - inversion HP; subst. rewrite Hx. reflexivity.
  - inv_bind HP ky Hy. inv_bind HP ks Hks. inversion HP; subst.
    rewrite Hy. simpl. rewrite (IH ks Hks Hx). reflexivity.
Qed.

Lemma map_outcome_length {A B} (f : A -> outcome B) (l : list A) (l' : list B) :
  map_outcome f l = Ok l' -> length l = length l'.
Proof. intros H. apply map_outcome_Forall2 in H. exact (Forall2_length H). Qed.

Lemma group_fold_inv (eval : row -> outcome value) (rows P : list row) (KP : list value)
  (G0 G : list (option string * (value * list row))) :
  map_outcome eval P = Ok KP -> group_inv P KP G0 ->
  fold_left (fun acc r => m <- acc ;; key <- eval r ;;
                          Ok (add_to_group m (json_stringify key) key r)) rows (Ok G0) = Ok G ->
  exists K, map_outcome eval (P ++ rows)%list = Ok K /\ group_inv (P ++ rows)%list K G.
Proof.
  revert P KP G0; induction rows as [|x rows IH]; intros P KP G0 HP Hinv H; simpl in H.
  - inversion H; subst. exists KP. rewrite app_nil_r. auto.
  - destruct (eval x) as [k| |] eqn:Ex; simpl in H.
    + replace (P ++ x :: rows)%list with ((P ++ [x]) ++ rows)%list
        by (rewrite <- app_assoc; reflexivity).
      apply (IH (P ++ [x])%list (KP ++ [k])%list (add_to_group G0 (json_stringify k) k x));
        [apply map_outcome_snoc; assumption | | exact H].
      apply group_inv_step; [apply (map_outcome_length _ _ _ HP) | exact Hinv].
    + exfalso. clear IH Ex. induction rows as [|y rows IHr]; simpl in H; [discriminate | exact (IHr H)].
    + exfalso. clear IH Ex. induction rows as [|y rows IHr]; simpl in H; [discriminate | exact (IHr H)].
Qed.

Lemma group_sort_perm (groups : list (option string * (value * list row)))
  (sorted : list (value * list row)) :
  (match groups with
   | [] | [_] => Ok (map snd groups)
   | _ =>
       labelled <- map_outcome (fun g => s <- js_ToString (fst (snd g)) ;; Ok (s, snd g)) groups ;;
       Ok (map snd (sort_by (fun a b => localeCompare (fst a) (fst b)) labelled))
   end) = Ok sorted ->
  Permutation sorted (map snd groups).
Proof.
  destruct groups as [|g1 [|g2 gs]]; intros H; try (inversion H; reflexivity).
  inv_bind H labelled Hl. inversion H; subst. clear H.
  apply map_outcome_Forall2 in Hl.
  assert (E : map snd labelled = map snd (g1 :: g2 :: gs)).
  { induction Hl as [|g l0 lb lbs Hg Hl IH]; simpl; [reflexivity|].
    inv_bind Hg s Hs. inversion Hg; subst. simpl. f_equal. exact IH. }
  rewrite <- E. apply Permutation_map, sort_by_perm.
Qed.

Lemma groupRows_groups off G M A (rows : list row) (view : view_spec) (strict : bool)
  (fbp : value) (g : group_spec) (gs : list (value * list row)) :
  view_groupBy view = Some g ->
  groupRows off G M A rows view strict fbp = Ok (Some gs) ->
  exists groups keys,
    map_outcome (fun r => evaluatePropertyRef off G M A (groupBy_property g) r strict fbp) rows
    = Ok keys /\
    group_inv rows keys groups /\ Permutation gs (map snd groups).
Proof.
  intros Hg H. unfold groupRows in H. rewrite Hg in H.
  destruct g as [p|p d]; cbv iota beta in H;
    try (destruct (String.eqb p "") ; [discriminate|]);
    inv_bind H groups Hgr; inv_bind H sorted Hs; inversion H; subst; clear H;
    apply (group_fold_inv (fun r => evaluatePropertyRef off G M A p r strict fbp) rows [] [] []
             groups) in Hgr as [keys [Hk Hinv]];
    try reflexivity; try (split; [constructor | split; intros ? []]);
    exists groups, keys; simpl; (split; [exact Hk|]); (split; [exact Hinv|]);
    apply group_sort_perm in Hs.
  - exact Hs.
  - destruct (String.eqb d "desc"); [rewrite <- Permutation_rev|]; exact Hs.
Qed.

(** X12: [groupRows] partitions the rows by the [JSON.stringify] of their
    group key: every row's key is evaluated, no two groups share a stringified
    key, each group is non-empty, its key is the key of its first row, its rows
    are exactly the rows whose key stringifies like the group's, in input
    order, and every row lands in a group. With no [groupBy], or the empty
    string, there are no groups. *)
Theorem X12_groupRows_partition off G M A (rows : list row) (view : view_spec) (strict : bool)
  (fbp : value) (g : group_spec) (gs : list (value * list row)) :
  view_groupBy view = Some g ->
  groupRows off G M A rows view strict fbp = Ok (Some gs) ->
  (exists keys,
    map_outcome (fun r => evaluatePropertyRef off G M A (groupBy_property g) r strict fbp) rows
    = Ok keys /\
    NoDup (map (fun grp => json_stringify (fst grp)) gs) /\
    (forall grp, In grp gs ->
       snd grp = map fst (filter (same_group_key (json_stringify (fst grp))) (combine rows keys)) /\
       exists r rs, snd grp = r :: rs /\ In (r, fst grp) (combine rows keys)) /\
    (forall r k, In (r, k) (combine rows keys) ->
       exists grp, In grp gs /\ json_stringify (fst grp) = json_stringify k)) /\
  (forall view', view_groupBy view' = None \/ view_groupBy view' = Some (GroupBy "") ->
     groupRows off G M A rows view' strict fbp = Ok None).
Proof.
  intros Hg H. split.
  2:{ intros view' [E|E]; unfold groupRows; rewrite E; reflexivity. }
  destruct (groupRows_groups off G M A rows view strict fbp g gs Hg H)
    as [groups [keys [Hk [[Hnd [Hent Hcov]] Hp]]]].
  exists keys. split; [exact Hk|].
  assert (Hin : forall grp, In grp gs -> exists e, In e groups /\ grp = snd e).
  { intros grp Hgrp. apply (Permutation_in _ Hp) in Hgrp. apply in_map_iff in Hgrp.
    destruct Hgrp as [e [He Hin]]. eauto. }
  split; [|split].
  - apply (Permutation_NoDup (Permutation_map _ (Permutation_sym Hp))).
    rewrite map_map.
    rewrite (map_ext_in _ fst groups); [exact Hnd|].
    intros e He. symmetry. apply (Hent e He).
  - intros grp Hgrp. destruct (Hin grp Hgrp) as [e [He ->]].
    destruct (Hent e He) as [Hf [Hrs Hfirst]]. rewrite <- Hf. auto.
  - intros r k Hrk. pose proof (Hcov _ Hrk) as Hc. simpl in Hc.
    apply in_map_iff in Hc as [e [Hf He]].
    exists (snd e). split.
    + apply (Permutation_in _ (Permutation_sym Hp)). apply in_map. exact He.
    + rewrite <- (proj1 (Hent e He)). exact Hf.
Qed.

(** Three notes tagged [x], [y], [x], grouped by [tag]. *)
Definition tag_rows : list row :=
  [mk_row (mk_document "a" "a.md" [] [("tag", VStr "x")]) [] [];
   mk_row (mk_document "b" "b.md" [] [("tag", VStr "y")]) [] [];
   mk_row (mk_document "c" "c.md" [] [("tag", VStr "x")]) [] []].

Definition tag_view : view_spec := mk_view "t" None None None (Some (GroupBy "tag")) None None.

Lemma X12_groupRows_partition_witness :
  exists gs,
    groupRows 0 (fun _ => None) (fun _ _ => None) (fun _ => None) tag_rows tag_view true (VMap [])
    = Ok (Some gs) /\
    exists keys,
      map_outcome (fun r => evaluatePropertyRef 0 (fun _ => None) (fun _ _ => None) (fun _ => None)
                              (groupBy_property (GroupBy "tag")) r true (VMap [])) tag_rows
      = Ok keys /\
      NoDup (map (fun grp => json_stringify (fst grp)) gs) /\
      (forall grp, In grp gs ->
         snd grp = map fst (filter (same_group_key (json_stringify (fst grp)))
                                   (combine tag_rows keys)) /\
         exists r rs, snd grp = r :: rs /\ In (r, fst grp) (combine tag_rows keys)) /\
      (forall r k, In (r, k) (combine tag_rows keys) ->
         exists grp, In grp gs /\ json_stringify (fst grp) = json_stringify k).
Proof.
  eexists. split; [vm_compute; reflexivity|].
  refine (proj1 (X12_groupRows_partition 0 (fun _ => None) (fun _ _ => None) (fun _ => None)
           tag_rows tag_view true (VMap []) (GroupBy "tag") _ _ _)); vm_compute; reflexivity.
Defined.






(* ------------------------------------------------------------------------- *)
(** ** CSV and JSON Lines output *)

Lemma chs_app (a b : string) : chs (a ++ b) = (chs a ++ chs b)%list.
Proof. induction a as [|c a IH]; simpl; [reflexivity | unfold chs in *; simpl; rewrite IH; reflexivity]. Qed.

Lemma str_chs (s : string) : str (chs s) = s.
Proof. apply string_of_list_ascii_of_string. Qed.

Lemma csv_go_comma st f r rs l :
  st <> Quoted ->
  csv_go (","%char :: l) st f r rs = csv_go l FieldStart [] (r ++ [str f])%list rs.
Proof. intros H; destruct st; try reflexivity; congruence. Qed.

Lemma csv_go_lf st f r rs l :
  st <> Quoted ->
  csv_go (LF :: l) st f r rs = csv_go l FieldStart [] [] (rs ++ [r ++ [str f]])%list.
Proof. intros H; destruct st; try reflexivity; congruence. Qed.

Lemma csv_go_unquoted (s : chars) acc r rs l :
  forallb (fun c => negb (csv_special c)) s = true ->
  csv_go (s ++ l)%list Unquoted acc r rs = csv_go l Unquoted (acc ++ s)%list r rs.
Proof.
  revert acc; induction s as [|c s IH]; intros acc H; simpl.
  - rewrite app_nil_r; reflexivity.
  - simpl in H. apply andb_prop in H as [Hc Hs].
    unfold csv_special in Hc.
    destruct (c =? ",")%char eqn:E1; [rewrite orb_true_r in Hc; discriminate|].
    destruct (c =? LF)%char eqn:E2; [rewrite orb_true_r in Hc; discriminate|].
    rewrite andb_false_r. rewrite IH by exact Hs. rewrite <- app_assoc. reflexivity.
Qed.

Definition csv_double (c : ascii) : chars :=
  if (c =? dquote)%char then [dquote; dquote] else [c].

Lemma csv_go_quoted (s : chars) acc r rs l :
  csv_go (flat_map csv_double s ++ l)%list Quoted acc r rs = csv_go l Quoted (acc ++ s)%list r rs.
Proof.
  revert acc; induction s as [|c s IH]; intros acc; simpl.
  - rewrite app_nil_r; reflexivity.
  - unfold csv_double at 1. destruct (c =? dquote)%char eqn:E.
    + apply Ascii.eqb_eq in E; subst c. simpl.
      repeat rewrite Ascii.eqb_refl. simpl.
      rewrite IH, <- app_assoc. reflexivity.
    + simpl. rewrite E, IH, <- app_assoc. reflexivity.
Qed.

Lemma csv_go_field (s : string) r rs l :
  exists st, st <> Quoted /\
    csv_go (chs (escapeCsv s) ++ l)%list FieldStart [] r rs = csv_go l st (chs s) r rs.
Proof.
  unfold escapeCsv. destruct (existsb csv_special (chs s)) eqn:E; simpl.
  - exists QuoteSeen; split; [discriminate|].
    unfold chs at 1, str. rewrite list_ascii_of_string_of_list_ascii. simpl.
    rewrite <- app_assoc.
    change (fun c => if (c =? dquote)%char then [dquote; dquote] else [c]) with csv_double.
    rewrite csv_go_quoted. simpl. repeat rewrite Ascii.eqb_refl. reflexivity.
  - assert (Hf : forallb (fun c => negb (csv_special c)) (chs s) = true).
    { apply forallb_forall. intros c Hc.
      destruct (csv_special c) eqn:Ec; [|reflexivity].
      assert (existsb csv_special (chs s) = true) by (apply existsb_exists; eauto).
      congruence. }
    destruct (chs s) as [|c cs] eqn:Es.
    + exists FieldStart; split; [discriminate | reflexivity].
    + exists Unquoted; split; [discriminate|].
      simpl in Hf. apply andb_prop in Hf as [Hc Hcs].
      unfold csv_special in Hc. simpl.
      destruct (c =? ",")%char eqn:E1; [rewrite orb_true_r in Hc; discriminate|].
      destruct (c =? LF)%char eqn:E2; [rewrite orb_true_r in Hc; discriminate|].
      destruct (c =? dquote)%char eqn:E3; [discriminate|]. simpl.
      rewrite csv_go_unquoted by exact Hcs. reflexivity.
Qed.

Lemma csv_go_record (fields : list string) r rs l :
  fields <> [] ->
  csv_go (chs (String.concat "," (map escapeCsv fields)) ++ LF :: l)%list FieldStart [] r rs =
  csv_go l FieldStart [] [] (rs ++ [r ++ fields])%list.
Proof.
  revert r; induction fields as [|a fs IH]; intros r Hne; [congruence|].
  destruct fs as [|b fs].
  - simpl. destruct (csv_go_field a r rs (LF :: l)) as [st [Hst ->]].
    rewrite csv_go_lf by exact Hst. rewrite str_chs. reflexivity.
  - change (String.concat "," (map escapeCsv (a :: b :: fs)))
      with (escapeCsv a ++ "," ++ String.concat "," (map escapeCsv (b :: fs))).
    rewrite chs_app, <- app_assoc.
    destruct (csv_go_field a r rs (chs ("," ++ String.concat "," (map escapeCsv (b :: fs)))
                                   ++ LF :: l)%list) as [st [Hst ->]].
    cbn [chs list_ascii_of_string append app]. rewrite csv_go_comma by exact Hst. rewrite IH by discriminate.
    rewrite str_chs, <- app_assoc. reflexivity.
Qed.

Lemma csv_go_lines (recs : list (list string)) rs :
  recs <> [] -> Forall (fun f => f <> []) recs ->
  csv_go (chs (String.concat newline (map (fun f => String.concat "," (map escapeCsv f)) recs)
               ++ newline)) FieldStart [] [] rs = (rs ++ recs)%list.
Proof.
  revert rs; induction recs as [|x recs IH]; intros rs Hne Hall; [congruence|].
  inversion Hall as [|? ? Hx Hrest]; subst.
  destruct recs as [|y recs].
  - simpl. rewrite chs_app. simpl. rewrite csv_go_record by exact Hx. reflexivity.
  - change (String.concat newline (map (fun f => String.concat "," (map escapeCsv f)) (x :: y :: recs)))
      with (String.concat "," (map escapeCsv x) ++ newline ++
            String.concat newline (map (fun f => String.concat "," (map escapeCsv f)) (y :: recs))).
    rewrite (chs_app (_ ++ _) newline), (chs_app _ (newline ++ _)), <- app_assoc.
    change (chs (newline ++ ?X)) with (LF :: chs X). rewrite <- app_comm_cons.
    rewrite csv_go_record by exact Hx. rewrite <- chs_app, IH by (discriminate || exact Hrest).
    rewrite <- app_assoc. reflexivity.
Qed.

Lemma map_outcome_bind_map {A B C} (f : A -> outcome B) (g : B -> C) (l : list A) out :
  map_outcome (fun x => y <- f x ;; Ok (g y)) l = Ok out ->
  exists ys, map_outcome f l = Ok ys /\ out = map g ys.
Proof.
  revert out; induction l as [|x l IH]; intros out H; simpl in H.
  - injection H as <-. exists []; split; reflexivity.
  - destruct (f x) as [y| |] eqn:Ef; simpl in H; try discriminate.
    destruct (map_outcome (fun x => y <- f x ;; Ok (g y)) l) as [ys| |] eqn:E; simpl in H;
      try discriminate.
    injection H as <-. destruct (IH ys eq_refl) as [zs [Hz ->]].
    exists (y :: zs). simpl. rewrite Ef, Hz. split; reflexivity.
Qed.

(** X14: [serializeCsv] is lossless for a CSV reader: when the result has at
    least one column, reading the CSV output back (RFC 4180, records separated
    by LF) gives the column names as the first record and then, for each row,
    the display values of its cells, in column order. *)
Theorem X14_csv_round_trip (result : query_result) (out : string) :
  res_columns result <> [] ->
  serializeResult result "csv" = Ok out ->
  exists cells,
    map_outcome (fun row => map_outcome (fun column => toDisplayValue (row_get row column))
                                        (res_columns result))
                (normalizedRows result) = Ok cells /\
    csv_read out = res_columns result :: cells.
Proof.
  intros Hne H.
  change (serializeResult result "csv") with (serializeCsv result) in H.
  unfold serializeCsv in H. inv_bind H body Hb. injection H as <-.
  destruct (map_outcome_bind_map _ (fun cells => String.concat "," (map escapeCsv cells)) _ _ Hb)
    as [cells [Hc ->]].
  exists cells; split; [exact Hc|].
  assert (Hall : Forall (fun f : list string => f <> []) (res_columns result :: cells)).
  { constructor; [exact Hne|].
    apply map_outcome_Forall2 in Hc. clear Hb.
    induction Hc as [|row cs rows css Hrow _ IH]; [constructor|].
    constructor; [|exact IH].
    apply map_outcome_length in Hrow. destruct cs; [|discriminate].
    destruct (res_columns result); [congruence | discriminate]. }
  exact (csv_go_lines (res_columns result :: cells) [] ltac:(discriminate) Hall).
Qed.

Definition csv_result : query_result :=
  mk_result
    [mk_row (mk_document "a" "a.md" [] []) [] [("title", VStr "a, b"); ("note", VStr (String dquote "x"))];
     mk_row (mk_document "b" "b.md" [] []) [] [("title", VStr (String LF "")); ("note", VList [VNum 1; VNull])]]
    ["title"; "note"] None None 2 2 (mk_diagnostics [] []).

Lemma X14_csv_round_trip_witness :
  let out := match serializeResult csv_result "csv" with Ok s => s | _ => "" end in
  serializeResult csv_result "csv" = Ok out /\
  exists cells,
    map_outcome (fun row => map_outcome (fun column => toDisplayValue (row_get row column))
                                        (res_columns csv_result))
                (normalizedRows csv_result) = Ok cells /\
    csv_read out = res_columns csv_result :: cells.
Proof.
  intros out. assert (H : serializeResult csv_result "csv" = Ok out) by (vm_compute; reflexivity).
  split; [exact H|]. apply (X14_csv_round_trip csv_result out); [discriminate | exact H].
Defined.

Definition no_lf (s : string) : Prop := ~ In LF (chs s).

Definition no_lfb (s : string) : bool := negb (existsb (fun c => (c =? LF)%char) (chs s)).

Lemma no_lfb_spec s : no_lfb s = true -> no_lf s.
Proof.
  unfold no_lfb, no_lf. intros H Hin.
  assert (existsb (fun c => (c =? LF)%char) (chs s) = true)
    by (apply existsb_exists; exists LF; split; [exact Hin | apply Ascii.eqb_refl]).
  rewrite H0 in H. discriminate.
Qed.

Lemma no_lf_app a b : no_lf a -> no_lf b -> no_lf (a ++ b).
Proof. unfold no_lf. rewrite chs_app, in_app_iff. tauto. Qed.

Lemma no_lf_concat sep l : no_lf sep -> Forall no_lf l -> no_lf (String.concat sep l).
Proof.
  intros Hs Hl. induction Hl as [|x l Hx Hl IH]; [apply no_lfb_spec; reflexivity|].
  destruct l as [|y l]; [exact Hx|].
  change (String.concat sep (x :: y :: l)) with (x ++ sep ++ String.concat sep (y :: l)).
  apply no_lf_app; [exact Hx | apply no_lf_app; [exact Hs | exact IH]].
Qed.

Lemma json_escape_char_no_lf (c : ascii) :
  existsb (fun d => (d =? LF)%char) (json_escape_char c) = false.
Proof. destruct c as [[] [] [] [] [] [] [] []]; reflexivity. Qed.

Lemma json_quote_no_lf s : no_lf (json_quote s).
Proof.
  unfold no_lf, json_quote, chs, str. rewrite list_ascii_of_string_of_list_ascii.
  intros Hin. simpl in Hin. destruct Hin as [Hq|Hin]; [discriminate|].
  apply in_app_or in Hin as [Hin|[Hq|[]]]; [|discriminate].
  apply in_flat_map in Hin as [c [_ Hc]].
  pose proof (json_escape_char_no_lf c) as E.
  assert (existsb (fun d => (d =? LF)%char) (json_escape_char c) = true)
    by (apply existsb_exists; exists LF; split; [exact Hc | apply Ascii.eqb_refl]).
  congruence.
Qed.

Lemma digits_of_no_lf fuel n acc :
  0 <= n -> ~ In LF acc -> ~ In LF (digits_of fuel n acc).
Proof.
  revert n acc; induction fuel as [|f IH]; intros n acc Hn Hacc; simpl; [exact Hacc|].
  assert (Hd : ~ In LF (ascii_of_nat (48 + Z.to_nat (n mod 10)) :: acc)).
  { intros [Heq|Hin]; [|exact (Hacc Hin)].
    assert (Hm : 0 <= n mod 10 < 10) by (apply Z.mod_pos_bound; lia).
    apply (f_equal nat_of_ascii) in Heq.
    rewrite nat_ascii_embedding in Heq by lia.
    unfold LF in Heq. rewrite nat_ascii_embedding in Heq by lia. lia. }
  destruct (n / 10 =? 0); [exact Hd|].
  apply IH; [apply Z.div_pos; lia | exact Hd].
Qed.

Lemma js_string_of_int_no_lf n : no_lf (js_string_of_int n).
Proof.
  unfold no_lf, js_string_of_int.
  assert (H := digits_of_no_lf (Pos.size_nat (Z.to_pos (Z.abs n + 1))) (Z.abs n) []
                 ltac:(lia) (fun h => h)).
  destruct (n <? 0); unfold chs, str; rewrite list_ascii_of_string_of_list_ascii;
    [intros [Heq|Hin]; [discriminate | exact (H Hin)] | exact H].
Qed.

Section ValueInd.
Variable P : value -> Prop.
Hypothesis P_list : forall items, Forall P items -> P (VList items).
Hypothesis P_obj : forall fs, Forall (fun kv => P (snd kv)) fs -> P (VObj fs).
Hypothesis P_map : forall es, Forall (fun kv => P (snd kv)) es -> P (VMap es).
Hypothesis P_leaf : forall v, match v with VList _ | VObj _ | VMap _ => False | _ => True end -> P v.

(** Induction on values through the lists they hold. *)
Fixpoint value_deep_ind (v : value) : P v :=
  match v as v0 return P v0 with
  | VList items =>
      P_list items
        ((fix go (l : list value) : Forall P l :=
            match l with
            | [] => Forall_nil P
            | x :: l' => @Forall_cons _ P x l' (value_deep_ind x) (go l')
            end) items)
  | VObj fs =>
      P_obj fs
        ((fix go (l : list (string * value)) : Forall (fun kv => P (snd kv)) l :=
            match l with
            | [] => Forall_nil _
            | (k, x) :: l' => @Forall_cons _ (fun kv => P (snd kv)) (k, x) l' (value_deep_ind x) (go l')
            end) fs)
  | VMap es =>
      P_map es
        ((fix go (l : list (string * value)) : Forall (fun kv => P (snd kv)) l :=
            match l with
            | [] => Forall_nil _
            | (k, x) :: l' => @Forall_cons _ (fun kv => P (snd kv)) (k, x) l' (value_deep_ind x) (go l')
            end) es)
  | VUndef => P_leaf VUndef I
  | VNull => P_leaf VNull I
  | VBool b => P_leaf (VBool b) I
  | VNum n => P_leaf (VNum n) I
  | VStr s => P_leaf (VStr s) I
  | VDate t => P_leaf (VDate t) I
  | VRegExp b f => P_leaf (VRegExp b f) I
  | VFun n => P_leaf (VFun n) I
  end.
End ValueInd.

Lemma json_stringify_no_lf (v : value) (s : string) :
  json_stringify v = Some s -> no_lf s.
Proof.
  revert s. induction v as [items Hall|fs Hall|es _|v Hv] using value_deep_ind.
  - intros s H. simpl in H. injection H as <-.
    change (String "["%char ?X) with ("[" ++ X).
    apply no_lf_app; [apply no_lfb_spec; reflexivity|].
    apply no_lf_app; [|apply no_lfb_spec; reflexivity].
    apply no_lf_concat; [apply no_lfb_spec; reflexivity|].
    induction Hall as [|x l Hx _ IH]; constructor; [|exact IH].
    destruct (json_stringify x) eqn:E; [exact (Hx _ eq_refl) | apply no_lfb_spec; reflexivity].
  - intros s H. simpl in H. injection H as <-.
    change (String "{"%char ?X) with ("{" ++ X).
    apply no_lf_app; [apply no_lfb_spec; reflexivity|].
    apply no_lf_app; [|apply no_lfb_spec; reflexivity].
    apply no_lf_concat; [apply no_lfb_spec; reflexivity|].
    apply Forall_forall. intros m Hm.
    apply in_flat_map in Hm as [[k o] [Hin Hm]].
    rewrite own_keys_order_In in Hin.
    destruct o as [t|]; [|destruct Hm]. destruct Hm as [<-|[]].
    change (no_lf (json_quote k ++ ":" ++ t)).
    apply no_lf_app; [apply json_quote_no_lf|].
    apply no_lf_app; [apply no_lfb_spec; reflexivity|].
    clear - Hall Hin. induction Hall as [|[k' x] l Hx _ IH]; [destruct Hin|].
    destruct Hin as [Heq|Hin]; [injection Heq as -> Ht; exact (Hx _ Ht) | exact (IH Hin)].
  - intros s H. simpl in H. injection H as <-. apply no_lfb_spec; reflexivity.
  - intros s H. destruct v; try contradiction; simpl in H; try discriminate;
      injection H as <-;
      solve [ apply no_lfb_spec; reflexivity | destruct b; apply no_lfb_spec; reflexivity
            | apply js_string_of_int_no_lf | apply json_quote_no_lf ].
Qed.

Lemma split_on_none c a : ~ In c a -> split_on c a = [a].
Proof.
  induction a as [|d a IH]; intros H; [reflexivity|]. simpl.
  destruct (d =? c)%char eqn:E.
  - apply Ascii.eqb_eq in E. subst d. exfalso. apply H. left. reflexivity.
  - rewrite IH by (intros Hin; apply H; right; exact Hin). reflexivity.
Qed.

Lemma split_on_sep c a b : ~ In c a -> split_on c (a ++ c :: b)%list = a :: split_on c b.
Proof.
  induction a as [|d a IH]; intros H; simpl; [rewrite Ascii.eqb_refl; reflexivity|].
  destruct (d =? c)%char eqn:E.
  - apply Ascii.eqb_eq in E. subst d. exfalso. apply H. left. reflexivity.
  - rewrite IH by (intros Hin; apply H; right; exact Hin). reflexivity.
Qed.

Lemma split_lines_concat (ls : list string) :
  ls <> [] -> Forall no_lf ls ->
  split_lines (String.concat newline ls ++ newline) = (ls ++ [""])%list.
Proof.
  intros Hne Hall. unfold split_lines.
  enough (E : split_on LF (chs (String.concat newline ls ++ newline)) = (map chs ls ++ [[]])%list).
  { rewrite E, map_app, map_map. simpl.
    rewrite (map_ext (fun x => str (chs x)) (fun x => x)) by apply str_chs.
    rewrite map_id. reflexivity. }
  revert Hne. induction Hall as [|x ls Hx Hls IH]; intros Hne; [congruence|].
  destruct ls as [|y ls].
  - simpl. rewrite chs_app. apply split_on_sep. exact Hx.
  - change (String.concat newline (x :: y :: ls))
      with (x ++ newline ++ String.concat newline (y :: ls)).
    rewrite (chs_app (_ ++ _) newline), (chs_app _ (newline ++ _)), <- app_assoc.
    change (chs (newline ++ ?X)) with (LF :: chs X). rewrite <- app_comm_cons.
    rewrite split_on_sep by exact Hx. rewrite <- chs_app, IH by discriminate.
    reflexivity.
Qed.

Lemma jsonl_rows_ok (rows : list (list (string * value))) :
  exists lines,
    map_outcome (fun row => match json_stringify (VObj row) with
                            | Some s => Ok s
                            | None => Outside
                            end) rows = Ok lines /\
    Forall2 (fun row line => json_stringify (VObj row) = Some line) rows lines.
Proof.
  induction rows as [|row rows [lines [Hl Hf]]]; [exists []; split; constructor|].
  destruct (json_stringify (VObj row)) as [s|] eqn:E; [|discriminate].
  exists (s :: lines). split; [|constructor; assumption].
  cbn [map_outcome]. rewrite E, Hl. reflexivity.
Qed.

(** X15: the [jsonl] output always succeeds and holds one line per row: split
    at LF it gives the [JSON.stringify] text of each projected row, in order,
    followed by the empty string after the final LF. With no rows the output
    is a single LF. *)
Theorem X15_jsonl_lines (result : query_result) :
  exists out lines,
    serializeResult result "jsonl" = Ok out /\
    Forall2 (fun row line => json_stringify (VObj row) = Some line) (normalizedRows result) lines /\
    (res_rows result = [] -> out = newline) /\
    (res_rows result <> [] -> split_lines out = (lines ++ [""])%list).
Proof.
  destruct (jsonl_rows_ok (normalizedRows result)) as [lines [Hl Hf]].
  exists (String.concat newline lines ++ newline), lines.
  split; [change (serializeResult result "jsonl") with
            (lines <- map_outcome (fun row => match json_stringify (VObj row) with
                                              | Some s => Ok s
                                              | None => Outside
                                              end) (normalizedRows result) ;;
             Ok (String.concat newline lines ++ newline)); rewrite Hl; reflexivity|].
  split; [exact Hf|]. split.
  - intros Hr. unfold normalizedRows in Hf. rewrite Hr in Hf. inversion Hf. reflexivity.
  - intros Hr. apply split_lines_concat.
    + intros ->. inversion Hf as [Hn|]. unfold normalizedRows in Hn.
      destruct (res_rows result); [congruence | discriminate].
    + clear Hl. induction Hf as [|row line rows lines' Hrow _ IH]; constructor; [|exact IH].
      exact (json_stringify_no_lf _ _ Hrow).
Qed.

(* ------------------------------------------------------------------------- *)
(** ** Query statistics, filters and views *)

Lemma collectRows_counts off G M A compiled view fbp docs rows0 errors0 rows errors :
  collectRows off G M A compiled view fbp docs rows0 errors0 = Ok (rows, errors) ->
  exists rs es, rows = (rows0 ++ rs)%list /\ errors = (errors0 ++ es)%list /\
                (length rs + length es <= length docs)%nat.
Proof.
  revert rows0 errors0.
  induction docs as [|d docs IH]; intros rows0 errors0 H; simpl in H.
  - injection H as <- <-. exists [], []. rewrite !app_nil_r. simpl. repeat split; lia.
  - destruct (process_document off G M A compiled view fbp d) as [[r|]|e|]; try discriminate.
    + destruct (IH _ _ H) as [rs [es [-> [-> Hl]]]].
      exists (r :: rs), es. rewrite <- !app_assoc. simpl. repeat split; lia.
    + destruct (IH _ _ H) as [rs [es [-> [-> Hl]]]].
      exists rs, es. simpl. repeat split; lia.
    + destruct (IH _ _ H) as [rs [es [-> [-> Hl]]]].
      exists rs, (row_error d e :: es). rewrite <- !app_assoc. simpl. repeat split; lia.
Qed.

(** X16: the statistics of a query result: [scannedFiles] is the number of
    documents, [matchedRows] the number of rows returned (after the limit, so
    never above the view's limit), and the errors are the initial ones followed
    by new ones, with at most one row or one error per document. *)
Theorem X16_executeCompiledQuery_stats off G M A CS compiled viewName docs diag0 res :
  executeCompiledQuery off G M A CS compiled viewName docs diag0 = Ok res ->
  let initial := diag_errors (match diag0 with Some d => d | None => mk_diagnostics [] [] end) in
  exists view,
    getView (cq_spec compiled) viewName = Ok view /\
    res_scannedFiles res = length docs /\
    res_matchedRows res = length (res_rows res) /\
    (forall n, view_limit view = Some n -> (res_matchedRows res <= n)%nat) /\
    exists new_errors,
      diag_errors (res_diagnostics res) = (initial ++ new_errors)%list /\
      (res_matchedRows res + length new_errors <= length docs)%nat.
Proof.
  intros H. cbv zeta. unfold executeCompiledQuery in H.
  apply bind_Ok_inv in H as [view [Hv H]].
  apply bind_Ok_inv in H as [[rows errors] [Hc H]].
  apply bind_Ok_inv in H as [sorted [Hs H]].
  apply bind_Ok_inv in H as [projected [Hp H]].
  apply bind_Ok_inv in H as [groups [_ H]].
  apply bind_Ok_inv in H as [summaries [_ H]].
  injection H as <-. simpl.
  apply map_outcome_length in Hp.
  destruct (stableSort_spec _ _ _ _ _ _ _ _ _ Hs) as [Hperm _].
  apply Permutation_length in Hperm.
  destruct (collectRows_counts _ _ _ _ _ _ _ _ _ _ _ _ Hc) as [rs [es [Hr [He Hl]]]].
  subst rows. simpl in Hperm.
  exists view. split; [exact Hv|]. split; [reflexivity|]. split; [reflexivity|].
  split.
  - intros n Hn. unfold applyLimit in Hp. rewrite Hn in Hp.
    rewrite <- Hp, length_firstn. lia.
  - exists es. split; [exact He|].
    assert (length (applyLimit sorted view) <= length sorted)%nat.
    { unfold applyLimit. destruct (view_limit view); [rewrite length_firstn; lia | lia]. }
    lia.
Qed.

Definition empty_result : query_result := mk_result [] [] None None 0 0 (mk_diagnostics [] []).

Definition score_spec : query_spec := mk_query_spec None None None None [score_view].

Definition score_compiled : compiled_query :=
  match compileQuery score_spec (Some true) with Ok c => c | _ => iso_compiled end.

Definition score_result : query_result :=
  match executeCompiledQuery 0 (fun _ => None) (fun _ _ => None) (fun _ => None)
          (fun _ _ _ _ => Ok None) score_compiled None score_docs (Some (mk_diagnostics ["earlier"] []))
  with Ok r => r | _ => empty_result end.

Lemma X16_executeCompiledQuery_stats_witness :
  executeCompiledQuery 0 (fun _ => None) (fun _ _ => None) (fun _ => None)
    (fun _ _ _ _ => Ok None) score_compiled None score_docs (Some (mk_diagnostics ["earlier"] []))
  = Ok score_result /\
  exists view,
    getView (cq_spec score_compiled) None = Ok view /\
    res_scannedFiles score_result = length score_docs /\
    res_matchedRows score_result = length (res_rows score_result) /\
    (forall n, view_limit view = Some n -> (res_matchedRows score_result <= n)%nat) /\
    exists new_errors,
      diag_errors (res_diagnostics score_result) = (["earlier"] ++ new_errors)%list /\
      (res_matchedRows score_result + length new_errors <= length score_docs)%nat.
Proof.
  assert (H : executeCompiledQuery 0 (fun _ => None) (fun _ _ => None) (fun _ => None)
                (fun _ _ _ _ => Ok None) score_compiled None score_docs
                (Some (mk_diagnostics ["earlier"] [])) = Ok score_result)
    by (vm_compute; reflexivity).
  split; [exact H|].
  exact (X16_executeCompiledQuery_stats 0 (fun _ => None) (fun _ _ => None) (fun _ => None)
           (fun _ _ _ _ => Ok None) score_compiled None score_docs
           (Some (mk_diagnostics ["earlier"] [])) score_result H).
Defined.

(** X17: an [and] list is evaluated left to right and stops at the first entry
    that rejects the row: the filter then rejects the row, and the entries
    after it, the [or] list and the [not] filter are never evaluated (an error
    they would throw does not surface). *)
Theorem X17_filter_and_short_circuit off G M A r strict fbp
  (l1 : list compiled_filter) (x : compiled_filter) (l2 : list compiled_filter) o n :
  Forall (fun f => evaluateFilter off G M A f r strict fbp = Ok true) l1 ->
  evaluateFilter off G M A x r strict fbp = Ok false ->
  evaluateFilter off G M A (CTree (Some (l1 ++ x :: l2)%list) o n) r strict fbp = Ok false.
Proof.
  intros H1 Hx. simpl.
  induction H1 as [|y l1 Hy _ IH]; simpl.
  - rewrite Hx. reflexivity.
  - rewrite Hy. exact IH.
Qed.

(** X18: an [or] list is evaluated left to right after the [and] list and
    stops at its first accepting entry; the entries after it are never
    evaluated, and the filter then behaves as if it had no [or] list. An empty
    [or] list is ignored too (it does not reject every row). *)
Theorem X18_filter_or_first_accepting off G M A r strict fbp a
  (l1 : list compiled_filter) (x : compiled_filter) (l2 : list compiled_filter) n :
  Forall (fun f => evaluateFilter off G M A f r strict fbp = Ok false) l1 ->
  evaluateFilter off G M A x r strict fbp = Ok true ->
  evaluateFilter off G M A (CTree a (Some (l1 ++ x :: l2)%list) n) r strict fbp =
  evaluateFilter off G M A (CTree a None n) r strict fbp /\
  evaluateFilter off G M A (CTree a (Some []) n) r strict fbp =
  evaluateFilter off G M A (CTree a None n) r strict fbp.
Proof.
  intros H1 Hx. split; [|reflexivity]. simpl.
  match goal with |- bind ?A _ = bind ?A _ => destruct A as [b| |]; simpl; try reflexivity end.
  destruct (negb b); [reflexivity|].
  assert (Hsome : forall l, Forall (fun f => evaluateFilter off G M A f r strict fbp = Ok false) l ->
    (fix some (l : list compiled_filter) : outcome bool :=
       match l with
       | [] => Ok false
       | y :: l' => b <- evaluateFilter off G M A y r strict fbp ;; if b then Ok true else some l'
       end) (l ++ x :: l2)%list = Ok true).
  { intros l Hl. induction Hl as [|y l Hy _ IH]; simpl; [rewrite Hx; reflexivity|].
    rewrite Hy. exact IH. }
  destruct l1 as [|y l1]; simpl.
  - rewrite Hx. reflexivity.
  - inversion H1 as [|? ? Hy Hl1]; subst. rewrite Hy. simpl.
    rewrite (Hsome l1 Hl1). reflexivity.
Qed.

(** Example filters: constant ones, and one reading [note.missing.x], which
    throws on a note without [missing]. *)
Definition f_true : compiled_filter := CExpr (ELiteral (VBool true) "true").
Definition f_false : compiled_filter := CExpr (ELiteral (VBool false) "false").
Definition f_throw : compiled_filter :=
  CExpr (EMember (EMember (EIdentifier "note") "missing") "x").
Definition w_row : row := mk_row (mk_document "a" "a.md" [] []) [] [].

Lemma X17_filter_and_short_circuit_witness :
  Forall (fun f => evaluateFilter 0 (fun _ => None) (fun _ _ => None) (fun _ => None) f w_row true
                     (VMap []) = Ok true) [f_true] /\
  evaluateFilter 0 (fun _ => None) (fun _ _ => None) (fun _ => None) f_false w_row true (VMap [])
    = Ok false /\
  (exists e, evaluateFilter 0 (fun _ => None) (fun _ _ => None) (fun _ => None) f_throw w_row true
               (VMap []) = Throw e) /\
  evaluateFilter 0 (fun _ => None) (fun _ _ => None) (fun _ => None)
    (CTree (Some ([f_true] ++ f_false :: [f_throw])%list) (Some [f_throw]) (Some f_throw))
    w_row true (VMap []) = Ok false.
Proof.
  assert (H1 : Forall (fun f => evaluateFilter 0 (fun _ => None) (fun _ _ => None) (fun _ => None)
                                  f w_row true (VMap []) = Ok true) [f_true])
    by (constructor; [vm_compute; reflexivity | constructor]).
  assert (Hx : evaluateFilter 0 (fun _ => None) (fun _ _ => None) (fun _ => None) f_false w_row
                 true (VMap []) = Ok false) by (vm_compute; reflexivity).
  split; [exact H1|]. split; [exact Hx|]. split; [eexists; vm_compute; reflexivity|].
  exact (X17_filter_and_short_circuit 0 (fun _ => None) (fun _ _ => None) (fun _ => None) w_row
           true (VMap []) [f_true] f_false [f_throw] (Some [f_throw]) (Some f_throw) H1 Hx).
Defined.

Lemma X18_filter_or_first_accepting_witness :
  Forall (fun f => evaluateFilter 0 (fun _ => None) (fun _ _ => None) (fun _ => None) f w_row true
                     (VMap []) = Ok false) [f_false] /\
  evaluateFilter 0 (fun _ => None) (fun _ _ => None) (fun _ => None) f_true w_row true (VMap [])
    = Ok true /\
  evaluateFilter 0 (fun _ => None) (fun _ _ => None) (fun _ => None)
    (CTree (Some [f_true]) (Some ([f_false] ++ f_true :: [f_throw])%list) None)
    w_row true (VMap []) =
  evaluateFilter 0 (fun _ => None) (fun _ _ => None) (fun _ => None)
    (CTree (Some [f_true]) None None) w_row true (VMap []) /\
  evaluateFilter 0 (fun _ => None) (fun _ _ => None) (fun _ => None)
    (CTree (Some [f_true]) (Some []) None) w_row true (VMap []) =
  evaluateFilter 0 (fun _ => None) (fun _ _ => None) (fun _ => None)
    (CTree (Some [f_true]) None None) w_row true (VMap []).
Proof.
  assert (H1 : Forall (fun f => evaluateFilter 0 (fun _ => None) (fun _ _ => None) (fun _ => None)
                                  f w_row true (VMap []) = Ok false) [f_false])
    by (constructor; [vm_compute; reflexivity | constructor]).
  assert (Hx : evaluateFilter 0 (fun _ => None) (fun _ _ => None) (fun _ => None) f_true w_row
                 true (VMap []) = Ok true) by (vm_compute; reflexivity).
  split; [exact H1|]. split; [exact Hx|].
  exact (X18_filter_or_first_accepting 0 (fun _ => None) (fun _ _ => None) (fun _ => None) w_row
           true (VMap []) (Some [f_true]) [f_false] f_true [f_throw] None H1 Hx).
Defined.

(** X19: a requested view name that no view has makes the query throw
    ["view not found: <name>"] before any document is read; an empty name
    selects the first view, as no name does. *)
Theorem X19_unknown_view off G M A CS compiled (name : string) docs diag0 :
  name <> "" ->
  Forall (fun v => view_name v <> name) (spec_views (cq_spec compiled)) ->
  executeCompiledQuery off G M A CS compiled (Some name) docs diag0 =
    Throw (mk_error "Error" ("view not found: " ++ name)) /\
  getView (cq_spec compiled) (Some "") = getView (cq_spec compiled) None.
Proof.
  intros Hne Hall. split; [|reflexivity].
  unfold executeCompiledQuery, getView.
  destruct (String.eqb name "") eqn:E; [apply String.eqb_eq in E; congruence|].
  assert (Hf : find (fun v => String.eqb (view_name v) name) (spec_views (cq_spec compiled)) = None).
  { induction Hall as [|v vs Hv _ IH]; [reflexivity|]. simpl.
    destruct (String.eqb (view_name v) name) eqn:Ev; [apply String.eqb_eq in Ev; congruence|].
    exact IH. }
  rewrite Hf. reflexivity.
Qed.

Lemma X19_unknown_view_witness :
  "list" <> "" /\
  Forall (fun v => view_name v <> "list") (spec_views (cq_spec score_compiled)) /\
  executeCompiledQuery 0 (fun _ => None) (fun _ _ => None) (fun _ => None)
    (fun _ _ _ _ => Ok None) score_compiled (Some "list") score_docs None =
    Throw (mk_error "Error" ("view not found: " ++ "list")) /\
  getView (cq_spec score_compiled) (Some "") = getView (cq_spec score_compiled) None.
Proof.
  assert (Hn : "list" <> "") by discriminate.
  assert (Hv : Forall (fun v => view_name v <> "list") (spec_views (cq_spec score_compiled)))
    by (vm_compute; constructor; [discriminate | constructor]).
  split; [exact Hn|]. split; [exact Hv|].
  exact (X19_unknown_view 0 (fun _ => None) (fun _ _ => None) (fun _ => None)
           (fun _ _ _ _ => Ok None) score_compiled "list" score_docs None Hn Hv).
Defined.

(* ------------------------------------------------------------------------- *)
(** ** Normalising sort lists *)

Lemma chs_colon (p d : string) : chs (p ++ ":" ++ d) = (chs p ++ ":"%char :: chs d)%list.
Proof. rewrite chs_app. reflexivity. Qed.

(** X20: a sort entry written as a string ["property:direction"] is split at
    its colons: the property is the text before the first colon, trimmed; the
    direction is descending exactly when the text between the first and the
    second colon, lower-cased but not trimmed, is ["desc"], and ascending
    otherwise or when there is no colon; text after a second colon is
    ignored. So ["Score:DESC"] sorts descending and ["score: desc"] ascending. *)
Theorem X20_parseSortSpec (p d rest : string) :
  ~ In ":"%char (chs p) -> ~ In ":"%char (chs d) ->
  parseSortSpec p = mk_sort_spec (str (js_trim (chs p))) "asc" /\
  parseSortSpec (p ++ ":" ++ d) =
    mk_sort_spec (str (js_trim (chs p)))
                 (if String.eqb (toLowerCase d) "desc" then "desc" else "asc") /\
  parseSortSpec (p ++ ":" ++ d ++ ":" ++ rest) = parseSortSpec (p ++ ":" ++ d).
Proof.
  intros Hp Hd. unfold parseSortSpec.
  rewrite !chs_colon, (split_on_none _ (chs p) Hp), !(split_on_sep _ (chs p) _ Hp).
  rewrite (split_on_none _ (chs d) Hd), (split_on_sep _ (chs d) _ Hd), str_chs.
  repeat split; reflexivity.
Qed.

Lemma X20_parseSortSpec_witness :
  ~ In ":"%char (chs "score") /\ ~ In ":"%char (chs " DESC") /\
  parseSortSpec "score" = mk_sort_spec (str (js_trim (chs "score"))) "asc" /\
  parseSortSpec ("score" ++ ":" ++ " DESC") =
    mk_sort_spec (str (js_trim (chs "score")))
                 (if String.eqb (toLowerCase " DESC") "desc" then "desc" else "asc") /\
  parseSortSpec ("score" ++ ":" ++ " DESC" ++ ":" ++ "x") = parseSortSpec ("score" ++ ":" ++ " DESC").
Proof.
  assert (Hp : ~ In ":"%char (chs "score")) by (simpl; intuition discriminate).
  assert (Hd : ~ In ":"%char (chs " DESC")) by (simpl; intuition discriminate).
  split; [exact Hp|]. split; [exact Hd|].
  exact (X20_parseSortSpec "score" " DESC" "x" Hp Hd).
Defined.

(** The entries [normalizeSortList] accepts: a string, or a non-array object
    whose [by] or [property] is a string. *)
Definition sort_entry_valid (entry : value) : bool :=
  match entry with
  | VStr _ => true
  | _ =>
      match isPlainObject entry, js_get entry "by", js_get entry "property" with
      | true, VStr _, _ => true
      | true, _, VStr _ => true
      | _, _, _ => false
      end
  end.

Definition sort_direction_ok (s : sort_spec) : Prop := direction s = "asc" \/ direction s = "desc".

Lemma parseSortSpec_direction s : sort_direction_ok (parseSortSpec s).
Proof.
  unfold sort_direction_ok, parseSortSpec. simpl.
  destruct (String.eqb _ "desc"); [right | left]; reflexivity.
Qed.

Lemma normalizeDirection_ok v d : normalizeDirection v = Ok d -> d = "asc" \/ d = "desc".
Proof.
  unfold normalizeDirection. intros H. apply bind_Ok_inv in H as [s [_ H]].
  injection H as <-. destruct (String.eqb _ "desc"); [right | left]; reflexivity.
Qed.

Lemma sort_entry_valid_obj fs :
  sort_entry_valid (VObj fs) =
  match js_get (VObj fs) "by", js_get (VObj fs) "property" with
  | VStr _, _ => true
  | _, VStr _ => true
  | _, _ => false
  end.
Proof. reflexivity. Qed.

Lemma normalize_sort_entries_spec path (l : list value) :
  forall index output issues out iss,
  normalize_sort_entries path index l output issues = Ok (out, iss) ->
  exists new_out,
    out = (output ++ new_out)%list /\
    iss = (issues ++ flat_map (fun ie => if sort_entry_valid (snd ie) then []
                                         else [sort_entry_issue path (fst ie)])
                              (combine (seq index (length l)) l))%list /\
    length new_out = length (filter sort_entry_valid l) /\
    Forall sort_direction_ok new_out.
Proof.
  induction l as [|e l IH]; intros index output issues out iss H.
  - simpl in H. injection H as <- <-. exists []. rewrite !app_nil_r.
    repeat split; constructor.
  - assert (Keep : forall sp, sort_direction_ok sp -> sort_entry_valid e = true ->
              normalize_sort_entries path (S index) l (output ++ [sp])%list issues = Ok (out, iss) ->
              exists new_out,
                out = (output ++ new_out)%list /\
                iss = (issues ++ flat_map (fun ie => if sort_entry_valid (snd ie) then []
                                                     else [sort_entry_issue path (fst ie)])
                                          (combine (seq index (length (e :: l))) (e :: l)))%list /\
                length new_out = length (filter sort_entry_valid (e :: l)) /\
                Forall sort_direction_ok new_out).
    { intros sp Hsp Hv H'. destruct (IH _ _ _ _ _ H') as [no [Ho [Hi [Hl Hf]]]].
      exists (sp :: no). simpl. rewrite Hv. simpl.
      rewrite Ho, <- app_assoc. repeat split; [exact Hi | simpl; f_equal; exact Hl |].
      constructor; assumption. }
    assert (Drop : sort_entry_valid e = false ->
              normalize_sort_entries path (S index) l output
                (issues ++ [sort_entry_issue path index])%list = Ok (out, iss) ->
              exists new_out,
                out = (output ++ new_out)%list /\
                iss = (issues ++ flat_map (fun ie => if sort_entry_valid (snd ie) then []
                                                     else [sort_entry_issue path (fst ie)])
                                          (combine (seq index (length (e :: l))) (e :: l)))%list /\
                length new_out = length (filter sort_entry_valid (e :: l)) /\
                Forall sort_direction_ok new_out).
    { intros Hv H'. destruct (IH _ _ _ _ _ H') as [no [Ho [Hi [Hl Hf]]]].
      exists no. simpl. rewrite Hv. simpl.
      rewrite Hi, <- app_assoc. repeat split; assumption. }
    destruct e as [| |b|n|s|t|body flags|items|fs|es|nm];
      cbn [normalize_sort_entries isPlainObject] in H;
      try (apply Drop; [reflexivity | exact H]).
    + apply (Keep (parseSortSpec s)); [apply parseSortSpec_direction | reflexivity | exact H].
    + destruct (js_get (VObj fs) "by") eqn:Eb; destruct (js_get (VObj fs) "property") eqn:Ep;
        try (apply Drop; [rewrite sort_entry_valid_obj, Eb; try rewrite Ep; reflexivity | exact H]);
        apply bind_Ok_inv in H as [d [Hd H]];
        (refine (Keep _ _ _ H); [exact (normalizeDirection_ok _ _ Hd)
                                 | rewrite sort_entry_valid_obj, Eb; try rewrite Ep; reflexivity]).
Qed.

Lemma normalize_sort_entries_strings path (ss : list string) :
  forall index output issues,
  normalize_sort_entries path index (map VStr ss) output issues =
  Ok ((output ++ map parseSortSpec ss)%list, issues).
Proof.
  induction ss as [|s ss IH]; intros index output issues; simpl.
  - rewrite app_nil_r. reflexivity.
  - rewrite IH, <- app_assoc. reflexivity.
Qed.

(** X21: [normalizeSortList] on an array handles each entry on its own: a
    string is read by [parseSortSpec], an object by its [by] property (or else
    its [property] property) and its [direction]; any other entry is skipped
    with one issue ["<path>[<index>] must be ..."]. So the issues are the
    initial ones followed by one per rejected entry, in order; there is one
    sort key per accepted entry; every direction is ["asc"] or ["desc"]; and a
    list of strings gives their [parseSortSpec] readings with no issue. *)
Theorem X21_normalizeSortList (entries : list value) (path : string) (issues0 : list string)
  (out : list sort_spec) (issues : list string) :
  normalizeSortList (VList entries) path issues0 = Ok (Some out, issues) ->
  issues = (issues0 ++ flat_map (fun ie => if sort_entry_valid (snd ie) then []
                                           else [sort_entry_issue path (fst ie)])
                                (combine (seq 0 (length entries)) entries))%list /\
  length out = length (filter sort_entry_valid entries) /\
  Forall sort_direction_ok out /\
  (forall ss, entries = map VStr ss -> out = map parseSortSpec ss /\ issues = issues0).
Proof.
  unfold normalizeSortList. intros H.
  apply bind_Ok_inv in H as [[o iss] [Hl H]]. injection H as <- <-. simpl.
  destruct (normalize_sort_entries_spec path entries 0 [] issues0 o iss Hl)
    as [no [Ho [Hi [Hlen Hf]]]].
  simpl in Ho. subst o.
  split; [exact Hi|]. split; [exact Hlen|]. split; [exact Hf|].
  intros ss Hss. subst entries. rewrite normalize_sort_entries_strings in Hl.
  injection Hl as Ho Hiss. split; [symmetry; exact Ho | symmetry; exact Hiss].
Qed.

Definition sort_entries_example : list value :=
  [VStr "score:desc"; VNum 3; VObj [("property", VStr "name"); ("direction", VStr "DESC")]].

Lemma X21_normalizeSortList_witness :
  normalizeSortList (VList sort_entries_example) "views[0].sort" [] =
    Ok (Some [mk_sort_spec "score" "desc"; mk_sort_spec "name" "desc"],
        ["views[0].sort[1] must be a string (property:direction) or sort object"]) /\
  (["views[0].sort[1] must be a string (property:direction) or sort object"] =
     ([] ++ flat_map (fun ie => if sort_entry_valid (snd ie) then []
                                else [sort_entry_issue "views[0].sort" (fst ie)])
                     (combine (seq 0 (length sort_entries_example)) sort_entries_example))%list /\
   length [mk_sort_spec "score" "desc"; mk_sort_spec "name" "desc"] =
     length (filter sort_entry_valid sort_entries_example) /\
   Forall sort_direction_ok [mk_sort_spec "score" "desc"; mk_sort_spec "name" "desc"] /\
   (forall ss, sort_entries_example = map VStr ss ->
      [mk_sort_spec "score" "desc"; mk_sort_spec "name" "desc"] = map parseSortSpec ss /\
      ["views[0].sort[1] must be a string (property:direction) or sort object"] = [])).
Proof.
  assert (H : normalizeSortList (VList sort_entries_example) "views[0].sort" [] =
    Ok (Some [mk_sort_spec "score" "desc"; mk_sort_spec "name" "desc"],
        ["views[0].sort[1] must be a string (property:direction) or sort object"]))
    by (vm_compute; reflexivity).
  split; [exact H|].
  exact (X21_normalizeSortList sort_entries_example "views[0].sort" [] _ _ H).
Defined.

(* ------------------------------------------------------------------------- *)
(** ** Registered functions and methods *)

Section Builtins.

(** A registry in which [if] is the source's [globalFunctions.if]. *)
Definition builtins_if (name : string) : option global_fn :=
  if String.eqb name "if" then Some global_if else None.

(** X22: evaluating a call [if(c, a, b)] evaluates the condition and then only
    the branch it selects: with a truthy condition the result is that of [a],
    whatever [b] would do (even throw), and with a falsy one that of [b]
    whatever [a] would do, or [null] when there is no third argument. An error
    of the condition is the error of the call, and a call with fewer than two
    arguments throws "if() expects at least 2 arguments". *)
Theorem X22_if_evaluates_one_branch off G M A strict (c a b : expr) ctx :
  G "if" = Some global_if ->
  (forall cv, evaluateAst off G M A strict c ctx = Ok cv ->
     (toBoolean cv = true ->
        evaluateAst off G M A strict (ECall (EIdentifier "if") [c; a; b]) ctx =
          evaluateAst off G M A strict a ctx /\
        evaluateAst off G M A strict (ECall (EIdentifier "if") [c; a]) ctx =
          evaluateAst off G M A strict a ctx) /\
     (toBoolean cv = false ->
        evaluateAst off G M A strict (ECall (EIdentifier "if") [c; a; b]) ctx =
          evaluateAst off G M A strict b ctx /\
        evaluateAst off G M A strict (ECall (EIdentifier "if") [c; a]) ctx = Ok VNull)) /\
  (forall e, evaluateAst off G M A strict c ctx = Throw e ->
     evaluateAst off G M A strict (ECall (EIdentifier "if") [c; a; b]) ctx = Throw e) /\
  (forall args, (length args < 2)%nat ->
     evaluateAst off G M A strict (ECall (EIdentifier "if") args) ctx =
       throw_error "if() expects at least 2 arguments").
Proof.
  intros Hif. split; [|split].
  - intros cv Hc. simpl. unfold invokeGlobalFunction. rewrite Hif. unfold global_if.
    rewrite Hc. simpl. split; intros Hb; rewrite Hb; split; reflexivity.
  - intros e Hc. simpl. unfold invokeGlobalFunction. rewrite Hif. unfold global_if.
    rewrite Hc. reflexivity.
  - intros args Hlen. simpl. unfold invokeGlobalFunction. rewrite Hif. unfold global_if.
    destruct args as [|x [|y args]]; simpl in Hlen; try lia; reflexivity.
Qed.

Lemma X22_if_evaluates_one_branch_witness :
  evaluateAst 0 builtins_if (fun _ _ => None) (fun _ => None) true
    (ECall (EIdentifier "if") [ELiteral (VBool true) "true"; ELiteral (VNum 1) "1";
                               EIdentifier "missing"]) [] = Ok (VNum 1) /\
  evaluateAst 0 builtins_if (fun _ _ => None) (fun _ => None) true
    (ECall (EIdentifier "if") [ELiteral (VBool false) "false"; EIdentifier "missing";
                               ELiteral (VNum 2) "2"]) [] = Ok (VNum 2) /\
  evaluateAst 0 builtins_if (fun _ _ => None) (fun _ => None) true
    (ECall (EIdentifier "if") [ELiteral (VBool true) "true"]) [] =
    throw_error "if() expects at least 2 arguments".
Proof.
  split; [|split].
  - destruct (X22_if_evaluates_one_branch 0 builtins_if (fun _ _ => None) (fun _ => None) true
                (ELiteral (VBool true) "true") (ELiteral (VNum 1) "1") (EIdentifier "missing")
                [] eq_refl) as [H1 _].
    destruct (H1 (VBool true) eq_refl) as [Ht _]. exact (proj1 (Ht eq_refl)).
  - destruct (X22_if_evaluates_one_branch 0 builtins_if (fun _ _ => None) (fun _ => None) true
                (ELiteral (VBool false) "false") (EIdentifier "missing") (ELiteral (VNum 2) "2")
                [] eq_refl) as [H1 _].
    destruct (H1 (VBool false) eq_refl) as [_ Hf]. exact (proj1 (Hf eq_refl)).
  - destruct (X22_if_evaluates_one_branch 0 builtins_if (fun _ _ => None) (fun _ => None) true
                (ELiteral (VBool true) "true") (ELiteral (VNum 1) "1") (ELiteral (VNum 1) "1")
                [] eq_refl) as [_ [_ H3]].
    apply H3. simpl. lia.
Defined.

End Builtins.

(** [l1] is [l2] with some entries left out, the others in their order. *)
Inductive subseq {X : Type} : list X -> list X -> Prop :=
| subseq_nil : subseq [] []
| subseq_keep x l1 l2 : subseq l1 l2 -> subseq (x :: l1) (x :: l2)
| subseq_drop x l1 l2 : subseq l1 l2 -> subseq l1 (x :: l2).

(** The key of an entry for [unique]: its [stableStringify] rendering. *)
Definition unique_key (x : value) (k : string) : Prop := stableStringify x = Ok k.

Lemma existsb_eqb_In k seen : existsb (String.eqb k) seen = true <-> In k seen.
Proof.
  rewrite existsb_exists. split.
  - intros [x [Hx E]]. apply String.eqb_eq in E. subst. exact Hx.
  - intros Hin. exists k. split; [exact Hin | apply String.eqb_refl].
Qed.

Lemma unique_go_spec l seen output out :
  unique_go l seen output = Ok out ->
  exists added ks,
    out = (output ++ added)%list /\ subseq added l /\ Forall2 unique_key added ks /\
    NoDup ks /\ (forall k, In k ks -> ~ In k seen) /\
    (forall x, In x l -> exists k, unique_key x k /\ (In k seen \/ In k ks)).
Proof.
  revert seen output. induction l as [|x l IH]; intros seen output H.
  - simpl in H. injection H as <-. exists [], []. rewrite app_nil_r.
    repeat split; try constructor; simpl; tauto.
  - simpl in H. inv_bind H key Hkey.
    destruct (existsb (String.eqb key) seen) eqn:Es.
    + destruct (IH _ _ H) as [added [ks [Ho [Hs [Hf [Hn [Hd Hc]]]]]]].
      exists added, ks. repeat split; auto.
      * constructor. exact Hs.
      * intros y [<-|Hy]; [|exact (Hc y Hy)].
        exists key. split; [exact Hkey|]. left. apply existsb_eqb_In. exact Es.
    + destruct (IH _ _ H) as [added [ks [Ho [Hs [Hf [Hn [Hd Hc]]]]]]].
      exists (x :: added), (key :: ks). repeat split.
      * rewrite Ho, <- app_assoc. reflexivity.
      * constructor. exact Hs.
      * constructor; [exact Hkey | exact Hf].
      * constructor; [|exact Hn]. intros Hin. exact (Hd key Hin (or_introl eq_refl)).
      * intros k [<-|Hk] Hin.
        -- apply (proj2 (existsb_eqb_In _ _)) in Hin. congruence.
        -- exact (Hd k Hk (or_intror Hin)).
      * intros y [<-|Hy].
        -- exists key. split; [exact Hkey|]. right. left. reflexivity.
        -- destruct (Hc y Hy) as [k [Hk [Hin|Hin]]]; exists k; split; auto.
           ++ destruct (String.eqb_spec k key) as [->|Hne]; [right; left; reflexivity|].
              destruct Hin as [Hin|Hin]; [congruence|]. left. exact Hin.
           ++ right. right. exact Hin.
Qed.

Lemma unique_go_distinct l ks seen output :
  Forall2 unique_key l ks -> NoDup ks -> (forall k, In k ks -> ~ In k seen) ->
  unique_go l seen output = Ok (output ++ l)%list.
Proof.
  intros Hf. revert seen output. induction Hf as [|x k l ks Hk Hf IH];
    intros seen output Hn Hd; simpl.
  - rewrite app_nil_r. reflexivity.
  - unfold unique_key in Hk. rewrite Hk. simpl.
    inversion Hn as [|? ? Hnin Hn']; subst.
    destruct (existsb (String.eqb k) seen) eqn:Es.
    + apply existsb_eqb_In in Es. exfalso. exact (Hd k (or_introl eq_refl) Es).
    + rewrite (IH (k :: seen) (output ++ [x])%list Hn').
      * rewrite <- app_assoc. reflexivity.
      * intros k' Hk' [<-|Hin]; [exact (Hnin Hk')|]. exact (Hd k' (or_intror Hk') Hin).
Qed.

(** X23: [list.unique()] keeps, in their order, entries of the list whose
    [stableStringify] keys are pairwise distinct, and every entry of the list
    has its key among them: an entry is dropped only when an entry with the
    same key is kept. Applying [unique] to the result changes nothing, and a
    target that is not a list gives the empty list. *)
Theorem X23_unique l args ctx strict r :
  list_unique (VList l) args ctx strict = Ok r ->
  exists out ks,
    r = VList out /\ subseq out l /\ Forall2 unique_key out ks /\ NoDup ks /\
    (forall x, In x l -> exists k, unique_key x k /\ In k ks) /\
    (forall args' ctx' strict', list_unique r args' ctx' strict' = Ok r) /\
    (forall t, is_list t = false -> list_unique t args ctx strict = Ok (VList [])).
Proof.
  intros H. unfold list_unique in H. inv_bind H out Hout. injection H as <-.
  destruct (unique_go_spec _ _ _ _ Hout) as [added [ks [Ho [Hs [Hf [Hn [_ Hc]]]]]]].
  simpl in Ho. subst added. exists out, ks. repeat split; auto.
  - intros x Hx. destruct (Hc x Hx) as [k [Hk [[]|Hin]]]. exists k. auto.
  - intros args' ctx' strict'. unfold list_unique. simpl.
    rewrite (unique_go_distinct out ks [] [] Hf Hn); [reflexivity|]. intros k _ [].
  - intros t Ht. destruct t; try discriminate; reflexivity.
Qed.

Definition unique_example : list value := [VNum 1; VStr "a"; VNum 1; VStr "1"].

Lemma X23_unique_witness :
  list_unique (VList unique_example) [] [] true = Ok (VList [VNum 1; VStr "a"; VStr "1"]) /\
  exists out ks,
    VList [VNum 1; VStr "a"; VStr "1"] = VList out /\ subseq out unique_example /\
    Forall2 unique_key out ks /\ NoDup ks /\
    (forall x, In x unique_example -> exists k, unique_key x k /\ In k ks) /\
    (forall args' ctx' strict', list_unique (VList [VNum 1; VStr "a"; VStr "1"]) args' ctx' strict' =
                                Ok (VList [VNum 1; VStr "a"; VStr "1"])) /\
    (forall t, is_list t = false -> list_unique t [] [] true = Ok (VList [])).
Proof.
  assert (H : list_unique (VList unique_example) [] [] true =
              Ok (VList [VNum 1; VStr "a"; VStr "1"])) by (vm_compute; reflexivity).
  split; [exact H|].
  exact (X23_unique unique_example [] [] true _ H).
Defined.

Lemma starts_with_app_r p l r : starts_with p l = true -> starts_with p (l ++ r)%list = true.
Proof.
  revert l. induction p as [|c p IH]; intros [|d l] H; simpl in *; try reflexivity; try discriminate.
  apply andb_true_iff in H. destruct H as [H1 H2]. rewrite H1, (IH l H2). reflexivity.
Qed.

Lemma starts_with_long p l r :
  (length p <= length l)%nat -> starts_with p (l ++ r)%list = starts_with p l.
Proof.
  revert l. induction p as [|c p IH]; intros [|d l] H; simpl in *; try reflexivity; try lia.
  rewrite IH by lia. reflexivity.
Qed.

Lemma starts_with_self p r : starts_with p (p ++ r)%list = true.
Proof. induction p as [|c p IH]; simpl; [reflexivity|]. rewrite Ascii.eqb_refl. exact IH. Qed.

Lemma split_go_skip sep x rest cur :
  split_go sep (x ++ rest)%list (length x) cur = split_go sep rest 0 cur.
Proof. induction x as [|c x IH]; simpl; [reflexivity | exact IH]. Qed.

(** In [p] followed by [sep], the first occurrence of [sep] is the appended one. *)
Definition sep_only_at_end (sep p : chars) : Prop :=
  forall i, (i < length p)%nat -> starts_with sep (skipn i p ++ sep)%list = false.

Lemma sep_only_at_end_tail sep c p : sep_only_at_end sep (c :: p) -> sep_only_at_end sep p.
Proof. intros H i Hi. apply (H (S i)). simpl. lia. Qed.

Lemma split_go_part sep p rest cur :
  sep <> [] -> sep_only_at_end sep p ->
  split_go sep (p ++ sep ++ rest)%list 0 cur = (rev cur ++ p)%list :: split_go sep rest 0 [].
Proof.
  intros Hsep. revert cur. induction p as [|c p IH]; intros cur Hp.
  - destruct sep as [|s sep']; [congruence|]. cbn [app split_go].
    pose proof (starts_with_self (s :: sep') rest) as Hss. simpl app in Hss.
    rewrite Hss. rewrite app_nil_r. f_equal.
    cbn [length]. replace (S (length sep') - 1)%nat with (length sep') by lia.
    apply split_go_skip.
  - cbn [app split_go].
    assert (E : starts_with sep (c :: p ++ sep ++ rest)%list = false).
    { rewrite app_assoc.
      change (c :: (p ++ sep) ++ rest)%list with ((c :: p ++ sep) ++ rest)%list.
      rewrite starts_with_long by (simpl; rewrite length_app; lia).
      exact (Hp 0%nat ltac:(simpl; lia)). }
    rewrite E. rewrite (IH (c :: cur) (sep_only_at_end_tail _ _ _ Hp)).
    simpl. rewrite <- app_assoc. reflexivity.
Qed.

Lemma split_go_last sep p cur :
  sep_only_at_end sep p -> split_go sep p 0 cur = [(rev cur ++ p)%list].
Proof.
  revert cur. induction p as [|c p IH]; intros cur Hp; simpl.
  - rewrite app_nil_r. reflexivity.
  - destruct (starts_with sep (c :: p)) eqn:E.
    + exfalso. pose proof (Hp 0%nat ltac:(simpl; lia)) as H0. simpl skipn in H0.
      rewrite (starts_with_app_r _ _ sep E) in H0. discriminate.
    + rewrite (IH (c :: cur) (sep_only_at_end_tail _ _ _ Hp)). simpl.
      rewrite <- app_assoc. reflexivity.
Qed.

Lemma split_go_concat sep parts :
  sep <> "" -> parts <> [] -> (forall p, In p parts -> sep_only_at_end (chs sep) (chs p)) ->
  split_go (chs sep) (chs (String.concat sep parts)) 0 [] = map chs parts.
Proof.
  intros Hsep. induction parts as [|p [|q qs] IH]; intros Hne Hall; [congruence| |].
  - simpl. apply split_go_last. apply Hall. left. reflexivity.
  - change (String.concat sep (p :: q :: qs)) with (p ++ sep ++ String.concat sep (q :: qs)).
    rewrite !chs_app. rewrite split_go_part.
    + simpl. f_equal. apply IH; [discriminate|]. intros x Hx. apply Hall. right. exact Hx.
    + destruct sep; [congruence | discriminate].
    + apply Hall. left. reflexivity.
Qed.

Lemma map_outcome_stringify_strs parts :
  map_outcome stringifyValue (map VStr parts) = Ok parts.
Proof. induction parts as [|p ps IH]; simpl; [reflexivity|]. rewrite IH. reflexivity. Qed.

(** X24: joining a list of strings with [list.join(sep)] and splitting the
    result with [.split(sep)] gives the list back when the list is not empty,
    the separator is not empty, and within each part followed by the separator
    the only occurrence of the separator is the appended one. A [join()]
    without a separator joins with [","]. *)
Theorem X24_join_split parts sep ctx strict :
  parts <> [] -> sep <> "" ->
  (forall p, In p parts -> sep_only_at_end (chs sep) (chs p)) ->
  list_join (VList (map VStr parts)) [fun _ => Ok (VStr sep)] ctx strict =
    Ok (VStr (String.concat sep parts)) /\
  string_split (VStr (String.concat sep parts)) [fun _ => Ok (VStr sep)] ctx strict =
    Ok (VList (map VStr parts)) /\
  (forall t, list_join t [] ctx strict = list_join t [fun _ => Ok (VStr ",")] ctx strict).
Proof.
  intros Hne Hsep Hall. split; [|split].
  - unfold list_join. simpl. rewrite map_outcome_stringify_strs. reflexivity.
  - unfold string_split. simpl. unfold js_split.
    pose proof (split_go_concat sep parts Hsep Hne Hall) as Hs.
    destruct (chs sep) as [|s sep'] eqn:Es.
    + destruct sep; [congruence | discriminate].
    + rewrite Hs.
      rewrite (map_map chs str), (map_ext (fun x => str (chs x)) (fun x => x)) by apply str_chs.
      rewrite map_id. reflexivity.
  - intros t. reflexivity.
Qed.

Lemma X24_join_split_witness :
  ["a"; "b c"; ""] <> [] /\ ", " <> "" /\
  (forall p, In p ["a"; "b c"; ""] -> sep_only_at_end (chs ", ") (chs p)) /\
  (list_join (VList (map VStr ["a"; "b c"; ""])) [fun _ => Ok (VStr ", ")] [] true =
     Ok (VStr (String.concat ", " ["a"; "b c"; ""])) /\
   string_split (VStr (String.concat ", " ["a"; "b c"; ""])) [fun _ => Ok (VStr ", ")] [] true =
     Ok (VList (map VStr ["a"; "b c"; ""])) /\
   (forall t, list_join t [] [] true = list_join t [fun _ => Ok (VStr ",")] [] true)).
Proof.
  assert (H1 : ["a"; "b c"; ""] <> []) by discriminate.
  assert (H2 : ", " <> "") by discriminate.
  assert (H3 : forall p, In p ["a"; "b c"; ""] -> sep_only_at_end (chs ", ") (chs p)).
  { intros p [<-|[<-|[<-|[]]]] i Hi; simpl in Hi.
    - destruct i as [|i]; [reflexivity | lia].
    - destruct i as [|[|[|i]]]; try reflexivity; lia.
    - lia. }
  split; [exact H1|]. split; [exact H2|]. split; [exact H3|].
  exact (X24_join_split ["a"; "b c"; ""] ", " [] true H1 H2 H3).
Defined.

Lemma starts_with_iff p l : starts_with p l = true <-> exists r, l = (p ++ r)%list.
Proof.
  revert l. induction p as [|c p IH]; intros [|d l]; simpl.
  - split; [intros _; exists []; reflexivity | reflexivity].
  - split; [intros _; exists (d :: l); reflexivity | reflexivity].
  - split; [discriminate | intros [r Hr]; discriminate].
  - rewrite andb_true_iff, IH. split.
    + intros [E [r ->]]. apply Ascii.eqb_eq in E. subst. exists r. reflexivity.
    + intros [r Hr]. injection Hr as -> ->. split; [apply Ascii.eqb_refl | exists r; reflexivity].
Qed.

(** The folder an [inFolder] argument names, as the method normalises it. *)
Definition folder_of (raw : string) : string := strip_trailing_slashes (normalizePath raw).

Lemma file_inFolder_str target a ctx strict :
  isFileLike target = true ->
  file_inFolder target [fun _ => Ok (VStr a)] ctx strict =
    (ff <- js_ToString (js_get target "folder") ;;
     if String.eqb (folder_of a) "" then Ok (VBool true)
     else Ok (VBool (String.eqb (normalizePath ff) (folder_of a)
                     || starts_with (chs (folder_of a ++ "/")) (chs (normalizePath ff))))).
Proof. intros H. unfold file_inFolder. rewrite H. reflexivity. Qed.

(** X25: [file.inFolder(folder)] is false for a target that is not file-like,
    true for every file when the folder argument normalises to the empty path
    (for instance [""], ["/"] or ["./"]), and respects nesting: a file in a
    folder [a/B] (after normalisation and removal of trailing slashes) is also
    in the folder [a]. *)
Theorem X25_inFolder target a b ctx strict :
  (isFileLike target = false ->
     forall args, file_inFolder target args ctx strict = Ok (VBool false)) /\
  (isFileLike target = true -> folder_of a = "" ->
     forall ff, js_ToString (js_get target "folder") = Ok ff ->
     file_inFolder target [fun _ => Ok (VStr a)] ctx strict = Ok (VBool true)) /\
  ((exists B, folder_of b = folder_of a ++ "/" ++ B) ->
     file_inFolder target [fun _ => Ok (VStr b)] ctx strict = Ok (VBool true) ->
     file_inFolder target [fun _ => Ok (VStr a)] ctx strict = Ok (VBool true)).
Proof.
  split; [|split].
  - intros H args. unfold file_inFolder. rewrite H. reflexivity.
  - intros H Ha ff Hff. rewrite (file_inFolder_str _ _ _ _ H), Hff. simpl.
    rewrite Ha. reflexivity.
  - intros [B HB] Hb. destruct (isFileLike target) eqn:Ef.
    2: { unfold file_inFolder in Hb. rewrite Ef in Hb. discriminate. }
    rewrite (file_inFolder_str target b ctx strict Ef) in Hb.
    rewrite (file_inFolder_str target a ctx strict Ef).
    inv_bind Hb ff Hff. rewrite Hff. simpl.
    rewrite HB in Hb. destruct (String.eqb (folder_of a ++ "/" ++ B) "") eqn:Eb.
    { apply String.eqb_eq in Eb. destruct (folder_of a); discriminate. }
    destruct (String.eqb (folder_of a) "") eqn:Ea; [reflexivity|].
    injection Hb as Hb. f_equal. f_equal. apply orb_true_iff in Hb. apply orb_true_iff. right.
    apply starts_with_iff. destruct Hb as [E|E].
    + apply String.eqb_eq in E. rewrite E, !chs_app. exists (chs B).
      rewrite <- app_assoc. reflexivity.
    + apply starts_with_iff in E. destruct E as [r Er]. rewrite Er, !chs_app.
      exists (chs B ++ chs "/" ++ r)%list. rewrite <- !app_assoc. reflexivity.
Qed.

Definition folder_file : value :=
  VObj [("path", VStr "projects/web/a.md"); ("name", VStr "a"); ("ext", VStr "md");
        ("folder", VStr "projects/web")].

Lemma X25_inFolder_witness :
  file_inFolder folder_file [fun _ => Ok (VStr "projects")] [] true = Ok (VBool true) /\
  file_inFolder folder_file [fun _ => Ok (VStr "./")] [] true = Ok (VBool true) /\
  file_inFolder (VObj [("folder", VStr "projects")]) [fun _ => Ok (VStr "projects")] [] true =
    Ok (VBool false).
Proof.
  split; [|split].
  - destruct (X25_inFolder folder_file "projects" "projects/web/" [] true) as [_ [_ H3]].
    apply H3; [exists "web"; vm_compute; reflexivity | vm_compute; reflexivity].
  - destruct (X25_inFolder folder_file "./" "" [] true) as [_ [H2 _]].
    apply (H2 ltac:(vm_compute; reflexivity) ltac:(vm_compute; reflexivity) "projects/web").
    vm_compute. reflexivity.
  - destruct (X25_inFolder (VObj [("folder", VStr "projects")]) "" "" [] true) as [H1 _].
    apply H1. vm_compute. reflexivity.
Defined.

(** The normalised tags of a file, as [hasTag] collects them. *)
Definition tags_of (target : value) : list string :=
  match js_get target "tags" with
  | VList items =>
      map normalizeTag
          (flat_map (fun entry => match entry with VStr s => [s] | _ => [] end) items)
  | _ => []
  end.

(** A tag matches a query when it is the query or lies below it. *)
Definition tag_matches (query tag : string) : bool :=
  String.eqb tag query || starts_with (chs (query ++ "/")) (chs tag).

Lemma file_hasTag_str target a ctx strict :
  isFileLike target = true ->
  file_hasTag target [fun _ => Ok (VStr a)] ctx strict =
    Ok (VBool (existsb (fun query => existsb (tag_matches query) (tags_of target))
                       (filter (fun entry => negb (String.eqb entry "")) [normalizeTag a]))).
Proof. intros H. unfold file_hasTag. rewrite H. reflexivity. Qed.

Lemma tag_matches_parent q r tag :
  tag_matches (q ++ "/" ++ r) tag = true -> tag_matches q tag = true.
Proof.
  unfold tag_matches. intros H. apply orb_true_iff. right. apply starts_with_iff.
  apply orb_true_iff in H. destruct H as [E|E].
  - apply String.eqb_eq in E. subst tag. rewrite !chs_app. exists (chs r).
    rewrite <- app_assoc. reflexivity.
  - apply starts_with_iff in E. destruct E as [rest ->]. rewrite !chs_app.
    exists (chs r ++ chs "/" ++ rest)%list. rewrite <- !app_assoc. reflexivity.
Qed.

(** X26: [file.hasTag(...)] is false for a target that is not file-like, false
    when no argument normalises to a non-empty tag (no argument, [""] or
    ["#"]), true when the file carries a string tag equal to the argument once
    both are trimmed and stripped of a leading [#], and respects nesting: a
    file that has the tag [q/r] (or a tag below it) also has the tag [q]. *)
Theorem X26_hasTag target a b ctx strict :
  (isFileLike target = false ->
     forall args, file_hasTag target args ctx strict = Ok (VBool false)) /\
  (isFileLike target = true ->
     file_hasTag target [] ctx strict = Ok (VBool false) /\
     (normalizeTag a = "" ->
        file_hasTag target [fun _ => Ok (VStr a)] ctx strict = Ok (VBool false))) /\
  (isFileLike target = true -> normalizeTag a <> "" ->
     forall items t, js_get target "tags" = VList items -> In (VStr t) items ->
     normalizeTag t = normalizeTag a ->
     file_hasTag target [fun _ => Ok (VStr a)] ctx strict = Ok (VBool true)) /\
  (normalizeTag a <> "" -> (exists r, normalizeTag b = normalizeTag a ++ "/" ++ r) ->
     file_hasTag target [fun _ => Ok (VStr b)] ctx strict = Ok (VBool true) ->
     file_hasTag target [fun _ => Ok (VStr a)] ctx strict = Ok (VBool true)).
Proof.
  split; [|split; [|split]].
  - intros H args. unfold file_hasTag. rewrite H. reflexivity.
  - intros H. split; [unfold file_hasTag; rewrite H; reflexivity|].
    intros Ha. rewrite (file_hasTag_str _ _ _ _ H), Ha. reflexivity.
  - intros H Ha items t Hi Ht Heq. rewrite (file_hasTag_str _ _ _ _ H).
    apply String.eqb_neq in Ha. simpl. rewrite Ha. simpl. rewrite orb_false_r.
    do 2 f_equal. apply existsb_exists. exists (normalizeTag t). split.
    + unfold tags_of. rewrite Hi. apply in_map. apply in_flat_map. exists (VStr t).
      split; [exact Ht | left; reflexivity].
    + unfold tag_matches. rewrite Heq, String.eqb_refl. reflexivity.
  - intros Ha [r Hr] Hb. destruct (isFileLike target) eqn:Ef.
    2: { unfold file_hasTag in Hb. rewrite Ef in Hb. discriminate. }
    rewrite (file_hasTag_str target b ctx strict Ef) in Hb.
    rewrite (file_hasTag_str target a ctx strict Ef).
    apply String.eqb_neq in Ha. simpl. rewrite Ha. simpl. rewrite orb_false_r.
    simpl in Hb. destruct (String.eqb (normalizeTag b) "") eqn:Eb; simpl in Hb;
      [discriminate|]. rewrite orb_false_r in Hb. injection Hb as Hb.
    do 2 f_equal. apply existsb_exists in Hb. destruct Hb as [tag [Hin Hm]].
    apply existsb_exists. exists tag. split; [exact Hin|].
    rewrite Hr in Hm. exact (tag_matches_parent _ _ _ Hm).
Qed.

Definition tagged_file : value :=
  VObj [("path", VStr "notes/a.md"); ("name", VStr "a"); ("ext", VStr "md");
        ("tags", VList [VStr "#project/web"; VNum 3; VStr " area "])].

Lemma X26_hasTag_witness :
  file_hasTag tagged_file [fun _ => Ok (VStr "project")] [] true = Ok (VBool true) /\
  file_hasTag tagged_file [fun _ => Ok (VStr "#area")] [] true = Ok (VBool true) /\
  file_hasTag tagged_file [fun _ => Ok (VStr " # ")] [] true = Ok (VBool false) /\
  file_hasTag tagged_file [] [] true = Ok (VBool false) /\
  file_hasTag (VStr "notes/a.md") [fun _ => Ok (VStr "project")] [] true = Ok (VBool false).
Proof.
  split; [|split; [|split; [|split]]].
  - destruct (X26_hasTag tagged_file "project" "project/web" [] true) as [_ [_ [_ H4]]].
    apply H4; [vm_compute; discriminate | exists "web"; vm_compute; reflexivity |].
    destruct (X26_hasTag tagged_file "project/web" "" [] true) as [_ [_ [H3 _]]].
    apply (H3 eq_refl ltac:(vm_compute; discriminate) _ "#project/web" eq_refl
              ltac:(simpl; auto) ltac:(vm_compute; reflexivity)).
  - destruct (X26_hasTag tagged_file "#area" "" [] true) as [_ [_ [H3 _]]].
    apply (H3 eq_refl ltac:(vm_compute; discriminate) _ " area " eq_refl
              ltac:(simpl; auto) ltac:(vm_compute; reflexivity)).
  - destruct (X26_hasTag tagged_file " # " "" [] true) as [_ [H2 _]].
    apply (proj2 (H2 eq_refl)). vm_compute. reflexivity.
  - destruct (X26_hasTag tagged_file "" "" [] true) as [_ [H2 _]].
    exact (proj1 (H2 eq_refl)).
  - destruct (X26_hasTag (VStr "notes/a.md") "" "" [] true) as [H1 _].
    exact (H1 eq_refl _).
Defined.

(* ------------------------------------------------------------------------- *)
(** ** Normalising order lists *)

Lemma normalize_order_entries_spec path (l : list value) :
  forall index output issues,
  normalize_order_entries path index l output issues =
    ((output ++ flat_map (fun e => match e with VStr s => [s] | _ => [] end) l)%list,
     (issues ++ flat_map (fun ie => if is_string (snd ie) then []
                                    else [order_entry_issue path (fst ie)])
                         (combine (seq index (length l)) l))%list).
Proof.
  induction l as [|e l IH]; intros index output issues.
  - simpl. rewrite !app_nil_r. reflexivity.
  - destruct e; simpl; rewrite IH; rewrite <- !app_assoc; reflexivity.
Qed.

(** X27: [normalizeOrderList] returns nothing and records nothing for an
    undefined value, records "<path> must be an array" for any other
    non-array, and for an array returns its string entries in order while
    recording, after the issues already present, one issue
    "<path>[<index>] must be a string property name" per other entry, in
    index order. *)
Theorem X27_normalizeOrderList entries v path issues :
  normalizeOrderList (VList entries) path issues =
    (Some (flat_map (fun e => match e with VStr s => [s] | _ => [] end) entries),
     (issues ++ flat_map (fun ie => if is_string (snd ie) then []
                                    else [order_entry_issue path (fst ie)])
                         (combine (seq 0 (length entries)) entries))%list) /\
  normalizeOrderList VUndef path issues = (None, issues) /\
  (v <> VUndef -> is_list v = false ->
     normalizeOrderList v path issues = (None, (issues ++ [(path ++ " must be an array")%string])%list)).
Proof.
  split; [|split].
  - unfold normalizeOrderList. rewrite normalize_order_entries_spec. reflexivity.
  - reflexivity.
  - intros Hu Hl. destruct v; try congruence; try discriminate; reflexivity.
Qed.

Lemma X27_normalizeOrderList_witness :
  normalizeOrderList (VList [VStr "name"; VNum 1; VStr "score"; VNull]) "views[0].order" [] =
    (Some ["name"; "score"],
     ["views[0].order[1] must be a string property name";
      "views[0].order[3] must be a string property name"]) /\
  normalizeOrderList (VStr "name") "views[0].order" [] =
    (None, ["views[0].order must be an array"]).
Proof.
  destruct (X27_normalizeOrderList [VStr "name"; VNum 1; VStr "score"; VNull] (VStr "name")
              "views[0].order" []) as [H1 [_ H3]].
  split.
  - rewrite H1. vm_compute. reflexivity.
  - apply H3; [discriminate | reflexivity].
Defined.

(* ------------------------------------------------------------------------- *)
(** ** List callbacks *)

Lemma filter_go_map_go e ctx l index :
  filter_go e ctx l index =
    (rs <- map_go e ctx l index ;;
     Ok (map fst (filter (fun p => toBoolean (snd p)) (combine l rs)))).
Proof.
  revert index. induction l as [|v l IH]; intros index; simpl; [reflexivity|].
  destruct (e (scoped_context ctx v index)) as [r|err|]; simpl; try reflexivity.
  rewrite IH. destruct (map_go e ctx l (S index)) as [rs|err|]; simpl; try reflexivity.
  destruct (toBoolean r); reflexivity.
Qed.

Lemma map_go_spec e ctx l index rs :
  map_go e ctx l index = Ok rs ->
  length rs = length l /\
  forall i v, nth_error l i = Some v ->
    exists r, e (scoped_context ctx v (index + i)) = Ok r /\ nth_error rs i = Some r.
Proof.
  revert index rs. induction l as [|v l IH]; intros index rs H; simpl in H.
  - injection H as <-. split; [reflexivity|]. intros [|i] w Hw; discriminate.
  - inv_bind H r Hr. inv_bind H rest Hrest. injection H as <-.
    destruct (IH _ _ Hrest) as [Hlen Hnth]. split; [simpl; f_equal; exact Hlen|].
    intros [|i] w Hw; simpl in Hw.
    + injection Hw as <-. exists r. rewrite Nat.add_0_r. split; [exact Hr | reflexivity].
    + destruct (Hnth i w Hw) as [x [Hx Hi]]. exists x. simpl.
      replace (index + S i)%nat with (S index + i)%nat by lia. split; assumption.
Qed.

(** X28: [list.map(expr)] evaluates [expr] once per entry, with [value] the
    entry and [index] its position, and returns a list of the same length whose
    i-th element is the i-th result. [list.filter(expr)] makes the same
    evaluations, fails as [map] fails, and keeps exactly the entries whose
    result is truthy, in order. Without an expression both return the list
    unchanged, and a target that is not a list is treated as the empty list. *)
Theorem X28_filter_map target l e es ctx strict :
  list_filter (VList l) (e :: es) ctx strict =
    (r <- list_map (VList l) (e :: es) ctx strict ;;
     Ok (VList (map fst (filter (fun p => toBoolean (snd p)) (combine l (as_list r)))))) /\
  (forall r, list_map (VList l) (e :: es) ctx strict = Ok r ->
     exists rs, r = VList rs /\ length rs = length l /\
       forall i v, nth_error l i = Some v ->
         exists x, e (scoped_context ctx v i) = Ok x /\ nth_error rs i = Some x) /\
  list_filter target [] ctx strict = Ok (VList (as_list target)) /\
  list_map target [] ctx strict = Ok (VList (as_list target)) /\
  (is_list target = false ->
     list_filter target (e :: es) ctx strict = Ok (VList []) /\
     list_map target (e :: es) ctx strict = Ok (VList [])).
Proof.
  split; [|split; [|split; [|split]]].
  - unfold list_filter, list_map. simpl. rewrite filter_go_map_go.
    destruct (map_go e ctx l 0); reflexivity.
  - intros r H. unfold list_map in H. simpl in H. inv_bind H rs Hrs. injection H as <-.
    destruct (map_go_spec _ _ _ _ _ Hrs) as [Hlen Hnth]. exists rs. repeat split; auto.
  - reflexivity.
  - reflexivity.
  - intros H. destruct target; try discriminate; split; reflexivity.
Qed.

(** [value * 2 > 2], as the parser builds it. *)
Definition double_gt_two : expr :=
  EBinary ">" (EBinary "*" (EIdentifier "value") (ELiteral (VNum 2) "2")) (ELiteral (VNum 2) "2").

Definition callback_thunk (x : expr) : arg_thunk :=
  fun c => evaluateAst 0 (fun _ => None) (fun _ _ => None) (fun _ => None) true x c.

Lemma X28_filter_map_witness :
  list_map (VList [VNum 1; VNum 2; VNum 3]) [callback_thunk double_gt_two] [] true =
    Ok (VList [VBool false; VBool true; VBool true]) /\
  list_filter (VList [VNum 1; VNum 2; VNum 3]) [callback_thunk double_gt_two] [] true =
    Ok (VList [VNum 2; VNum 3]).
Proof.
  destruct (X28_filter_map VNull [VNum 1; VNum 2; VNum 3] (callback_thunk double_gt_two) []
              [] true) as [H1 [H2 _]].
  assert (Hm : list_map (VList [VNum 1; VNum 2; VNum 3]) [callback_thunk double_gt_two] [] true =
               Ok (VList [VBool false; VBool true; VBool true])) by (vm_compute; reflexivity).
  split; [exact Hm|].
  rewrite H1, Hm. reflexivity.
Defined.
